(** * rangeallocator: a range allocator over a linear address space

    Shallow embedding of [src/rangeallocator.cpp] and of the interface of
    [src/rangeallocator.h].

    - [vaddr_t] (= [uintptr_t]) and [size_t] are unsigned machine integers
      of the same width [w]; they are modelled as [Z] in [0, 2^w) and
      every [+], [-] and [*] of the source is followed by an explicit
      reduction modulo [2^w].
    - The singly linked list hanging off [_free_mem_root.next] is a Rocq
      list of [span] nodes, in link order.  A node remembers the index of
      the pool record it lives in ([span_slot]), which is what the C++
      pointer to it identifies.
    - [span_manager_pool] is the vector of records together with the chain
      of the records that are available, as the list of their indices.
      It is the store the program is built with
      ([typedef span_manager_pool AllocatorStrategy]).
    - Undefined behaviour of the source (dereferencing the null pointer
      returned by an exhausted pool, indexing an empty vector, dividing by
      zero) is the outcome [Crash]. *)

From Stdlib Require Import ZArith List Bool Lia Permutation.
Import ListNotations.
Local Open Scope Z_scope.

(** ** Outcomes of a run of source code *)

Inductive run (A : Type) : Type :=
| Done (a : A)
| Crash.
Arguments Done {A} a.
Arguments Crash {A}.

Definition bind {A B : Type} (m : run A) (k : A -> run B) : run B :=
  match m with
  | Done a => k a
  | Crash => Crash
  end.

Notation "x <- m ;; k" := (bind m (fun x => k))
  (at level 61, m at next level, right associativity).
Notation "' p <- m ;; k" := (bind m (fun x => match x with p => k end))
  (at level 61, p pattern, m at next level, right associativity).

(** ** rangeallocator.h *)

Inductive allocation_flags : Type :=
| ALLOCATE_ANY
| ALLOCATE_EXACT
| ALLOCATE_ABOVE
| ALLOCATE_BELOW.

(** ** struct span

    [span_base] and [span_length] are the fields [base] and [length];
    [next] is the position in the list; [span_slot] names the record. *)
Record span : Type := mk_span {
  span_slot : nat;
  span_base : Z;
  span_length : Z
}.

(** ** class span_manager_pool *)
Record span_manager_pool : Type := mk_pool {
  _pool : Z;                      (* number of records of the vector *)
  _available_spans : list nat     (* chain of available records, head first *)
}.

(** The constructor links record [i] to record [i + 1] and makes record 0
    the head of the chain.  With [max_instances = 0] the loop bound
    [max_instances - 1] wraps around and [_pool[i]] indexes an empty
    vector. *)
Definition span_manager_pool_new (max_instances : Z) : run span_manager_pool :=
  if max_instances =? 0 then Crash
  else Done (mk_pool max_instances (seq 0 (Z.to_nat max_instances))).

(** [get] returns the null pointer ([None]) when the chain is empty. *)
Definition get (p : span_manager_pool) : option nat * span_manager_pool :=
  match _available_spans p with
  | s :: rest => (Some s, mk_pool (_pool p) rest)
  | [] => (None, p)
  end.

Definition release (p : span_manager_pool) (s : nat) : span_manager_pool :=
  mk_pool (_pool p) (s :: _available_spans p).

(** ** class range_allocator<span_manager_pool> *)
Record range_allocator : Type := mk_range_allocator {
  _base : Z;
  _length : Z;
  _granularity : Z;
  _free_mem_root : list span;
  _spans : span_manager_pool
}.

(** ** class span_manager_allocate

    The store that keeps the released records in a chain and makes a new
    one when the chain is empty.  A record made by [new span] is named by
    the number of records made before it. *)
Record span_manager_allocate : Type := mk_dynamic {
  dynamic_available_spans : list nat;   (* [_available_spans], head first *)
  dynamic_made : nat                    (* records made by [new span] *)
}.

Definition span_manager_allocate_new (max_instances : Z)
    : run span_manager_allocate :=
  Done (mk_dynamic [] 0).

Definition dynamic_get (d : span_manager_allocate)
    : option nat * span_manager_allocate :=
  match dynamic_available_spans d with
  | s :: rest => (Some s, mk_dynamic rest (dynamic_made d))
  | [] => (Some (dynamic_made d), mk_dynamic [] (S (dynamic_made d)))
  end.

Definition dynamic_release (d : span_manager_allocate) (s : nat)
    : span_manager_allocate :=
  mk_dynamic (s :: dynamic_available_spans d) (dynamic_made d).

(** The destructor deletes the records of the chain, head first. *)
Definition span_manager_allocate_delete (d : span_manager_allocate)
    : list nat :=
  dynamic_available_spans d.

(** ** States used in the examples

    The allocator of [src/main.cpp]: range [0x1000, 0x1000 + 4096),
    granularity 64, as the constructor leaves it; the same after
    [allocate(64, ALLOCATE_EXACT, 0x1800)]; and after
    [allocate(64, ALLOCATE_EXACT, 0x100A)], a hint off the grid. *)
Definition fresh_4096 : range_allocator :=
  mk_range_allocator 4096 4096 64 [mk_span 0 4096 4096]
                     (mk_pool 32 (seq 1 31)).

Definition hole_at_6144 : range_allocator :=
  mk_range_allocator 4096 4096 64
                     [mk_span 0 4096 2048; mk_span 1 6208 1984]
                     (mk_pool 32 (seq 2 30)).

Definition hole_at_4106 : range_allocator :=
  mk_range_allocator 4096 4096 64
                     [mk_span 0 4096 10; mk_span 1 4170 4022]
                     (mk_pool 32 (seq 2 30)).

(** Three granules: the pool gets [3 / 2 = 1] record. *)
Definition fresh_192 : range_allocator :=
  mk_range_allocator 4096 192 64 [mk_span 0 4096 192] (mk_pool 1 []).

(** A range that ends 64 below [2^64]. *)
Definition fresh_top : range_allocator :=
  mk_range_allocator (2 ^ 64 - 4160) 4096 64
                     [mk_span 0 (2 ^ 64 - 4160) 4096]
                     (mk_pool 32 (seq 1 31)).

(** The fresh allocator after [allocate(64, ANY)] once and twice. *)
Definition one_block : range_allocator :=
  mk_range_allocator 4096 4096 64 [mk_span 0 4160 4032]
                     (mk_pool 32 (seq 1 31)).

Definition two_blocks : range_allocator :=
  mk_range_allocator 4096 4096 64 [mk_span 0 4224 3968]
                     (mk_pool 32 (seq 1 31)).

(** A range that ends at [2^64]. *)
Definition range_to_top : range_allocator :=
  mk_range_allocator (2 ^ 64 - 4096) 4096 64
                     [mk_span 0 (2 ^ 64 - 4096) 4096]
                     (mk_pool 32 (seq 1 31)).

Section Machine.

(** Number of bits of [size_t] and [uintptr_t]. *)
Variable w : nat.

Definition modulus : Z := 2 ^ Z.of_nat w.

Definition wadd (a b : Z) : Z := (a + b) mod modulus.
Definition wsub (a b : Z) : Z := (a - b) mod modulus.
Definition wmul (a b : Z) : Z := (a * b) mod modulus.

(** A value of type [size_t] or [vaddr_t]. *)
Definition is_word (z : Z) : Prop := 0 <= z < modulus.

(** [(vaddr_t)-1] *)
Definition invalid : Z := wsub 0 1.

(** [(x / g) * g] *)
Definition round_down (g x : Z) : Z := wmul (x / g) g.

(** [((x + g - 1) / g) * g] *)
Definition round_up (g x : Z) : Z := wmul (wsub (wadd x g) 1 / g) g.

(** [add_span]: a record from the pool, or the null pointer. *)
Definition add_span (p : span_manager_pool) : option nat * span_manager_pool :=
  get p.

(** [remove_span(prev, curr)]: the caller drops [curr] from the list
    ([prev->next = curr->next]); its record goes back to the pool. *)
Definition remove_span (p : span_manager_pool) (curr : span) : span_manager_pool :=
  release p (span_slot curr).

Definition check_span (s : span) (length : Z) (flags : allocation_flags)
    (hint : Z) : bool :=
  match flags with
  | ALLOCATE_ANY => length <=? span_length s
  | ALLOCATE_EXACT =>
      (span_base s <=? hint)
      && (wadd hint length <=? wadd (span_base s) (span_length s))
  | ALLOCATE_ABOVE =>
      if hint <=? span_base s then length <=? span_length s
      else if hint <=? wadd (span_base s) (span_length s)
      then wadd hint length <=? wadd (span_base s) (span_length s)
      else false
  | ALLOCATE_BELOW =>
      (wadd (span_base s) length <=? hint) && (length <=? span_length s)
  end.

(** The three truncations act on the node [curr] and on [tail], the nodes
    linked after it; they return what [prev->next] points to afterwards. *)
Definition trunc_span_low (p : span_manager_pool) (curr : span)
    (tail : list span) (length : Z) : list span * span_manager_pool :=
  if length =? span_length curr then (tail, remove_span p curr)
  else (mk_span (span_slot curr) (wadd (span_base curr) length)
                (wsub (span_length curr) length) :: tail, p).

Definition trunc_span_high (p : span_manager_pool) (curr : span)
    (tail : list span) (length : Z) : list span * span_manager_pool :=
  if length =? span_length curr then (tail, remove_span p curr)
  else (mk_span (span_slot curr) (span_base curr)
                (wsub (span_length curr) length) :: tail, p).

Definition trunc_span_middle (p : span_manager_pool) (curr : span)
    (tail : list span) (base length : Z)
    : run (list span * span_manager_pool) :=
  if length =? span_length curr then Done (tail, remove_span p curr)
  else
    match add_span p with
    | (None, _) => Crash
    | (Some s, p') =>
        let s_base := wadd base length in
        let s_length :=
          wsub (wadd (span_base curr) (span_length curr)) s_base in
        Done (mk_span (span_slot curr) (span_base curr)
                      (wsub base (span_base curr))
                :: mk_span s s_base s_length :: tail, p')
    end.

Definition split_span (p : span_manager_pool) (curr : span)
    (tail : list span) (length : Z) (flags : allocation_flags) (hint : Z)
    : run (Z * list span * span_manager_pool) :=
  match flags with
  | ALLOCATE_ANY =>
      let '(l, p') := trunc_span_low p curr tail length in
      Done (span_base curr, l, p')
  | ALLOCATE_EXACT =>
      if span_base curr =? hint then
        let '(l, p') := trunc_span_low p curr tail length in
        Done (hint, l, p')
      else if wadd hint length =? wadd (span_base curr) (span_length curr)
      then
        let '(l, p') := trunc_span_high p curr tail length in
        Done (hint, l, p')
      else
        '(l, p') <- trunc_span_middle p curr tail hint length ;;
        Done (hint, l, p')
  | ALLOCATE_ABOVE =>
      let base := wsub (wadd (span_base curr) (span_length curr)) length in
      let '(l, p') := trunc_span_high p curr tail length in
      Done (base, l, p')
  | ALLOCATE_BELOW =>
      let '(l, p') := trunc_span_low p curr tail length in
      Done (span_base curr, l, p')
  end.

(** The search loop of [allocate], from [current] on; the nodes it walks
    past stay linked in front of the result. *)
Fixpoint allocate_scan (p : span_manager_pool) (current : list span)
    (length : Z) (flags : allocation_flags) (hint : Z)
    : run (Z * list span * span_manager_pool) :=
  match current with
  | [] => Done (invalid, [], p)
  | curr :: tail =>
      if check_span curr length flags hint
      then split_span p curr tail length flags hint
      else
        '(a, l, p') <- allocate_scan p tail length flags hint ;;
        Done (a, curr :: l, p')
  end.

Definition allocate (ra : range_allocator) (length : Z)
    (flags : allocation_flags) (hint : Z) : run (Z * range_allocator) :=
  if _granularity ra =? 0 then Crash
  else
    let length := round_up (_granularity ra) length in
    if length =? 0 then Done (invalid, ra)
    else if _length ra <? length then Done (invalid, ra)
    else
      '(a, l, p') <-
        allocate_scan (_spans ra) (_free_mem_root ra) length flags hint ;;
      Done (a, mk_range_allocator (_base ra) (_length ra) (_granularity ra)
                                  l p').

(** The loop of [free], with [next :: rest] the nodes still ahead. *)
Fixpoint free_scan (p : span_manager_pool) (nodes : list span)
    (base length : Z) : run (list span * span_manager_pool) :=
  match nodes with
  | [] =>
      match add_span p with
      | (None, _) => Crash
      | (Some s, p') => Done ([mk_span s base length], p')
      end
  | next :: rest =>
      if wadd base length <? span_base next then
        match add_span p with
        | (None, _) => Crash
        | (Some s, p') => Done (mk_span s base length :: next :: rest, p')
        end
      else if wadd base length =? span_base next then
        Done (mk_span (span_slot next) base
                      (wadd (span_length next) length) :: rest, p)
      else if base <? wadd (span_base next) (span_length next) then
        Done (next :: rest, p)
      else if base =? wadd (span_base next) (span_length next) then
        let extended :=
          mk_span (span_slot next) (span_base next)
                  (wadd (span_length next) length) :: rest in
        match rest with
        | next_next :: rest' =>
            if span_base next_next <? wadd base length then
              Done (next :: rest, p)
            else if wadd base length =? span_base next_next then
              Done (mk_span (span_slot next) (span_base next)
                            (wadd (span_length next)
                                  (wadd length (span_length next_next)))
                      :: rest', remove_span p next_next)
            else Done (extended, p)
        | [] => Done (extended, p)
        end
      else
        '(l, p') <- free_scan p rest base length ;;
        Done (next :: l, p')
  end.

Definition free (ra : range_allocator) (base length : Z)
    : run range_allocator :=
  if _granularity ra =? 0 then Crash
  else
    let base := round_down (_granularity ra) base in
    let length := round_up (_granularity ra) length in
    if length =? 0 then Done ra
    else if (base <? _base ra)
            || (wadd (_base ra) (_length ra) <=? base) then Done ra
    else if wadd (_base ra) (_length ra) <? wadd base length then Done ra
    else
      '(l, p') <- free_scan (_spans ra) (_free_mem_root ra) base length ;;
      Done (mk_range_allocator (_base ra) (_length ra) (_granularity ra)
                               l p').

(** The constructor of [range_allocator]. *)
Definition range_allocator_new (base length granularity : Z)
    : run range_allocator :=
  if granularity =? 0 then Crash
  else
    p <- span_manager_pool_new ((length / granularity) / 2) ;;
    let length' := wmul (length / granularity) granularity in
    match add_span p with
    | (None, _) => Crash
    | (Some s, p') =>
        Done (mk_range_allocator base length' granularity
                                 [mk_span s base length'] p')
    end.

(** [create_range_allocator]; the null handle is [None]. *)
Definition create_range_allocator (base length granularity : Z)
    : run (option range_allocator) :=
  if base =? 0 then Done None
  else if length =? 0 then Done None
  else if granularity =? 0 then Done None
  else if length <? granularity then Done None
  else
    ra <- range_allocator_new base length granularity ;;
    Done (Some ra).

(** [allocate_range] and [free_range] on a handle. *)
Definition allocate_range (ralloc : option range_allocator) (length : Z)
    (flags : allocation_flags) (optional_hint : Z)
    : run (Z * option range_allocator) :=
  match ralloc with
  | None => Done (invalid, None)
  | Some ra =>
      '(a, ra') <- allocate ra length flags optional_hint ;;
      Done (a, Some ra')
  end.

Definition free_range (ralloc : option range_allocator) (base length : Z)
    : run (option range_allocator) :=
  match ralloc with
  | None => Done None
  | Some ra => ra' <- free ra base length ;; Done (Some ra')
  end.

(** ** Sequences of calls on one allocator *)

Inductive call : Type :=
| Allocate (length : Z) (flags : allocation_flags) (hint : Z)
| Free (base length : Z).

Definition step (ra : range_allocator) (c : call) : run range_allocator :=
  match c with
  | Allocate length flags hint =>
      '(_, ra') <- allocate ra length flags hint ;; Done ra'
  | Free base length => free ra base length
  end.

Fixpoint run_calls (ra : range_allocator) (cs : list call)
    : run range_allocator :=
  match cs with
  | [] => Done ra
  | c :: cs' => ra' <- step ra c ;; run_calls ra' cs'
  end.

(** The calls of the test driver around the hole at [0x1800]. *)
Definition hole_calls : list call :=
  [Allocate 100 ALLOCATE_EXACT 6144; Free 6144 128;
   Allocate 64 ALLOCATE_EXACT 6144].

(** ** template <class SpanAllocator> class range_allocator

    The same code over any store: [store_new] is the constructor of the
    store, [store_get] and [store_release] its two member functions.  The
    definitions above are this code at [span_manager_pool]. *)
Section Template.

Variable S : Type.
Variable store_new : Z -> run S.
Variable store_get : S -> option nat * S.
Variable store_release : S -> nat -> S.

Record range_allocator_of : Type := mk_range_allocator_of {
  base_of : Z;
  length_of : Z;
  granularity_of : Z;
  free_mem_root_of : list span;
  spans_of : S
}.

Definition trunc_span_low_of (p : S) (curr : span) (tail : list span)
    (length : Z) : list span * S :=
  if length =? span_length curr
  then (tail, store_release p (span_slot curr))
  else (mk_span (span_slot curr) (wadd (span_base curr) length)
                (wsub (span_length curr) length) :: tail, p).

Definition trunc_span_high_of (p : S) (curr : span) (tail : list span)
    (length : Z) : list span * S :=
  if length =? span_length curr
  then (tail, store_release p (span_slot curr))
  else (mk_span (span_slot curr) (span_base curr)
                (wsub (span_length curr) length) :: tail, p).

Definition trunc_span_middle_of (p : S) (curr : span) (tail : list span)
    (base length : Z) : run (list span * S) :=
  if length =? span_length curr
  then Done (tail, store_release p (span_slot curr))
  else
    match store_get p with
    | (None, _) => Crash
    | (Some s, p') =>
        let s_base := wadd base length in
        let s_length :=
          wsub (wadd (span_base curr) (span_length curr)) s_base in
        Done (mk_span (span_slot curr) (span_base curr)
                      (wsub base (span_base curr))
                :: mk_span s s_base s_length :: tail, p')
    end.

Definition split_span_of (p : S) (curr : span) (tail : list span)
    (length : Z) (flags : allocation_flags) (hint : Z)
    : run (Z * list span * S) :=
  match flags with
  | ALLOCATE_ANY =>
      let '(l, p') := trunc_span_low_of p curr tail length in
      Done (span_base curr, l, p')
  | ALLOCATE_EXACT =>
      if span_base curr =? hint then
        let '(l, p') := trunc_span_low_of p curr tail length in
        Done (hint, l, p')
      else if wadd hint length =? wadd (span_base curr) (span_length curr)
      then
        let '(l, p') := trunc_span_high_of p curr tail length in
        Done (hint, l, p')
      else
        '(l, p') <- trunc_span_middle_of p curr tail hint length ;;
        Done (hint, l, p')
  | ALLOCATE_ABOVE =>
      let base := wsub (wadd (span_base curr) (span_length curr)) length in
      let '(l, p') := trunc_span_high_of p curr tail length in
      Done (base, l, p')
  | ALLOCATE_BELOW =>
      let '(l, p') := trunc_span_low_of p curr tail length in
      Done (span_base curr, l, p')
  end.

Fixpoint allocate_scan_of (p : S) (current : list span) (length : Z)
    (flags : allocation_flags) (hint : Z) : run (Z * list span * S) :=
  match current with
  | [] => Done (invalid, [], p)
  | curr :: tail =>
      if check_span curr length flags hint
      then split_span_of p curr tail length flags hint
      else
        '(a, l, p') <- allocate_scan_of p tail length flags hint ;;
        Done (a, curr :: l, p')
  end.

Definition allocate_of (ra : range_allocator_of) (length : Z)
    (flags : allocation_flags) (hint : Z) : run (Z * range_allocator_of) :=
  if granularity_of ra =? 0 then Crash
  else
    let length := round_up (granularity_of ra) length in
    if length =? 0 then Done (invalid, ra)
    else if length_of ra <? length then Done (invalid, ra)
    else
      '(a, l, p') <-
        allocate_scan_of (spans_of ra) (free_mem_root_of ra) length flags
                         hint ;;
      Done (a, mk_range_allocator_of (base_of ra) (length_of ra)
                                     (granularity_of ra) l p').

Fixpoint free_scan_of (p : S) (nodes : list span) (base length : Z)
    : run (list span * S) :=
  match nodes with
  | [] =>
      match store_get p with
      | (None, _) => Crash
      | (Some s, p') => Done ([mk_span s base length], p')
      end
  | next :: rest =>
      if wadd base length <? span_base next then
        match store_get p with
        | (None, _) => Crash
        | (Some s, p') => Done (mk_span s base length :: next :: rest, p')
        end
      else if wadd base length =? span_base next then
        Done (mk_span (span_slot next) base
                      (wadd (span_length next) length) :: rest, p)
      else if base <? wadd (span_base next) (span_length next) then
        Done (next :: rest, p)
      else if base =? wadd (span_base next) (span_length next) then
        let extended :=
          mk_span (span_slot next) (span_base next)
                  (wadd (span_length next) length) :: rest in
        match rest with
        | next_next :: rest' =>
            if span_base next_next <? wadd base length then
              Done (next :: rest, p)
            else if wadd base length =? span_base next_next then
              Done (mk_span (span_slot next) (span_base next)
                            (wadd (span_length next)
                                  (wadd length (span_length next_next)))
                      :: rest', store_release p (span_slot next_next))
            else Done (extended, p)
        | [] => Done (extended, p)
        end
      else
        '(l, p') <- free_scan_of p rest base length ;;
        Done (next :: l, p')
  end.

Definition free_of (ra : range_allocator_of) (base length : Z)
    : run range_allocator_of :=
  if granularity_of ra =? 0 then Crash
  else
    let base := round_down (granularity_of ra) base in
    let length := round_up (granularity_of ra) length in
    if length =? 0 then Done ra
    else if (base <? base_of ra)
            || (wadd (base_of ra) (length_of ra) <=? base) then Done ra
    else if wadd (base_of ra) (length_of ra) <? wadd base length then Done ra
    else
      '(l, p') <-
        free_scan_of (spans_of ra) (free_mem_root_of ra) base length ;;
      Done (mk_range_allocator_of (base_of ra) (length_of ra)
                                  (granularity_of ra) l p').

Definition range_allocator_new_of (base length granularity : Z)
    : run range_allocator_of :=
  if granularity =? 0 then Crash
  else
    p <- store_new ((length / granularity) / 2) ;;
    let length' := wmul (length / granularity) granularity in
    match store_get p with
    | (None, _) => Crash
    | (Some s, p') =>
        Done (mk_range_allocator_of base length' granularity
                                    [mk_span s base length'] p')
    end.

Definition create_range_allocator_of (base length granularity : Z)
    : run (option range_allocator_of) :=
  if base =? 0 then Done None
  else if length =? 0 then Done None
  else if granularity =? 0 then Done None
  else if length <? granularity then Done None
  else
    ra <- range_allocator_new_of base length granularity ;;
    Done (Some ra).

(** The destructor: the linked records go back to the store, head first. *)
Fixpoint release_spans_of (p : S) (l : list span) : S :=
  match l with
  | [] => p
  | s :: r => release_spans_of (store_release p (span_slot s)) r
  end.

Definition range_allocator_delete_of (ra : range_allocator_of) : S :=
  release_spans_of (spans_of ra) (free_mem_root_of ra).

Definition step_of (ra : range_allocator_of) (c : call)
    : run range_allocator_of :=
  match c with
  | Allocate length flags hint =>
      '(_, ra') <- allocate_of ra length flags hint ;; Done ra'
  | Free base length => free_of ra base length
  end.

Fixpoint run_calls_of (ra : range_allocator_of) (cs : list call)
    : run range_allocator_of :=
  match cs with
  | [] => Done ra
  | c :: cs' => ra' <- step_of ra c ;; run_calls_of ra' cs'
  end.

End Template.

Arguments mk_range_allocator_of {S} _ _ _ _ _.
Arguments base_of {S} _.
Arguments length_of {S} _.
Arguments granularity_of {S} _.
Arguments free_mem_root_of {S} _.
Arguments spans_of {S} _.
Arguments allocate_scan_of {S} _ _ _ _ _ _ _.
Arguments split_span_of {S} _ _ _ _ _ _ _ _.
Arguments allocate_of {S} _ _ _ _ _ _.
Arguments free_scan_of {S} _ _ _ _ _ _.
Arguments free_of {S} _ _ _ _ _.
Arguments range_allocator_new_of {S} _ _ _ _ _.
Arguments create_range_allocator_of {S} _ _ _ _ _.
Arguments release_spans_of {S} _ _ _.
Arguments range_allocator_delete_of {S} _ _.
Arguments step_of {S} _ _ _ _.
Arguments run_calls_of {S} _ _ _ _.

(** The allocator over [span_manager_allocate]. *)
Definition dynamic_allocator : Type := range_allocator_of span_manager_allocate.

(** A state of the template with the state over the pool that has the
    same configuration and the same list. *)
Definition with_pool {S : Type} (ra : range_allocator_of S)
    (p : span_manager_pool) : range_allocator :=
  mk_range_allocator (base_of ra) (length_of ra) (granularity_of ra)
                     (free_mem_root_of ra) p.

Definition is_allocate (c : call) : Prop :=
  match c with
  | Allocate _ _ _ => True
  | Free _ _ => False
  end.

(** ** Properties of the free span list

    Addresses are compared as integers: [span_end] is the end of a span
    without reduction modulo [2^w]. *)

Definition span_end (s : span) : Z := span_base s + span_length s.

(** [R] holds between every node and the node linked after it. *)
Fixpoint consecutive (R : span -> span -> Prop) (l : list span) : Prop :=
  match l with
  | a :: r =>
      match r with
      | b :: _ => R a b
      | [] => True
      end /\ consecutive R r
  | [] => True
  end.

Definition ascending (l : list span) : Prop :=
  consecutive (fun a b => span_base a < span_base b) l.

Definition not_adjacent (l : list span) : Prop :=
  consecutive (fun a b => span_end a <> span_base b) l.

Definition disjoint (a b : span) : Prop :=
  span_end a <= span_base b \/ span_end b <= span_base a.

Definition no_overlap (l : list span) : Prop := ForallOrdPairs disjoint l.

Definition contained (lo hi : Z) (l : list span) : Prop :=
  Forall (fun s => lo <= span_base s /\ span_end s <= hi) l.

(** The four properties in one recursive form: every span is non-empty,
    starts strictly above [lo] (the end of the span before it) and ends at
    or below [hi]. *)
Fixpoint spans_inv (lo : Z) (l : list span) (hi : Z) : Prop :=
  match l with
  | [] => True
  | s :: r =>
      lo < span_base s /\ 0 < span_length s /\ span_end s <= hi
      /\ spans_inv (span_end s) r hi
  end.

(** A state whose range does not wrap around the address space and whose
    free list satisfies the invariants of the data model. *)
Record wf (ra : range_allocator) : Prop := mk_wf {
  wf_granularity : 0 < _granularity ra;
  wf_base : 0 < _base ra;
  wf_length : 0 <= _length ra;
  wf_end : _base ra + _length ra < modulus;
  wf_spans :
    spans_inv (_base ra - 1) (_free_mem_root ra) (_base ra + _length ra)
}.

Definition span_aligned (g : Z) (s : span) : Prop :=
  span_base s mod g = 0 /\ span_length s mod g = 0 /\ 0 < span_length s.

(** Requests whose address arithmetic stays below [2^w] ([hint_fits],
    [call_fits]), and requests whose hint, when the policy returns it, is
    on the granularity grid ([hint_aligned], [call_on_grid]). *)
Definition hint_fits (flags : allocation_flags) (hint length : Z)
    : Prop :=
  match flags with
  | ALLOCATE_EXACT => hint + length < modulus
  | ALLOCATE_ABOVE => hint + length < modulus
  | _ => True
  end.

Definition hint_aligned (g : Z) (flags : allocation_flags) (hint : Z)
    : Prop :=
  match flags with
  | ALLOCATE_EXACT => hint mod g = 0
  | _ => True
  end.

Definition call_fits (g : Z) (c : call) : Prop :=
  match c with
  | Allocate length flags hint =>
      is_word length /\ is_word hint
      /\ hint_fits flags hint (round_up g length)
  | Free base length =>
      is_word base /\ is_word length
      /\ round_down g base + round_up g length < modulus
  end.

Definition call_on_grid (g : Z) (c : call) : Prop :=
  match c with
  | Allocate _ flags hint => hint_aligned g flags hint
  | Free _ _ => True
  end.

(** The configured base and every span are on the granularity grid. *)
Definition on_grid (ra : range_allocator) : Prop :=
  _base ra mod _granularity ra = 0
  /\ Forall (span_aligned (_granularity ra)) (_free_mem_root ra).

(** The records of the pool, linked in the free list or available in the
    chain, are at least one for every two granules. *)
Definition records_suffice (ra : range_allocator) : Prop :=
  _length ra
  <= 2 * (_granularity ra
          * Z.of_nat (List.length (_free_mem_root ra)
                      + List.length (_available_spans (_spans ra)))).

(** What each policy promises about the address it returns, on the span
    that [check_span] accepted. *)
Definition policy_holds (l : list span) (length : Z)
    (flags : allocation_flags) (hint a : Z) : Prop :=
  match flags with
  | ALLOCATE_ANY =>
      exists s, In s l /\ span_base s <= a /\ a + length <= span_end s
  | ALLOCATE_EXACT => a = hint
  | ALLOCATE_ABOVE => hint + length < modulus -> hint <= a
  | ALLOCATE_BELOW => a + length <= hint
  end.

(** ** The free list as a set of addresses *)

(** [x] lies in one of the spans of [l]. *)
Fixpoint covers (l : list span) (x : Z) : Prop :=
  match l with
  | [] => False
  | s :: r => span_base s <= x < span_end s \/ covers r x
  end.

Definition free_at (ra : range_allocator) (x : Z) : Prop :=
  covers (_free_mem_root ra) x.

(** The number of free bytes. *)
Fixpoint total_free (l : list span) : Z :=
  match l with
  | [] => 0
  | s :: r => span_length s + total_free r
  end.

(** The block [a, a + length) lies in the span [s] and meets the policy. *)
Definition fits (s : span) (length : Z) (flags : allocation_flags)
    (hint a : Z) : Prop :=
  span_base s <= a /\ a + length <= span_end s
  /\ match flags with
     | ALLOCATE_ANY => True
     | ALLOCATE_EXACT => a = hint
     | ALLOCATE_ABOVE => hint <= a
     | ALLOCATE_BELOW => a + length <= hint
     end.

(** Where [split_span] cuts the block out of the span: at the low end for
    ANY and BELOW, at the high end for ABOVE, at the hint for EXACT. *)
Definition placed (s : span) (length : Z) (flags : allocation_flags)
    (a : Z) : Prop :=
  match flags with
  | ALLOCATE_ABOVE => a + length = span_end s
  | ALLOCATE_EXACT => True
  | _ => a = span_base s
  end.

(** The spans of a list without the records that hold them. *)
Definition geometry (l : list span) : list (Z * Z) :=
  map (fun s => (span_base s, span_length s)) l.

(** A request to [free] that is not ignored: the rounded range is not
    empty, lies in the range of the allocator and meets no free span. *)
Definition valid_release (ra : range_allocator) (b l : Z) : Prop :=
  0 < l /\ _base ra <= b /\ b + l <= _base ra + _length ra
  /\ forall x, b <= x < b + l -> ~ free_at ra x.

(** ** The destructor of [range_allocator]

    Every node still linked goes back to the store, head first; the store
    is destroyed after it. *)
Fixpoint release_spans (p : span_manager_pool) (l : list span)
    : span_manager_pool :=
  match l with
  | [] => p
  | s :: r => release_spans (release p (span_slot s)) r
  end.

Definition range_allocator_delete (ra : range_allocator)
    : span_manager_pool :=
  release_spans (_spans ra) (_free_mem_root ra).

(** [destroy_range_allocator]: nothing is done on the null handle. *)
Definition destroy_range_allocator (ralloc : option range_allocator)
    : option span_manager_pool :=
  match ralloc with
  | None => None
  | Some ra => Some (range_allocator_delete ra)
  end.

(** The records of a state: those linked in the free list, then those
    available in the chain. *)
Definition records (ra : range_allocator) : list nat :=
  map span_slot (_free_mem_root ra) ++ _available_spans (_spans ra).

(** A state over the pool as a state of the template. *)
Definition of_pool (ra : range_allocator)
    : range_allocator_of span_manager_pool :=
  mk_range_allocator_of (_base ra) (_length ra) (_granularity ra)
                        (_free_mem_root ra) (_spans ra).

(** Two states of the template, over any two stores, with the same
    configuration and the same spans. *)
Definition same_spans {S1 S2 : Type} (r1 : range_allocator_of S1)
    (r2 : range_allocator_of S2) : Prop :=
  base_of r1 = base_of r2 /\ length_of r1 = length_of r2
  /\ granularity_of r1 = granularity_of r2
  /\ geometry (free_mem_root_of r1) = geometry (free_mem_root_of r2).

(** What one call does to a store and to the records linked in the
    list: nothing, one record released, or one record taken. *)
Definition store_trace {S0 : Type} (get0 : S0 -> option nat * S0)
    (release0 : S0 -> nat -> S0) (p : S0) (l : list span) (p' : S0)
    (l' : list span) : Prop :=
  (p' = p /\ map span_slot l' = map span_slot l)
  \/ (exists s, p' = release0 p s
        /\ Permutation (s :: map span_slot l') (map span_slot l))
  \/ (exists s, get0 p = (Some s, p')
        /\ Permutation (map span_slot l') (s :: map span_slot l)).

(** The records of the allocator over [span_manager_allocate]: linked in
    the free list or waiting in the chain. *)
Definition dynamic_records (rd : dynamic_allocator) : list nat :=
  map span_slot (free_mem_root_of rd)
  ++ dynamic_available_spans (spans_of rd).

(** ** Machine arithmetic *)

Lemma modulus_pos : 0 < modulus.
Proof. unfold modulus. apply Z.pow_pos_nonneg; lia. Qed.

Lemma wadd_small (a b : Z) : 0 <= a + b < modulus -> wadd a b = a + b.
Proof. intros H. unfold wadd. now apply Z.mod_small. Qed.

Lemma wsub_small (a b : Z) : 0 <= a - b < modulus -> wsub a b = a - b.
Proof. intros H. unfold wsub. now apply Z.mod_small. Qed.

Lemma wmul_small (a b : Z) : 0 <= a * b < modulus -> wmul a b = a * b.
Proof. intros H. unfold wmul. now apply Z.mod_small. Qed.

Lemma wadd_word (a b : Z) : is_word (wadd a b).
Proof. unfold wadd, is_word. apply Z.mod_pos_bound, modulus_pos. Qed.

Lemma wsub_word (a b : Z) : is_word (wsub a b).
Proof. unfold wsub, is_word. apply Z.mod_pos_bound, modulus_pos. Qed.

Lemma wmul_word (a b : Z) : is_word (wmul a b).
Proof. unfold wmul, is_word. apply Z.mod_pos_bound, modulus_pos. Qed.

Lemma invalid_eq : invalid = modulus - 1.
Proof.
  unfold invalid, wsub. pose proof modulus_pos.
  replace (0 - 1) with (modulus - 1 + (-1) * modulus) by lia.
  rewrite Z.mod_add by lia. apply Z.mod_small. lia.
Qed.

(** Floor to a multiple of [g]. *)
Lemma floor_multiple (g x : Z) :
  0 < g -> 0 <= x -> 0 <= x / g * g <= x /\ x < x / g * g + g.
Proof.
  intros Hg Hx. pose proof (Z.div_mod x g ltac:(lia)) as E.
  pose proof (Z.mod_pos_bound x g Hg) as B.
  pose proof (Z.div_pos x g Hx Hg). nia.
Qed.

Lemma mod0_multiple (g x : Z) : 0 < g -> x mod g = 0 -> x / g * g = x.
Proof.
  intros Hg H. pose proof (Z.div_mod x g ltac:(lia)) as E. lia.
Qed.

Lemma multiple_mod0 (g k : Z) : 0 < g -> (k * g) mod g = 0.
Proof. intros Hg. apply Z.mod_mul. lia. Qed.

Lemma mod0_add (g a b : Z) :
  0 < g -> a mod g = 0 -> b mod g = 0 -> (a + b) mod g = 0.
Proof.
  intros Hg Ha Hb. apply Z.mod_divide in Ha, Hb; try lia.
  apply Z.mod_divide; try lia. now apply Z.divide_add_r.
Qed.

Lemma mod0_sub (g a b : Z) :
  0 < g -> a mod g = 0 -> b mod g = 0 -> (a - b) mod g = 0.
Proof.
  intros Hg Ha Hb. apply Z.mod_divide in Ha, Hb; try lia.
  apply Z.mod_divide; try lia. now apply Z.divide_sub_r.
Qed.

Lemma round_down_eq (g x : Z) :
  0 < g -> is_word x -> round_down g x = x / g * g.
Proof.
  intros Hg [Hx Hx']. unfold round_down. apply wmul_small.
  pose proof (floor_multiple g x Hg Hx). lia.
Qed.

Lemma round_up_eq (g x : Z) :
  0 < g -> round_up g x = (x + g - 1) mod modulus / g * g.
Proof.
  intros Hg. unfold round_up, wsub, wadd.
  rewrite Zminus_mod_idemp_l.
  pose proof (Z.mod_pos_bound (x + g - 1) modulus modulus_pos) as B.
  apply wmul_small.
  pose proof (floor_multiple g ((x + g - 1) mod modulus) Hg ltac:(lia)).
  lia.
Qed.

(** Without wrap-around [round_up] is the least multiple of [g] at or
    above [x]. *)
Lemma round_up_no_wrap (g x : Z) :
  0 < g -> 0 <= x -> x + g - 1 < modulus ->
  round_up g x = (x + g - 1) / g * g
  /\ x <= round_up g x < x + g /\ round_up g x mod g = 0.
Proof.
  intros Hg Hx Hw. rewrite round_up_eq by lia.
  rewrite (Z.mod_small (x + g - 1)) by lia.
  pose proof (floor_multiple g (x + g - 1) Hg ltac:(lia)).
  repeat split; try lia. now apply multiple_mod0.
Qed.

(** When [x + g - 1] wraps the quotient is zero. *)
Lemma round_up_wrap (g x : Z) :
  0 < g -> is_word x -> is_word g -> modulus <= x + g - 1 ->
  round_up g x = 0.
Proof.
  intros Hg [Hx Hx'] [_ Hg'] Hw. rewrite round_up_eq by lia.
  replace (x + g - 1) with (x + g - 1 - modulus + 1 * modulus) by lia.
  rewrite Z.mod_add by lia. rewrite Z.mod_small by lia.
  rewrite Z.div_small by lia. reflexivity.
Qed.

Lemma round_up_mod0 (g x : Z) : 0 < g -> round_up g x mod g = 0.
Proof. intros Hg. rewrite round_up_eq by lia. now apply multiple_mod0. Qed.

Lemma round_up_word (g x : Z) : is_word (round_up g x).
Proof. apply wmul_word. Qed.

Lemma round_down_mod0 (g x : Z) :
  0 < g -> is_word x -> round_down g x mod g = 0.
Proof.
  intros Hg Hx. rewrite round_down_eq by assumption. now apply multiple_mod0.
Qed.

Lemma round_down_fix (g x : Z) :
  0 < g -> is_word x -> x mod g = 0 -> round_down g x = x.
Proof.
  intros Hg Hx H. rewrite round_down_eq by assumption.
  now apply mod0_multiple.
Qed.

Lemma round_up_fix (g x : Z) :
  0 < g -> 0 <= x -> x + g - 1 < modulus -> x mod g = 0 ->
  round_up g x = x.
Proof.
  intros Hg Hx Hw H.
  destruct (round_up_no_wrap g x Hg Hx Hw) as (_ & B & M0).
  apply Z.mod_divide in H, M0; try lia.
  destruct H as [k Hk], M0 as [j Hj].
  assert (k <= j) by nia. assert (j < k + 1) by nia. nia.
Qed.

(** ** Preservation of the free-list invariants *)

(** Replace a machine sum or difference by the integer one wherever [lia]
    shows that it does not wrap. *)
Ltac unwrap :=
  repeat match goal with
  | |- context [wadd ?a ?b] => rewrite (wadd_small a b) by lia
  | |- context [wsub ?a ?b] => rewrite (wsub_small a b) by lia
  | H : context [wadd ?a ?b] |- _ => rewrite (wadd_small a b) in H by lia
  | H : context [wsub ?a ?b] |- _ => rewrite (wsub_small a b) in H by lia
  end.

(** Case analysis on the comparisons of the source. *)
Ltac cmp :=
  repeat match goal with
  | H : context [?a <? ?b] |- _ => destruct (Z.ltb_spec a b)
  | H : context [?a <=? ?b] |- _ => destruct (Z.leb_spec a b)
  | H : context [?a =? ?b] |- _ => destruct (Z.eqb_spec a b)
  | |- context [?a <? ?b] => destruct (Z.ltb_spec a b)
  | |- context [?a <=? ?b] => destruct (Z.leb_spec a b)
  | |- context [?a =? ?b] => destruct (Z.eqb_spec a b)
  end.

Lemma spans_inv_weaken (l : list span) (lo lo' hi : Z) :
  lo' <= lo -> spans_inv lo l hi -> spans_inv lo' l hi.
Proof.
  destruct l as [|s r]; simpl; intros; [exact I|]. intuition lia.
Qed.

(** A list that starts above [lo] starts above anything smaller. *)
Ltac weaken_lo :=
  match goal with
  | H : spans_inv _ ?l ?hi |- spans_inv _ ?l ?hi =>
      apply (spans_inv_weaken l _ _ hi) with (2 := H); lia
  end.

(** Sums and differences of multiples of the granularity. *)
Ltac aligned_goal :=
  repeat match goal with
  | |- Forall _ (_ :: _) => constructor
  | |- span_aligned _ _ => unfold span_aligned; simpl
  | |- _ /\ _ => split
  | |- (_ + _) mod _ = 0 => apply mod0_add
  | |- (_ - _) mod _ = 0 => apply mod0_sub
  end; try assumption; try lia.

(** [split_span] on the span that [check_span] accepted: the list keeps
    its invariants, the address lies in the range, and spans on the grid
    stay on the grid. *)
Lemma split_span_inv p curr tail len flags hint lo hi a l' p' g :
  -1 <= lo -> hi < modulus -> 0 < len -> is_word hint ->
  hint_fits flags hint len ->
  spans_inv lo (curr :: tail) hi ->
  check_span curr len flags hint = true ->
  split_span p curr tail len flags hint = Done (a, l', p') ->
  spans_inv lo l' hi /\ lo < a /\ a + len <= hi
  /\ (0 < g -> Forall (span_aligned g) (curr :: tail) -> len mod g = 0 ->
      hint_aligned g flags hint ->
      Forall (span_aligned g) l' /\ a mod g = 0).
Proof.
  intros Hlo Hhi Hlen [Hh Hh'] Hfit (Hb & Hl & He & Ht) Hc Hs.
  unfold span_end in *.
  assert (Ht1 : spans_inv lo tail hi) by weaken_lo.
  assert (Hal : 0 < g -> Forall (span_aligned g) (curr :: tail) ->
                Forall (span_aligned g) tail /\ span_base curr mod g = 0
                /\ span_length curr mod g = 0).
  { intros _ Hf. inversion Hf as [|? ? (? & ? & ?) ?]; auto. }
  destruct flags; simpl in Hfit;
    unfold check_span, split_span, trunc_span_low, trunc_span_high,
      trunc_span_middle, add_span, get in *.
  all: unwrap.
  all: cmp; simpl in *; try discriminate.
  all: try (destruct (_available_spans p); simpl in *; try discriminate).
  all: try (injection Hs as <- <- <-); simpl; unfold span_end; simpl.
  all: unwrap.
  all: repeat match goal with |- _ /\ _ => split end;
       try assumption; try lia; try weaken_lo.
  all: intros Hg Hf Hm Hha; destruct (Hal Hg Hf) as (Hft & Hbm & Hlm);
       simpl in Hha; aligned_goal.
Qed.

(** The same for the search loop: either nothing was found and nothing
    changed, or the address lies in the range. *)
Lemma allocate_scan_inv g len flags hint hi :
  hi < modulus -> 0 < len -> is_word hint -> hint_fits flags hint len ->
  forall l p lo a l' p',
  -1 <= lo ->
  spans_inv lo l hi ->
  allocate_scan p l len flags hint = Done (a, l', p') ->
  spans_inv lo l' hi
  /\ (a = invalid /\ l' = l /\ p' = p \/ lo < a /\ a + len <= hi)
  /\ (0 < g -> Forall (span_aligned g) l -> len mod g = 0 ->
      hint_aligned g flags hint -> Forall (span_aligned g) l').
Proof.
  intros Hhi Hlen Hh Hfit.
  induction l as [|curr tail IH]; intros p lo a l' p' Hlo Hinv Hs.
  - simpl in Hs. injection Hs as <- <- <-. simpl. split; [exact I|].
    split; [left; auto|]. auto.
  - simpl in Hs. destruct (check_span curr len flags hint) eqn:Hc.
    + destruct (split_span_inv p curr tail len flags hint lo hi a l' p' g)
        as (I1 & I2 & I3 & I4); auto.
      repeat split; auto. intros. now apply I4.
    + destruct (allocate_scan p tail len flags hint)
        as [[[a0 l0] p0]|] eqn:Hr; simpl in Hs; [|discriminate].
      injection Hs as <- <- <-.
      destruct Hinv as (Hb & Hl & He & Ht).
      destruct (IH p (span_end curr) a0 l0 p0) as (I1 & I2 & I3); auto.
      { unfold span_end. lia. }
      repeat split; auto.
      * destruct I2 as [(-> & -> & ->)|[? ?]]; [left; auto|right].
        unfold span_end in *. lia.
      * intros Hg Hf Hm Hha. inversion Hf; subst. constructor; auto.
Qed.

(** The loop of [free], for a range inside [lo, hi]. *)
Lemma free_scan_inv g b len hi :
  hi < modulus -> 0 < len -> b + len <= hi ->
  forall l p lo l' p',
  -1 <= lo -> lo < b ->
  spans_inv lo l hi ->
  free_scan p l b len = Done (l', p') ->
  spans_inv lo l' hi
  /\ (0 < g -> Forall (span_aligned g) l -> b mod g = 0 -> len mod g = 0 ->
      Forall (span_aligned g) l').
Proof.
  intros Hhi Hlen Hend.
  induction l as [|next rest IH]; intros p lo l' p' Hlo Hb Hinv Hs.
  - simpl in Hs. unfold add_span, get in Hs.
    destruct (_available_spans p); [discriminate|].
    injection Hs as <- <-. simpl. unfold span_end; simpl.
    split; [lia|]. intros. aligned_goal.
  - destruct Hinv as (Hnb & Hnl & Hne & Ht). unfold span_end in *.
    assert (Hal : Forall (span_aligned g) (next :: rest) ->
                  Forall (span_aligned g) rest /\ span_base next mod g = 0
                  /\ span_length next mod g = 0).
    { intros Hf. inversion Hf as [|? ? (? & ? & ?) ?]; auto. }
    simpl in Hs. unfold add_span, get, remove_span, release in Hs.
    unwrap.
    destruct (Z.ltb_spec (b + len) (span_base next)).
    { destruct (_available_spans p); [discriminate|].
      injection Hs as <- <-. simpl. unfold span_end; simpl.
      split; [repeat split; auto; lia|].
      intros Hg Hf Hbm Hlm. destruct (Hal Hf) as (? & ? & ?).
      aligned_goal. }
    destruct (Z.eqb_spec (b + len) (span_base next)).
    { unwrap. injection Hs as <- <-. simpl. unfold span_end; simpl.
      split; [repeat split; try lia; weaken_lo|].
      intros Hg Hf Hbm Hlm. destruct (Hal Hf) as (? & ? & ?).
      aligned_goal. }
    destruct (Z.ltb_spec b (span_base next + span_length next)).
    { injection Hs as <- <-. simpl. unfold span_end.
      split; [repeat split; auto; lia|]. auto. }
    destruct (Z.eqb_spec b (span_base next + span_length next)).
    { destruct rest as [|nn rest'].
      - unwrap. injection Hs as <- <-. simpl. unfold span_end; simpl.
        split; [repeat split; lia|].
        intros Hg Hf Hbm Hlm. destruct (Hal Hf) as (? & ? & ?).
        aligned_goal.
      - destruct Ht as (Hnnb & Hnnl & Hnne & Ht'). unfold span_end in *.
        unwrap.
        destruct (Z.ltb_spec (span_base nn) (b + len)).
        { injection Hs as <- <-. simpl. unfold span_end.
          split; [repeat split; auto; lia|]. auto. }
        destruct (Z.eqb_spec (b + len) (span_base nn)).
        { unwrap. injection Hs as <- <-. simpl. unfold span_end; simpl.
          split; [repeat split; try lia; weaken_lo|].
          intros Hg Hf Hbm Hlm. destruct (Hal Hf) as (Hfr & ? & ?).
          inversion Hfr as [|? ? (? & ? & ?) ?]; subst.
          aligned_goal. }
        unwrap. injection Hs as <- <-. simpl. unfold span_end; simpl.
        split; [repeat split; try lia; auto|].
        intros Hg Hf Hbm Hlm. destruct (Hal Hf) as (Hfr & ? & ?).
        inversion Hfr as [|? ? (? & ? & ?) ?]; subst.
        aligned_goal. }
    destruct (free_scan p rest b len) as [[l0 p0]|] eqn:Hr;
      simpl in Hs; [|discriminate].
    injection Hs as <- <-.
    destruct (IH p (span_base next + span_length next) l0 p0)
      as (I1 & I2); auto; try lia.
    split; [simpl; unfold span_end; repeat split; auto|].
    intros Hg Hf Hbm Hlm. destruct (Hal Hf) as (? & ? & ?).
    inversion Hf; subst. constructor; auto.
Qed.

(** ** Frame: what a call leaves alone *)

Lemma allocate_scan_pool len flags hint :
  forall l p a l' p',
  allocate_scan p l len flags hint = Done (a, l', p') -> _pool p' = _pool p.
Proof.
  induction l as [|curr tail IH]; intros p a l' p' Hs; simpl in Hs.
  - now injection Hs as <- <- <-.
  - destruct (check_span curr len flags hint).
    + unfold split_span, trunc_span_low, trunc_span_high, trunc_span_middle,
        add_span, get, remove_span, release in Hs.
      destruct flags; cmp; simpl in Hs;
        try (destruct (_available_spans p); simpl in Hs; try discriminate);
        now injection Hs as <- <- <-.
    + destruct (allocate_scan p tail len flags hint)
        as [[[a0 l0] p0]|] eqn:Hr; simpl in Hs; [|discriminate].
      injection Hs as <- <- <-. eauto.
Qed.

Lemma free_scan_pool b len :
  forall l p l' p',
  free_scan p l b len = Done (l', p') -> _pool p' = _pool p.
Proof.
  induction l as [|next rest IH]; intros p l' p' Hs; simpl in Hs;
    unfold add_span, get, remove_span, release in Hs.
  - destruct (_available_spans p); [discriminate|]. now injection Hs as <- <-.
  - destruct (wadd b len <? span_base next).
    { destruct (_available_spans p); [discriminate|].
      now injection Hs as <- <-. }
    destruct (wadd b len =? span_base next); [now injection Hs as <- <-|].
    destruct (b <? wadd (span_base next) (span_length next));
      [now injection Hs as <- <-|].
    destruct (b =? wadd (span_base next) (span_length next)).
    { destruct rest as [|nn rest']; [now injection Hs as <- <-|].
      destruct (span_base nn <? wadd b len); [now injection Hs as <- <-|].
      destruct (wadd b len =? span_base nn); now injection Hs as <- <-. }
    destruct (free_scan p rest b len) as [[l0 p0]|] eqn:Hr;
      simpl in Hs; [|discriminate].
    injection Hs as <- <-. eauto.
Qed.

(** [allocate] and [free] leave the configuration alone. *)
Lemma allocate_frame ra len flags hint a ra' :
  allocate ra len flags hint = Done (a, ra') ->
  _base ra' = _base ra /\ _length ra' = _length ra
  /\ _granularity ra' = _granularity ra
  /\ _pool (_spans ra') = _pool (_spans ra).
Proof.
  unfold allocate. intros H.
  destruct (_granularity ra =? 0); [discriminate|].
  destruct (round_up (_granularity ra) len =? 0);
    [injection H as <- <-; auto|].
  destruct (_length ra <? round_up (_granularity ra) len);
    [injection H as <- <-; auto|].
  destruct (allocate_scan _ _ _ _ _) as [[[a0 l0] p0]|] eqn:Hr;
    simpl in H; [|discriminate].
  injection H as <- <-. simpl. repeat split.
  eapply allocate_scan_pool; eauto.
Qed.

Lemma free_frame ra b len ra' :
  free ra b len = Done ra' ->
  _base ra' = _base ra /\ _length ra' = _length ra
  /\ _granularity ra' = _granularity ra
  /\ _pool (_spans ra') = _pool (_spans ra).
Proof.
  unfold free. intros H.
  destruct (_granularity ra =? 0); [discriminate|].
  destruct (round_up (_granularity ra) len =? 0);
    [injection H as <-; auto|].
  destruct (_ || _); [injection H as <-; auto|].
  destruct (_ <? _); [injection H as <-; auto|].
  destruct (free_scan _ _ _ _) as [[l0 p0]|] eqn:Hr;
    simpl in H; [|discriminate].
  injection H as <-. simpl. repeat split.
  eapply free_scan_pool; eauto.
Qed.

(** ** Well-formed states stay well formed *)

Lemma allocate_wf ra len flags hint a ra' :
  wf ra -> is_word hint ->
  hint_fits flags hint (round_up (_granularity ra) len) ->
  allocate ra len flags hint = Done (a, ra') ->
  wf ra'
  /\ (Forall (span_aligned (_granularity ra)) (_free_mem_root ra) ->
      hint_aligned (_granularity ra) flags hint ->
      Forall (span_aligned (_granularity ra)) (_free_mem_root ra')).
Proof.
  intros [Hg Hb Hl He Hs] Hh Hfit H. unfold allocate in H.
  destruct (Z.eqb_spec (_granularity ra) 0); [discriminate|].
  pose proof (round_up_word (_granularity ra) len) as [Hr0 Hr1].
  destruct (Z.eqb_spec (round_up (_granularity ra) len) 0).
  { injection H as <- <-. split; [now constructor|auto]. }
  destruct (Z.ltb_spec (_length ra) (round_up (_granularity ra) len)).
  { injection H as <- <-. split; [now constructor|auto]. }
  destruct (allocate_scan _ _ _ _ _) as [[[a0 l0] p0]|] eqn:Hr;
    simpl in H; [|discriminate].
  injection H as <- <-.
  destruct (allocate_scan_inv (_granularity ra)
              (round_up (_granularity ra) len) flags hint
              (_base ra + _length ra) He ltac:(lia) Hh Hfit
              _ _ (_base ra - 1) _ _ _ ltac:(lia) Hs Hr) as (I1 & _ & I3).
  split; [constructor; simpl; auto|]. simpl.
  intros Hal Hha. apply I3; auto. now apply round_up_mod0.
Qed.

Lemma free_wf ra b len ra' :
  wf ra -> is_word b -> 
  round_down (_granularity ra) b + round_up (_granularity ra) len < modulus ->
  free ra b len = Done ra' ->
  wf ra'
  /\ (Forall (span_aligned (_granularity ra)) (_free_mem_root ra) ->
      Forall (span_aligned (_granularity ra)) (_free_mem_root ra')).
Proof.
  intros [Hg Hb Hl He Hs] Hbw Hfit H. unfold free in H.
  destruct (Z.eqb_spec (_granularity ra) 0); [discriminate|].
  pose proof (round_up_word (_granularity ra) len) as [Hr0 Hr1].
  pose proof (round_down_mod0 (_granularity ra) b Hg Hbw) as Hbm.
  pose proof (round_up_mod0 (_granularity ra) len Hg) as Hlm.
  assert (Hd0 : 0 <= round_down (_granularity ra) b)
    by (unfold round_down; apply wmul_word).
  set (b' := round_down (_granularity ra) b) in *.
  set (l' := round_up (_granularity ra) len) in *.
  destruct (Z.eqb_spec l' 0).
  { injection H as <-. split; [now constructor|auto]. }
  rewrite (wadd_small (_base ra)) in H by lia.
  rewrite (wadd_small b') in H by lia.
  destruct (Z.ltb_spec b' (_base ra)); simpl in H.
  { injection H as <-. split; [now constructor|auto]. }
  destruct (Z.leb_spec (_base ra + _length ra) b'); simpl in H.
  { injection H as <-. split; [now constructor|auto]. }
  destruct (Z.ltb_spec (_base ra + _length ra) (b' + l')).
  { injection H as <-. split; [now constructor|auto]. }
  destruct (free_scan _ _ _ _) as [[l0 p0]|] eqn:Hr;
    simpl in H; [|discriminate].
  injection H as <-.
  destruct (free_scan_inv (_granularity ra) b' l' (_base ra + _length ra)
              He ltac:(lia) ltac:(lia)
              _ _ (_base ra - 1) _ _ ltac:(lia) ltac:(lia) Hs Hr)
    as (I1 & I2).
  split; [constructor; simpl; auto|]. simpl. intros Hal. now apply I2.
Qed.

(** ** Construction *)

(** The state the constructor builds when the pool has a record. *)
Lemma range_allocator_new_eq base length g :
  0 < g -> 2 * g <= length -> is_word length ->
  range_allocator_new base length g =
  Done (mk_range_allocator base (length / g * g) g
          [mk_span 0 base (length / g * g)]
          (mk_pool (length / g / 2)
                   (seq 1 (Z.to_nat (length / g / 2) - 1)))).
Proof.
  intros Hg H2 [Hl0 Hl1]. unfold range_allocator_new, span_manager_pool_new.
  destruct (Z.eqb_spec g 0); [lia|].
  assert (Hq : 2 <= length / g).
  { apply Z.div_le_lower_bound; lia. }
  assert (Hn : 1 <= length / g / 2).
  { apply Z.div_le_lower_bound; lia. }
  destruct (Z.eqb_spec (length / g / 2) 0); [lia|]. simpl.
  unfold add_span, get. simpl.
  destruct (Z.to_nat (length / g / 2)) as [|k] eqn:Hk; [lia|].
  simpl. rewrite Nat.sub_0_r.
  rewrite wmul_small; [reflexivity|].
  pose proof (floor_multiple g length Hg Hl0). lia.
Qed.

Lemma range_allocator_new_one_unit base length g :
  0 < g -> g <= length < 2 * g ->
  range_allocator_new base length g = Crash.
Proof.
  intros Hg H. unfold range_allocator_new, span_manager_pool_new.
  destruct (Z.eqb_spec g 0); [lia|].
  assert (Hq : length / g = 1).
  { symmetry. apply (Z.div_unique length g 1 (length - g)); lia. }
  rewrite Hq. reflexivity.
Qed.

Lemma create_range_allocator_wf base length g ra :
  is_word base -> is_word length -> is_word g ->
  base + length / g * g < modulus ->
  create_range_allocator base length g = Done (Some ra) ->
  wf ra /\ _granularity ra = g
  /\ _free_mem_root ra = [mk_span 0 base (length / g * g)]
  /\ _base ra = base /\ _length ra = length / g * g
  /\ 0 < length / g * g /\ (length / g * g) mod g = 0.
Proof.
  intros [Hb0 Hb1] [Hl0 Hl1] [Hg0 Hg1] Hend H.
  unfold create_range_allocator in H.
  destruct (Z.eqb_spec base 0); [discriminate|].
  destruct (Z.eqb_spec length 0); [discriminate|].
  destruct (Z.eqb_spec g 0); [discriminate|].
  destruct (Z.ltb_spec length g); [discriminate|].
  assert (Hg : 0 < g) by lia.
  destruct (Z_lt_le_dec length (2 * g)) as [H1|H2].
  { rewrite range_allocator_new_one_unit in H by lia. discriminate. }
  rewrite range_allocator_new_eq in H by (unfold is_word; lia).
  simpl in H. injection H as <-. simpl.
  pose proof (floor_multiple g length Hg Hl0) as F.
  assert (0 < length / g * g) by lia.
  repeat split; simpl; unfold span_end; simpl; try lia.
  now apply multiple_mod0.
Qed.



Lemma allocate_range_null length flags hint :
  allocate_range None length flags hint = Done (invalid, None).
Proof. reflexivity. Qed.

Lemma free_range_null base length : free_range None base length = Done None.
Proof. reflexivity. Qed.

(** Two granules or more: construction succeeds as the specification
    says. *)
Lemma create_range_allocator_two_units base length g :
  is_word length -> base <> 0 -> 0 < g -> 2 * g <= length ->
  create_range_allocator base length g =
  Done (Some (mk_range_allocator base (length / g * g) g
                [mk_span 0 base (length / g * g)]
                (mk_pool (length / g / 2)
                         (seq 1 (Z.to_nat (length / g / 2) - 1))))).
Proof.
  intros Hl Hb Hg H2. unfold create_range_allocator.
  destruct (Z.eqb_spec base 0); [lia|].
  destruct (Z.eqb_spec length 0); [lia|].
  destruct (Z.eqb_spec g 0); [lia|].
  destruct (Z.ltb_spec length g); [lia|].
  now rewrite range_allocator_new_eq.
Qed.

(** What a successful construction tells. *)
Lemma create_range_allocator_done base length g ra :
  is_word length -> is_word g ->
  create_range_allocator base length g = Done (Some ra) ->
  base <> 0 /\ 0 < g /\ 2 * g <= length
  /\ ra = mk_range_allocator base (length / g * g) g
            [mk_span 0 base (length / g * g)]
            (mk_pool (length / g / 2)
                     (seq 1 (Z.to_nat (length / g / 2) - 1))).
Proof.
  intros Hl [Hg0 Hg1] H.
  assert (Hc := H). unfold create_range_allocator in Hc.
  destruct (Z.eqb_spec base 0); [discriminate|].
  destruct (Z.eqb_spec length 0); [discriminate|].
  destruct (Z.eqb_spec g 0); [discriminate|].
  destruct (Z.ltb_spec length g); [discriminate|].
  assert (Hg : 0 < g) by lia.
  destruct (Z_lt_le_dec length (2 * g)) as [H1|H2].
  { rewrite range_allocator_new_one_unit in Hc by lia. discriminate. }
  rewrite create_range_allocator_two_units in H by auto.
  injection H as <-. auto.
Qed.

(** Calls whose arithmetic does not wrap keep the state well formed, and
    keep the spans on the grid when they start there. *)
Lemma run_calls_wf :
  forall cs ra ra',
  wf ra ->
  Forall (call_fits (_granularity ra)) cs ->
  run_calls ra cs = Done ra' ->
  wf ra' /\ _granularity ra' = _granularity ra
  /\ (Forall (span_aligned (_granularity ra)) (_free_mem_root ra) ->
      Forall (call_on_grid (_granularity ra)) cs ->
      Forall (span_aligned (_granularity ra)) (_free_mem_root ra')).
Proof.
  induction cs as [|c cs IH]; intros ra ra' Hwf Hfit Hrun; simpl in Hrun.
  - injection Hrun as <-. auto.
  - inversion Hfit as [|? ? Hc Hcs]; subst.
    destruct (step ra c) as [ra1|] eqn:Hstep; simpl in Hrun; [|discriminate].
    assert (S : wf ra1 /\ _granularity ra1 = _granularity ra
                /\ (Forall (span_aligned (_granularity ra)) (_free_mem_root ra)
                    -> call_on_grid (_granularity ra) c ->
                    Forall (span_aligned (_granularity ra))
                           (_free_mem_root ra1))).
    { destruct c as [len flags hint|b len]; simpl in Hstep, Hc.
      - destruct (allocate ra len flags hint) as [[a r]|] eqn:Ha;
          simpl in Hstep; [|discriminate].
        injection Hstep as ->. destruct Hc as (_ & Hh & Hf).
        destruct (allocate_wf _ _ _ _ _ _ Hwf Hh Hf Ha) as (W & A).
        destruct (allocate_frame _ _ _ _ _ _ Ha) as (_ & _ & G & _).
        auto.
      - destruct Hc as (Hb & _ & Hf).
        destruct (free_wf _ _ _ _ Hwf Hb Hf Hstep) as (W & A).
        destruct (free_frame _ _ _ _ Hstep) as (_ & _ & G & _).
        auto. }
    destruct S as (W1 & G1 & A1).
    rewrite <- G1 in Hcs.
    destruct (IH ra1 ra' W1 Hcs Hrun) as (W & G & A).
    rewrite G1 in G, A.
    split; [exact W|]. split; [exact G|].
    intros Hal Hgrid. inversion Hgrid; subst. auto.
Qed.

(** ** Allocate, then free *)

(** Giving back what [split_span] carved out of [curr] rebuilds [curr]
    in place, record and pool chain included. *)
Lemma free_scan_split_span p curr tail len flags hint lo hi a l' p' :
  -1 <= lo -> hi < modulus -> 0 < len -> is_word hint ->
  hint_fits flags hint len ->
  spans_inv lo (curr :: tail) hi ->
  check_span curr len flags hint = true ->
  split_span p curr tail len flags hint = Done (a, l', p') ->
  free_scan p' l' a len = Done (curr :: tail, p).
Proof.
  intros Hlo Hhi Hlen [Hh Hh'] Hfit (Hb & Hl & He & Ht) Hc Hs.
  destruct curr as [cs cb cl], p as [pn pc]. unfold span_end in *.
  simpl in Hb, Hl, He, Ht.
  destruct flags; simpl in Hfit;
    unfold check_span, split_span, trunc_span_low, trunc_span_high,
      trunc_span_middle, add_span, get, remove_span, release in *;
    simpl in Hc, Hs.
  all: unwrap.
  all: cmp; simpl in *; try discriminate; try lia.
  all: try (destruct pc; simpl in *; try discriminate).
  all: try (injection Hs as <- <- <-).
  all: destruct tail as [|t tail'];
       [|destruct Ht as (Htb & Htl & Hte & Ht); unfold span_end in *];
       simpl; unfold add_span, get, remove_span, release; simpl.
  all: unwrap.
  all: cmp; try lia.
  all: unwrap.
  all: try reflexivity.
  all: repeat f_equal; try lia.
Qed.

Lemma free_scan_allocate_scan len flags hint hi :
  hi < modulus -> 0 < len -> is_word hint -> hint_fits flags hint len ->
  forall l p lo a l' p',
  -1 <= lo ->
  spans_inv lo l hi ->
  allocate_scan p l len flags hint = Done (a, l', p') ->
  a <> invalid ->
  free_scan p' l' a len = Done (l, p).
Proof.
  intros Hhi Hlen Hh Hfit.
  induction l as [|curr tail IH]; intros p lo a l' p' Hlo Hinv Hs Ha.
  - simpl in Hs. injection Hs as <- <- <-. congruence.
  - simpl in Hs. destruct (check_span curr len flags hint) eqn:Hc.
    + eapply free_scan_split_span; eauto.
    + destruct (allocate_scan p tail len flags hint)
        as [[[a0 l0] p0]|] eqn:Hr; simpl in Hs; [|discriminate].
      injection Hs as <- <- <-.
      destruct Hinv as (Hb & Hl & He & Ht). unfold span_end in *.
      destruct (allocate_scan_inv 1 len flags hint hi Hhi Hlen Hh Hfit
                  tail p (span_base curr + span_length curr) a0 l0 p0
                  ltac:(lia) Ht Hr)
        as (_ & [(-> & _)|[Ha0 Ha1]] & _); [congruence|].
      simpl. unwrap. cmp; try lia.
      rewrite (IH p (span_base curr + span_length curr) a0 l0 p0
                 ltac:(lia) Ht Hr Ha). reflexivity.
Qed.

Lemma range_allocator_eta ra :
  mk_range_allocator (_base ra) (_length ra) (_granularity ra)
                     (_free_mem_root ra) (_spans ra) = ra.
Proof. now destruct ra. Qed.

(** ** The invariants in the words of the specification *)

Lemma spans_inv_app hi :
  forall pre rest lo,
  spans_inv lo (pre ++ rest) hi ->
  exists lo',
    lo <= lo' /\ spans_inv lo' rest hi
    /\ Forall (fun s => lo < span_base s /\ 0 < span_length s
                        /\ span_end s <= lo') pre.
Proof.
  induction pre as [|s pre IH]; intros rest lo H; simpl in H.
  - exists lo. repeat split; auto; lia.
  - destruct H as (Hb & Hl & He & Ht).
    destruct (IH rest _ Ht) as (lo' & L & R & F).
    unfold span_end in *.
    exists lo'. repeat split; auto; try lia.
    constructor; [lia|].
    eapply Forall_impl; [|exact F]. simpl. intros x. lia.
Qed.

(** The loop of [free] walks past every span that ends strictly below
    the freed range. *)
Lemma free_scan_skip p b len rest :
  0 < len -> b + len < modulus ->
  forall pre,
  Forall (fun s => 0 <= span_base s /\ 0 < span_length s /\ span_end s < b)
         pre ->
  free_scan p (pre ++ rest) b len =
  ('(l, p') <- free_scan p rest b len ;; Done (pre ++ l, p')).
Proof.
  intros Hlen Hw. induction pre as [|s pre IH]; intros F.
  - simpl. destruct (free_scan p rest b len) as [[l0 p0]|]; reflexivity.
  - inversion F as [|? ? (Hb & Hl & He) F']; subst. unfold span_end in He.
    simpl. unwrap. cmp; try lia.
    rewrite (IH F').
    destruct (free_scan p rest b len) as [[l0 p0]|]; reflexivity.
Qed.

Lemma spans_inv_ascending :
  forall l lo hi, spans_inv lo l hi -> ascending l /\ not_adjacent l.
Proof.
  unfold ascending, not_adjacent.
  induction l as [|a r IH]; intros lo hi H; simpl; [split; exact I|].
  destruct H as (Hb & Hl & He & Ht).
  destruct (IH _ _ Ht) as (A & N).
  destruct r as [|b r']; [repeat split; auto|].
  destruct Ht as (Hb' & _). unfold span_end in *.
  split; (split; [lia|assumption]).
Qed.

Lemma spans_inv_contained :
  forall l lo hi,
  spans_inv lo l hi ->
  Forall (fun s => lo < span_base s /\ 0 < span_length s /\ span_end s <= hi)
         l.
Proof.
  induction l as [|a r IH]; intros lo hi H; [constructor|].
  destruct H as (Hb & Hl & He & Ht). constructor; [auto|].
  eapply Forall_impl; [|exact (IH _ _ Ht)].
  simpl. unfold span_end. intros x. lia.
Qed.

Lemma spans_inv_no_overlap :
  forall l lo hi, spans_inv lo l hi -> no_overlap l.
Proof.
  induction l as [|a r IH]; intros lo hi H; [constructor|].
  destruct H as (Hb & Hl & He & Ht). constructor; [|exact (IH _ _ Ht)].
  eapply Forall_impl; [|exact (spans_inv_contained _ _ _ Ht)].
  simpl. unfold disjoint. intros x. lia.
Qed.

(** The data-model invariants, in the words of the specification, follow
    from [wf]. *)
Lemma wf_free_list ra :
  wf ra ->
  ascending (_free_mem_root ra) /\ not_adjacent (_free_mem_root ra)
  /\ no_overlap (_free_mem_root ra)
  /\ contained (_base ra) (_base ra + _length ra) (_free_mem_root ra).
Proof.
  intros [_ _ _ _ Hs].
  destruct (spans_inv_ascending _ _ _ Hs) as (A & N).
  repeat split; auto.
  - eapply spans_inv_no_overlap; eauto.
  - eapply Forall_impl; [|exact (spans_inv_contained _ _ _ Hs)].
    simpl. intros x. lia.
Qed.

Lemma step_frame ra c ra' :
  step ra c = Done ra' ->
  _base ra' = _base ra /\ _length ra' = _length ra
  /\ _granularity ra' = _granularity ra
  /\ _pool (_spans ra') = _pool (_spans ra).
Proof.
  destruct c as [len flags hint|b len]; simpl; intros H.
  - destruct (allocate ra len flags hint) as [[a r]|] eqn:Ha;
      simpl in H; [|discriminate].
    injection H as ->. eapply allocate_frame; eauto.
  - eapply free_frame; eauto.
Qed.

Lemma run_calls_frame :
  forall cs ra ra',
  run_calls ra cs = Done ra' ->
  _base ra' = _base ra /\ _length ra' = _length ra
  /\ _granularity ra' = _granularity ra
  /\ _pool (_spans ra') = _pool (_spans ra).
Proof.
  induction cs as [|c cs IH]; intros ra ra' H; simpl in H.
  - injection H as <-. auto.
  - destruct (step ra c) as [ra1|] eqn:Hs; simpl in H; [|discriminate].
    destruct (step_frame _ _ _ Hs) as (B & L & G & P).
    destruct (IH _ _ H) as (B' & L' & G' & P').
    repeat split; congruence.
Qed.

(** X1. Without wrap-around the free list keeps its invariants over
    every sequence of calls: after an allocator is created and has handled
    calls whose arithmetic stays below [2^w], its free list is ascending,
    has no two adjacent spans, no overlap, and lies inside the range. *)
Lemma free_list_invariants_no_wrap base length g cs ra0 ra :
  is_word base -> is_word length -> is_word g ->
  base + length / g * g < modulus ->
  create_range_allocator base length g = Done (Some ra0) ->
  Forall (call_fits g) cs ->
  run_calls ra0 cs = Done ra ->
  ascending (_free_mem_root ra) /\ not_adjacent (_free_mem_root ra)
  /\ no_overlap (_free_mem_root ra)
  /\ contained base (base + length / g * g) (_free_mem_root ra).
Proof.
  intros Hb Hl Hg He Hc Hf Hr.
  destruct (create_range_allocator_wf _ _ _ _ Hb Hl Hg He Hc)
    as (W0 & G0 & _ & B0 & L0 & _).
  rewrite <- G0 in Hf.
  destruct (run_calls_wf cs ra0 ra W0 Hf Hr) as (W & _ & _).
  destruct (run_calls_frame _ _ _ Hr) as (B & L & _).
  rewrite <- B0, <- L0, <- B, <- L. now apply wf_free_list.
Qed.

(** ** Allocation policies *)

Lemma split_span_policy p curr tail len flags hint lo hi a l' p' :
  -1 <= lo -> hi < modulus -> 0 < len -> is_word hint ->
  spans_inv lo (curr :: tail) hi ->
  check_span curr len flags hint = true ->
  split_span p curr tail len flags hint = Done (a, l', p') ->
  policy_holds (curr :: tail) len flags hint a.
Proof.
  intros Hlo Hhi Hlen [Hh Hh'] (Hb & Hl & He & Ht) Hc Hs.
  unfold span_end in *.
  destruct flags; unfold policy_holds;
    unfold check_span, split_span, trunc_span_low, trunc_span_high,
      trunc_span_middle, add_span, get in *.
  - cmp; try discriminate; injection Hs as <- <- <-;
      (exists curr; split; [now left|unfold span_end; lia]).
  - cmp; simpl in *; try discriminate;
      try (destruct (_available_spans p); simpl in *; try discriminate);
      now injection Hs as <- <- <-.
  - intros Hw. unwrap.
    cmp; simpl in *; try discriminate; injection Hs as <- <- <-;
      unwrap; lia.
  - apply andb_prop in Hc. destruct Hc as [Hc1 Hc2].
    apply Z.leb_le in Hc2. unwrap. apply Z.leb_le in Hc1.
    cmp; injection Hs as <- <- <-; lia.
Qed.

Lemma allocate_scan_policy len flags hint hi :
  hi < modulus -> 0 < len -> is_word hint ->
  forall l p lo a l' p',
  -1 <= lo ->
  spans_inv lo l hi ->
  allocate_scan p l len flags hint = Done (a, l', p') ->
  a <> invalid ->
  policy_holds l len flags hint a.
Proof.
  intros Hhi Hlen Hh.
  induction l as [|curr tail IH]; intros p lo a l' p' Hlo Hinv Hs Ha.
  - simpl in Hs. injection Hs as <- <- <-. congruence.
  - simpl in Hs. destruct (check_span curr len flags hint) eqn:Hc.
    + eapply split_span_policy; eauto.
    + destruct (allocate_scan p tail len flags hint)
        as [[[a0 l0] p0]|] eqn:Hr; simpl in Hs; [|discriminate].
      injection Hs as <- <- <-.
      destruct Hinv as (Hb & Hl & He & Ht). unfold span_end in *.
      pose proof (IH p (span_base curr + span_length curr) a0 l0 p0
                    ltac:(lia) Ht Hr Ha) as P.
      destruct flags; simpl in *; auto.
      destruct P as (s & Hin & Hs'). exists s. auto.
Qed.

(** Policy correctness in a well-formed state: for ALLOCATE_ABOVE it needs
    [hint + length] below [2^w]. *)
Lemma allocate_policy ra len flags hint a ra' :
  wf ra -> is_word hint ->
  allocate ra len flags hint = Done (a, ra') ->
  a <> invalid ->
  policy_holds (_free_mem_root ra) (round_up (_granularity ra) len)
               flags hint a.
Proof.
  intros [Hg Hb Hl He Hs] Hh H Ha. unfold allocate in H.
  destruct (Z.eqb_spec (_granularity ra) 0); [discriminate|].
  pose proof (round_up_word (_granularity ra) len) as [Hr0 Hr1].
  destruct (Z.eqb_spec (round_up (_granularity ra) len) 0);
    [injection H as <- <-; congruence|].
  destruct (Z.ltb_spec (_length ra) (round_up (_granularity ra) len));
    [injection H as <- <-; congruence|].
  destruct (allocate_scan _ _ _ _ _) as [[[a0 l0] p0]|] eqn:Hr;
    simpl in H; [|discriminate].
  injection H as <- <-.
  eapply (allocate_scan_policy (round_up (_granularity ra) len) flags hint
            (_base ra + _length ra) He ltac:(lia) Hh _ _ (_base ra - 1));
    eauto. lia.
Qed.

(** ** Releases that are ignored *)

(** A span that meets the freed range stops the loop of [free] without a
    change. *)
Lemma free_scan_overlap b len hi :
  hi < modulus -> 0 < len -> b + len < modulus ->
  forall l p lo,
  -1 <= lo -> lo < b ->
  spans_inv lo l hi ->
  Exists (fun s => span_base s < b + len /\ b < span_end s) l ->
  free_scan p l b len = Done (l, p).
Proof.
  intros Hhi Hlen Hw.
  induction l as [|next rest IH]; intros p lo Hlo Hb Hinv Hex.
  - inversion Hex.
  - destruct Hinv as (Hnb & Hnl & Hne & Ht).
    pose proof (spans_inv_contained _ _ _ Ht) as Hc.
    unfold span_end in *.
    assert (Hlater : b + len <= span_base next + span_length next ->
                     ~ Exists (fun s => span_base s < b + len
                                        /\ b < span_end s) rest).
    { intros Hle Hx. apply Exists_exists in Hx.
      destruct Hx as (s & Hin & H1 & H2).
      rewrite Forall_forall in Hc. specialize (Hc s Hin). lia. }
    simpl. unwrap.
    destruct (Z.ltb_spec (b + len) (span_base next)).
    { exfalso. apply Exists_cons in Hex; destruct Hex as [[H1 H2]|Hx];
        [lia|apply Hlater; auto; lia]. }
    destruct (Z.eqb_spec (b + len) (span_base next)).
    { exfalso. apply Exists_cons in Hex; destruct Hex as [[H1 H2]|Hx];
        [lia|apply Hlater; auto; lia]. }
    destruct (Z.ltb_spec b (span_base next + span_length next));
      [reflexivity|].
    destruct (Z.eqb_spec b (span_base next + span_length next)).
    { apply Exists_cons in Hex; destruct Hex as [[H1 H2]|Hx];
        [unfold span_end in H2; lia|].
      destruct rest as [|nn rest']; [inversion Hx|].
      destruct Ht as (Hnnb & Hnnl & Hnne & Ht').
      pose proof (spans_inv_contained _ _ _ Ht') as Hc'.
      unfold span_end in *. unwrap.
      destruct (Z.ltb_spec (span_base nn) (b + len)); [reflexivity|].
      exfalso. apply Exists_cons in Hx; destruct Hx as [[O1 O2]|Hx']; [lia|].
      apply Exists_exists in Hx'. destruct Hx' as (s & Hin & H3 & H4).
      rewrite Forall_forall in Hc'. specialize (Hc' s Hin).
      unfold span_end in *. lia. }
    apply Exists_cons in Hex; destruct Hex as [[H1 H2]|Hx];
      [unfold span_end in H2; lia|].
    rewrite (IH p (span_base next + span_length next)); auto; lia.
Qed.

(** Without wrap-around in [base + length], [free] ignores a request
    whose rounded length is zero, whose rounded range is not inside the
    range of the allocator, or whose rounded range meets a free span. *)
Lemma free_ignores_invalid ra base length :
  wf ra ->
  let b := round_down (_granularity ra) base in
  let l := round_up (_granularity ra) length in
  b + l < modulus ->
  l = 0
  \/ ~ (_base ra <= b /\ b + l <= _base ra + _length ra)
  \/ Exists (fun s => span_base s < b + l /\ b < span_end s)
            (_free_mem_root ra) ->
  free ra base length = Done ra.
Proof.
  intros [Hg Hb Hl He Hs] b l Hw Hbad. unfold free.
  destruct (Z.eqb_spec (_granularity ra) 0); [lia|].
  fold b l.
  assert (Hb0 : 0 <= b) by (unfold b, round_down; apply wmul_word).
  assert (Hl0 : 0 <= l) by (unfold l; apply round_up_word).
  destruct (Z.eqb_spec l 0); [reflexivity|].
  rewrite (wadd_small (_base ra)) by lia.
  rewrite (wadd_small b) by lia.
  destruct (Z.ltb_spec b (_base ra)); [reflexivity|].
  destruct (Z.leb_spec (_base ra + _length ra) b); [reflexivity|].
  destruct (Z.ltb_spec (_base ra + _length ra) (b + l)); [reflexivity|].
  simpl. destruct Hbad as [?|[Hout|Hex]]; try lia.
  rewrite (free_scan_overlap b l (_base ra + _length ra) He ltac:(lia) Hw
             _ _ (_base ra - 1) ltac:(lia) ltac:(lia) Hs Hex).
  simpl. apply f_equal, range_allocator_eta.
Qed.

(** ** The pool is large enough for an even number of granules *)

Lemma multiple_ge (g z : Z) : 0 < g -> z mod g = 0 -> 0 < z -> g <= z.
Proof.
  intros Hg Hm Hz. apply Z.mod_divide in Hm; [|lia].
  destruct Hm as [k Hk]. assert (0 < k) by nia. nia.
Qed.

(** Spans on the grid, with a gap between them, take two granules each
    but for the last. *)
Lemma spans_count g hi :
  0 < g ->
  forall l x,
  x mod g = 0 -> x <= hi + g ->
  spans_inv (x - 1) l hi ->
  Forall (span_aligned g) l ->
  2 * (g * Z.of_nat (List.length l)) <= hi - x + g.
Proof.
  intros Hg. induction l as [|s r IH]; intros x Hx Hhi Hinv Hal.
  - cbn [List.length Z.of_nat]. lia.
  - destruct Hinv as (Hb & Hl & He & Ht).
    inversion Hal as [|? ? (Hbm & Hlm & _) Hr]; subst.
    unfold span_end in *.
    pose proof (multiple_ge g (span_length s) Hg Hlm Hl) as Hlg.
    assert (Hem : (span_base s + span_length s) mod g = 0)
      by now apply mod0_add.
    assert (Ht' : spans_inv (span_base s + span_length s + g - 1) r hi).
    { destruct r as [|t r']; [exact I|].
      destruct Ht as (Htb & Htl & Hte & Ht).
      inversion Hr as [|? ? (Htm & _) _]; subst.
      assert (g <= span_base t - (span_base s + span_length s)).
      { apply multiple_ge; try lia. now apply mod0_sub. }
      simpl. repeat split; auto; lia. }
    specialize (IH (span_base s + span_length s + g)
                   ltac:(apply mod0_add; auto; apply Z.mod_same; lia)
                   ltac:(lia) Ht' Hr).
    simpl List.length. rewrite Nat2Z.inj_succ. lia.
Qed.

(** Records are neither lost nor made: those in the list and those in the
    chain are as many after a call as before. *)
Lemma allocate_scan_records len flags hint :
  forall l p a l' p',
  allocate_scan p l len flags hint = Done (a, l', p') ->
  (List.length l' + List.length (_available_spans p')
   = List.length l + List.length (_available_spans p))%nat.
Proof.
  induction l as [|curr tail IH]; intros p a l' p' Hs; simpl in Hs.
  - now injection Hs as <- <- <-.
  - destruct (check_span curr len flags hint).
    + unfold split_span, trunc_span_low, trunc_span_high, trunc_span_middle,
        add_span, get, remove_span, release in Hs.
      destruct flags; cmp; simpl in Hs;
        try (destruct (_available_spans p) eqn:Hch; simpl in Hs;
             try discriminate);
        injection Hs as <- <- <-; simpl; try rewrite Hch; simpl; lia.
    + destruct (allocate_scan p tail len flags hint)
        as [[[a0 l0] p0]|] eqn:Hr; simpl in Hs; [|discriminate].
      injection Hs as <- <- <-. simpl. specialize (IH _ _ _ _ Hr). lia.
Qed.

Lemma free_scan_records b len :
  forall l p l' p',
  free_scan p l b len = Done (l', p') ->
  (List.length l' + List.length (_available_spans p')
   = List.length l + List.length (_available_spans p))%nat.
Proof.
  induction l as [|next rest IH]; intros p l' p' Hs; simpl in Hs;
    unfold add_span, get, remove_span, release in Hs.
  - destruct (_available_spans p); [discriminate|].
    injection Hs as <- <-. simpl. lia.
  - destruct (wadd b len <? span_base next).
    { destruct (_available_spans p); [discriminate|].
      injection Hs as <- <-. simpl. lia. }
    destruct (wadd b len =? span_base next);
      [injection Hs as <- <-; simpl; lia|].
    destruct (b <? wadd (span_base next) (span_length next));
      [injection Hs as <- <-; simpl; lia|].
    destruct (b =? wadd (span_base next) (span_length next)).
    { destruct rest as [|nn rest']; [injection Hs as <- <-; simpl; lia|].
      destruct (span_base nn <? wadd b len);
        [injection Hs as <- <-; simpl; lia|].
      destruct (wadd b len =? span_base nn);
        injection Hs as <- <-; simpl; lia. }
    destruct (free_scan p rest b len) as [[l0 p0]|] eqn:Hr;
      simpl in Hs; [|discriminate].
    injection Hs as <- <-. simpl. specialize (IH _ _ _ Hr). lia.
Qed.

(** A loop fails only for want of a record, and with one more record it
    returns a list that is one node longer. *)
Lemma allocate_scan_crash len flags hint :
  forall l p,
  allocate_scan p l len flags hint = Crash ->
  _available_spans p = []
  /\ forall s, exists a l' p',
       allocate_scan (release p s) l len flags hint = Done (a, l', p')
       /\ List.length l' = S (List.length l).
Proof.
  induction l as [|curr tail IH]; intros p Hs; simpl in Hs; [discriminate|].
  simpl. destruct (check_span curr len flags hint).
  - unfold split_span, trunc_span_low, trunc_span_high, trunc_span_middle,
      add_span, get, remove_span, release in *.
    destruct flags; cmp; simpl in *; try discriminate.
    destruct (_available_spans p) eqn:Hch; simpl in Hs; [|discriminate].
    split; [reflexivity|]. intros s. simpl. eauto.
  - destruct (allocate_scan p tail len flags hint)
      as [[[a0 l0] p0]|] eqn:Hr; simpl in Hs; [discriminate|].
    destruct (IH p Hr) as (Hch & Hmore). split; [exact Hch|].
    intros s. destruct (Hmore s) as (a & l' & p' & -> & Hlen).
    simpl. do 3 eexists. split; [reflexivity|]. simpl. lia.
Qed.

Lemma free_scan_crash b len :
  forall l p,
  free_scan p l b len = Crash ->
  _available_spans p = []
  /\ forall s, exists l' p',
       free_scan (release p s) l b len = Done (l', p')
       /\ List.length l' = S (List.length l).
Proof.
  induction l as [|next rest IH]; intros p Hs; simpl in Hs |- *;
    unfold add_span, get, remove_span, release in *.
  - destruct (_available_spans p) eqn:Hch; [|discriminate].
    split; [reflexivity|]. intros s. simpl. eauto.
  - destruct (wadd b len <? span_base next).
    { destruct (_available_spans p) eqn:Hch; [|discriminate].
      split; [reflexivity|]. intros s. simpl. eauto. }
    destruct (wadd b len =? span_base next); [discriminate|].
    destruct (b <? wadd (span_base next) (span_length next));
      [discriminate|].
    destruct (b =? wadd (span_base next) (span_length next)).
    { destruct rest as [|nn rest']; [discriminate|].
      destruct (span_base nn <? wadd b len); [discriminate|].
      destruct (wadd b len =? span_base nn); discriminate. }
    destruct (free_scan p rest b len) as [[l0 p0]|] eqn:Hr;
      simpl in Hs; [discriminate|].
    destruct (IH p Hr) as (Hch & Hmore). split; [exact Hch|].
    intros s. destruct (Hmore s) as (l' & p' & E & Hlen).
    unfold release in E. rewrite E.
    simpl. do 2 eexists. split; [reflexivity|]. simpl. lia.
Qed.

Lemma allocate_records ra len flags hint a ra' :
  allocate ra len flags hint = Done (a, ra') ->
  (List.length (_free_mem_root ra')
   + List.length (_available_spans (_spans ra'))
   = List.length (_free_mem_root ra)
     + List.length (_available_spans (_spans ra)))%nat.
Proof.
  unfold allocate. intros H.
  destruct (_granularity ra =? 0); [discriminate|].
  destruct (round_up (_granularity ra) len =? 0);
    [injection H as <- <-; auto|].
  destruct (_length ra <? round_up (_granularity ra) len);
    [injection H as <- <-; auto|].
  destruct (allocate_scan _ _ _ _ _) as [[[a0 l0] p0]|] eqn:Hr;
    simpl in H; [|discriminate].
  injection H as <- <-. simpl. eapply allocate_scan_records; eauto.
Qed.

Lemma free_records ra b len ra' :
  free ra b len = Done ra' ->
  (List.length (_free_mem_root ra')
   + List.length (_available_spans (_spans ra'))
   = List.length (_free_mem_root ra)
     + List.length (_available_spans (_spans ra)))%nat.
Proof.
  unfold free. intros H.
  destruct (_granularity ra =? 0); [discriminate|].
  destruct (round_up (_granularity ra) len =? 0);
    [injection H as <-; auto|].
  destruct (_ || _); [injection H as <-; auto|].
  destruct (_ <? _); [injection H as <-; auto|].
  destruct (free_scan _ _ _ _) as [[l0 p0]|] eqn:Hr;
    simpl in H; [|discriminate].
  injection H as <-. simpl. eapply free_scan_records; eauto.
Qed.

Lemma allocate_no_crash ra len flags hint :
  wf ra -> on_grid ra -> records_suffice ra ->
  is_word hint ->
  hint_fits flags hint (round_up (_granularity ra) len) ->
  hint_aligned (_granularity ra) flags hint ->
  allocate ra len flags hint <> Crash.
Proof.
  intros [Hg Hb Hl He Hs] [Hbm Hal] Hrec Hh Hfit Hha H.
  unfold records_suffice in Hrec. unfold allocate in H.
  destruct (Z.eqb_spec (_granularity ra) 0); [lia|].
  pose proof (round_up_word (_granularity ra) len) as [Hr0 Hr1].
  destruct (Z.eqb_spec (round_up (_granularity ra) len) 0); [discriminate|].
  destruct (Z.ltb_spec (_length ra) (round_up (_granularity ra) len));
    [discriminate|].
  destruct (allocate_scan _ _ _ _ _) as [[[a0 l0] p0]|] eqn:Hr;
    simpl in H; [discriminate|].
  destruct (allocate_scan_crash _ _ _ _ _ Hr) as (Hch & Hmore).
  destruct (Hmore 0%nat) as (a & l' & p' & Hd & Hlen).
  destruct (allocate_scan_inv (_granularity ra)
              (round_up (_granularity ra) len) flags hint
              (_base ra + _length ra) He ltac:(lia) Hh Hfit
              _ _ (_base ra - 1) _ _ _ ltac:(lia) Hs Hd) as (I1 & _ & I3).
  pose proof (spans_count (_granularity ra) (_base ra + _length ra) Hg
                l' (_base ra) Hbm ltac:(lia) I1
                (I3 Hg Hal (round_up_mod0 _ _ Hg) Hha)) as C.
  rewrite Hlen, Hch in *. simpl List.length in *.
  rewrite Nat.add_0_r in Hrec. rewrite Nat2Z.inj_succ in C. lia.
Qed.

Lemma free_no_crash ra b len :
  wf ra -> on_grid ra -> records_suffice ra ->
  is_word b ->
  round_down (_granularity ra) b + round_up (_granularity ra) len < modulus ->
  free ra b len <> Crash.
Proof.
  intros [Hg Hb Hl He Hs] [Hbm Hal] Hrec Hbw Hfit H.
  unfold records_suffice in Hrec. unfold free in H.
  destruct (Z.eqb_spec (_granularity ra) 0); [lia|].
  pose proof (round_up_word (_granularity ra) len) as [Hr0 Hr1].
  pose proof (round_down_mod0 (_granularity ra) b Hg Hbw) as Hbm'.
  pose proof (round_up_mod0 (_granularity ra) len Hg) as Hlm.
  assert (Hd0 : 0 <= round_down (_granularity ra) b)
    by (unfold round_down; apply wmul_word).
  set (b' := round_down (_granularity ra) b) in *.
  set (l' := round_up (_granularity ra) len) in *.
  destruct (Z.eqb_spec l' 0); [discriminate|].
  rewrite (wadd_small (_base ra)) in H by lia.
  rewrite (wadd_small b') in H by lia.
  destruct (Z.ltb_spec b' (_base ra)); simpl in H; [discriminate|].
  destruct (Z.leb_spec (_base ra + _length ra) b'); simpl in H;
    [discriminate|].
  destruct (Z.ltb_spec (_base ra + _length ra) (b' + l')); [discriminate|].
  destruct (free_scan _ _ _ _) as [[l0 p0]|] eqn:Hr;
    simpl in H; [discriminate|].
  destruct (free_scan_crash _ _ _ _ Hr) as (Hch & Hmore).
  destruct (Hmore 0%nat) as (l1 & p1 & Hd & Hlen).
  destruct (free_scan_inv (_granularity ra) b' l' (_base ra + _length ra)
              He ltac:(lia) ltac:(lia)
              _ _ (_base ra - 1) _ _ ltac:(lia) ltac:(lia) Hs Hd)
    as (I1 & I2).
  pose proof (spans_count (_granularity ra) (_base ra + _length ra) Hg
                l1 (_base ra) Hbm ltac:(lia) I1 (I2 Hg Hal Hbm' Hlm)) as C.
  rewrite Hlen, Hch in *. simpl List.length in *.
  rewrite Nat.add_0_r in Hrec. rewrite Nat2Z.inj_succ in C. lia.
Qed.

(** A call that fits, on the grid, returns, and keeps the three
    conditions. *)
Lemma step_no_crash ra c :
  wf ra -> on_grid ra -> records_suffice ra ->
  call_fits (_granularity ra) c -> call_on_grid (_granularity ra) c ->
  exists ra',
    step ra c = Done ra'
    /\ wf ra' /\ on_grid ra' /\ records_suffice ra'
    /\ _granularity ra' = _granularity ra.
Proof.
  intros W G R Hf Hg.
  destruct c as [len flags hint|b len]; simpl in *.
  - destruct Hf as (_ & Hh & Hfit).
    destruct (allocate ra len flags hint) as [[a ra']|] eqn:Ha;
      [|exfalso; eapply allocate_no_crash; eauto].
    exists ra'. simpl. split; [reflexivity|].
    destruct (allocate_wf _ _ _ _ _ _ W Hh Hfit Ha) as (W' & A').
    destruct (allocate_frame _ _ _ _ _ _ Ha) as (B' & L' & G' & _).
    pose proof (allocate_records _ _ _ _ _ _ Ha) as N'.
    destruct G as [Gb Ga].
    unfold on_grid, records_suffice in *.
    rewrite B', L', G', N'. auto.
  - destruct Hf as (Hb & _ & Hfit).
    destruct (free ra b len) as [ra'|] eqn:Ha;
      [|exfalso; eapply free_no_crash; eauto].
    exists ra'. split; [reflexivity|].
    destruct (free_wf _ _ _ _ W Hb Hfit Ha) as (W' & A').
    destruct (free_frame _ _ _ _ Ha) as (B' & L' & G' & _).
    pose proof (free_records _ _ _ _ Ha) as N'.
    destruct G as [Gb Ga].
    unfold on_grid, records_suffice in *.
    rewrite B', L', G', N'. auto.
Qed.

Lemma run_calls_no_crash :
  forall cs ra,
  wf ra -> on_grid ra -> records_suffice ra ->
  Forall (call_fits (_granularity ra)) cs ->
  Forall (call_on_grid (_granularity ra)) cs ->
  exists ra', run_calls ra cs = Done ra'.
Proof.
  induction cs as [|c cs IH]; intros ra W G R Hf Hg; simpl.
  - eauto.
  - inversion Hf; subst. inversion Hg; subst.
    destruct (step_no_crash ra c) as (ra1 & -> & W1 & G1 & R1 & E1); auto.
    simpl. apply IH; auto; rewrite E1; auto.
Qed.

(** X15. With an even number of granules, a base on the grid and a range
    that ends below [2^w], no sequence of calls that fit, with EXACT hints
    on the grid, exhausts the pool: every call returns. *)
Lemma pool_suffices_even base length g cs ra0 :
  is_word base -> is_word length -> is_word g ->
  base + length / g * g < modulus ->
  base mod g = 0 ->
  (length / g) mod 2 = 0 ->
  create_range_allocator base length g = Done (Some ra0) ->
  Forall (call_fits g) cs ->
  Forall (call_on_grid g) cs ->
  exists ra, run_calls ra0 cs = Done ra.
Proof.
  intros Hb Hl Hg He Hbm Hev Hc Hf Hgr.
  destruct (create_range_allocator_wf _ _ _ _ Hb Hl Hg He Hc)
    as (W0 & _ & _ & _ & _ & Lp & Lm).
  destruct (create_range_allocator_done _ _ _ _ Hl Hg Hc)
    as (Hb0 & Hg0 & H2 & ->).
  apply run_calls_no_crash; auto.
  - split; cbn [_base _granularity _free_mem_root]; auto.
    constructor; [|constructor]. unfold span_aligned; simpl. auto.
  - unfold records_suffice.
    cbn [_length _granularity _free_mem_root _spans _available_spans
         List.length].
    rewrite length_seq.
    assert (Hq : 2 <= length / g) by (apply Z.div_le_lower_bound; lia).
    assert (Hk : 1 <= length / g / 2) by (apply Z.div_le_lower_bound; lia).
    pose proof (Z.div_mod (length / g) 2 ltac:(lia)) as E.
    rewrite Hev in E.
    match goal with
    | |- context [Z.of_nat ?n] =>
        replace (Z.of_nat n) with (length / g / 2) by lia
    end.
    nia.
Qed.

(** ** The claims of the specification *)

(** C4 (amended). In a well-formed state, whose range does not wrap, when
    an allocate succeeds with an address [a] that is a multiple of the
    granularity and, for EXACT and ABOVE, [hint + l] stays below [2^w]
    ([l] the rounded length), the call [free(a, l)] gives back the state
    before the allocate: the same free span list, held in the same
    records, and the same pool chain. *)
Theorem allocate_free_round_trip ra len flags hint a ra' :
  wf ra -> is_word hint ->
  hint_fits flags hint (round_up (_granularity ra) len) ->
  allocate ra len flags hint = Done (a, ra') ->
  a <> invalid ->
  a mod _granularity ra = 0 ->
  free ra' a (round_up (_granularity ra) len) = Done ra.
Proof.
  intros [Hg Hb Hl He Hs] Hh Hfit H Ha Ham. unfold allocate in H.
  destruct (Z.eqb_spec (_granularity ra) 0) as [|Hg0]; [discriminate|].
  pose proof (round_up_word (_granularity ra) len) as [Hr0 Hr1].
  pose proof (round_up_mod0 (_granularity ra) len Hg) as Hlm.
  set (l := round_up (_granularity ra) len) in *.
  destruct (Z.eqb_spec l 0) as [|Hl0]; [injection H as <- <-; congruence|].
  destruct (Z.ltb_spec (_length ra) l);
    [injection H as <- <-; congruence|].
  destruct (allocate_scan _ _ _ _ _) as [[[a0 l0] p0]|] eqn:Hr;
    simpl in H; [|discriminate].
  injection H as <- <-.
  destruct (allocate_scan_inv 1 l flags hint (_base ra + _length ra)
              He ltac:(lia) Hh Hfit _ _ (_base ra - 1) _ _ _
              ltac:(lia) Hs Hr) as (_ & [(-> & _)|[Ha0 Ha1]] & _);
    [congruence|].
  assert (Hag : _granularity ra <= a0).
  { apply Z.mod_divide in Ham; [|lia]. destruct Ham as [k Hk].
    assert (0 < k) by nia. nia. }
  unfold free. simpl.
  destruct (Z.eqb_spec (_granularity ra) 0); [lia|].
  rewrite (round_down_fix (_granularity ra) a0)
    by (unfold is_word; auto; lia).
  rewrite (round_up_fix (_granularity ra) l) by (auto; lia).
  destruct (Z.eqb_spec l 0); [lia|].
  rewrite (wadd_small (_base ra)) by lia.
  rewrite (wadd_small a0) by lia.
  destruct (Z.ltb_spec a0 (_base ra)); [lia|].
  destruct (Z.leb_spec (_base ra + _length ra) a0); [lia|].
  destruct (Z.ltb_spec (_base ra + _length ra) (a0 + l)); [lia|]. simpl.
  rewrite (free_scan_allocate_scan l flags hint (_base ra + _length ra)
             He ltac:(lia) Hh Hfit _ _ (_base ra - 1) _ _ _
             ltac:(lia) Hs Hr Ha).
  simpl. now rewrite range_allocator_eta.
Qed.

(** C6 (amended). Construction leaves one span, whose base is the
    configured base and whose length is the effective length, a positive
    multiple of the granularity.  When the configured base is a multiple
    of the granularity and the effective range ends below [2^w], every
    span has an aligned base and a length that is a positive multiple of
    the granularity after construction and after every sequence of
    allocate and free calls whose address arithmetic does not wrap and
    whose EXACT hints are multiples of the granularity. *)
Theorem spans_stay_on_grid base length g cs ra0 ra :
  is_word base -> is_word length -> is_word g ->
  create_range_allocator base length g = Done (Some ra0) ->
  (_free_mem_root ra0 = [mk_span 0 base (length / g * g)]
   /\ (length / g * g) mod g = 0 /\ 0 < length / g * g)
  /\ (base mod g = 0 ->
      base + length / g * g < modulus ->
      Forall (call_fits g) cs ->
      Forall (call_on_grid g) cs ->
      run_calls ra0 cs = Done ra ->
      Forall (span_aligned g) (_free_mem_root ra)).
Proof.
  intros Hb Hl Hg Hc.
  destruct (create_range_allocator_done _ _ _ _ Hl Hg Hc)
    as (_ & Hg0 & H2 & E).
  assert (Lm : (length / g * g) mod g = 0) by now apply multiple_mod0.
  assert (Lp : 0 < length / g * g).
  { destruct Hl as [Hl0 _].
    pose proof (floor_multiple g length Hg0 Hl0). lia. }
  split; [rewrite E; auto|].
  intros Hbm He Hf Hgr Hr.
  destruct (create_range_allocator_wf _ _ _ _ Hb Hl Hg He Hc)
    as (W0 & G0 & F0 & _).
  rewrite <- G0 in Hf, Hgr |- *.
  destruct (run_calls_wf cs ra0 ra W0 Hf Hr) as (_ & _ & A).
  apply A; auto. rewrite F0, G0. constructor; [|constructor].
  unfold span_aligned; simpl. auto.
Qed.

(** C8. [allocate] rounds the requested length up to a multiple of the
    granularity in arithmetic modulo [2^w]: without wrap-around the rounded
    length is the least multiple at or above the request, and when
    [length + granularity - 1] wraps it is zero.  When the rounded length
    is zero, or exceeds the effective length, or the requested length
    exceeds the effective length, [allocate] returns [(vaddr_t)-1], the
    all-ones word, whatever the free list holds, and leaves the state as
    it was. *)
Theorem allocate_rounds_and_rejects ra length flags hint :
  is_word (_granularity ra) -> _granularity ra <> 0 ->
  is_word length ->
  let g := _granularity ra in
  (length + g - 1 < modulus ->
   round_up g length mod g = 0
   /\ length <= round_up g length < length + g)
  /\ (modulus <= length + g - 1 -> round_up g length = 0)
  /\ invalid = Z.ones (Z.of_nat w)
  /\ (round_up g length = 0 \/ _length ra < round_up g length
      \/ _length ra < length ->
      allocate ra length flags hint = Done (invalid, ra)).
Proof.
  intros [Hg0 Hg1] Hgn Hw g. fold g in Hg0, Hg1, Hgn.
  assert (Hg : 0 < g) by lia.
  split; [|split; [|split]].
  - intros Hnw. destruct Hw as [Hx0 Hx1].
    destruct (round_up_no_wrap g length Hg Hx0 Hnw) as (_ & B & M0). auto.
  - intros Hwr. apply round_up_wrap; auto. unfold is_word. lia.
  - rewrite invalid_eq, Z.ones_equiv. unfold modulus. lia.
  - intros Hc. unfold allocate. fold g.
    destruct (Z.eqb_spec g 0); [lia|].
    destruct (Z.eqb_spec (round_up g length) 0) as [|Hnz]; [reflexivity|].
    destruct (Z.ltb_spec (_length ra) (round_up g length)); [reflexivity|].
    exfalso. destruct Hc as [Hc|[Hc|Hc]]; try lia.
    destruct (Z_lt_le_dec (length + g - 1) modulus) as [Hnw|Hwr].
    + destruct Hw as [Hx0 Hx1].
      destruct (round_up_no_wrap g length Hg Hx0 Hnw) as (_ & B & _). lia.
    + apply Hnz. apply round_up_wrap; auto. unfold is_word. lia.
Qed.

(** One iteration of the loop of [free], in machine arithmetic: [next]
    is the node under test and [next_next] the node linked after it. *)
Lemma free_scan_merge_step p next next_next post b l :
  span_base next < span_base next_next ->
  b = wadd (span_base next) (span_length next) ->
  wadd b l = span_base next_next ->
  free_scan p (next :: next_next :: post) b l =
  Done (mk_span (span_slot next) (span_base next)
                (wadd (span_length next) (wadd l (span_length next_next)))
          :: post,
        remove_span p next_next).
Proof.
  intros Hord Hstart Hstop. simpl. rewrite Hstop, <- Hstart.
  destruct (Z.ltb_spec (span_base next_next) (span_base next)); [lia|].
  destruct (Z.eqb_spec (span_base next_next) (span_base next)); [lia|].
  rewrite !Z.ltb_irrefl, !Z.eqb_refl. reflexivity.
Qed.

(** C9. In machine arithmetic: when the loop of [free] reaches a node
    [next] that lies below the node [next_next] linked after it, and the
    rounded freed range starts at [next.base + next.length] and ends at
    [next_next.base], the two nodes are replaced by the node of [next]
    with its length increased by the rounded length plus the length of
    [next_next], and the record of [next_next] is pushed on the chain of
    the pool.  In a well-formed state this is what the whole call does,
    wherever the two spans are in the free list: the loop walks up to
    [next], the sums do not wrap, and nothing else changes. *)
Theorem free_three_way_merge ra base length pre next next_next post :
  let b := round_down (_granularity ra) base in
  let l := round_up (_granularity ra) length in
  (span_base next < span_base next_next ->
   b = wadd (span_base next) (span_length next) ->
   wadd b l = span_base next_next ->
   free_scan (_spans ra) (next :: next_next :: post) b l =
   Done (mk_span (span_slot next) (span_base next)
                 (wadd (span_length next) (wadd l (span_length next_next)))
           :: post,
         release (_spans ra) (span_slot next_next)))
  /\ (wf ra ->
      _free_mem_root ra = pre ++ next :: next_next :: post ->
      b = span_end next ->
      b + l = span_base next_next ->
      free ra base length =
      Done (mk_range_allocator (_base ra) (_length ra) (_granularity ra)
              (pre ++ mk_span (span_slot next) (span_base next)
                              (span_length next
                               + (l + span_length next_next))
                   :: post)
              (release (_spans ra) (span_slot next_next)))).
Proof.
  intros b l. split; [apply free_scan_merge_step|].
  intros [Hg Hb Hl He Hs] Hlist Hstart Hstop.
  rewrite Hlist in Hs.
  destruct (spans_inv_app _ _ _ _ Hs) as (lo' & Hlo & Hrest & Hpre).
  destruct Hrest as (Hnb & Hnl & Hne & Hnn & Hnnl & Hnne & Hpost).
  unfold span_end in *.
  unfold free.
  destruct (Z.eqb_spec (_granularity ra) 0); [lia|].
  fold b l.
  destruct (Z.eqb_spec l 0); [lia|].
  rewrite (wadd_small (_base ra)) by lia.
  rewrite (wadd_small b) by lia.
  destruct (Z.ltb_spec b (_base ra)); [lia|].
  destruct (Z.leb_spec (_base ra + _length ra) b); [lia|].
  destruct (Z.ltb_spec (_base ra + _length ra) (b + l)); [lia|]. simpl.
  rewrite Hlist, free_scan_skip; try lia.
  - rewrite free_scan_merge_step; unwrap; try lia. reflexivity.
  - eapply Forall_impl; [|exact Hpre]. simpl. unfold span_end.
    intros x. lia.
Qed.

(** C10. A call of [allocate] or of [free] that returns leaves the base,
    the effective length and the granularity of the allocator, and the
    size of the pool vector, as they were: only the free span list and the
    chain of available records can differ. *)
Theorem calls_keep_configuration ra c ra' :
  step ra c = Done ra' ->
  _base ra' = _base ra /\ _length ra' = _length ra
  /\ _granularity ra' = _granularity ra
  /\ _pool (_spans ra') = _pool (_spans ra)
  /\ ra' = mk_range_allocator (_base ra) (_length ra) (_granularity ra)
             (_free_mem_root ra')
             (mk_pool (_pool (_spans ra))
                      (_available_spans (_spans ra'))).
Proof.
  intros H. destruct (step_frame _ _ _ H) as (B & L & G & P).
  repeat split; auto.
  destruct ra' as [b' l' g' f' [n' c']]. simpl in *. congruence.
Qed.

(** ** Further properties of the code *)

(** *** Allocation and release on the set of free addresses *)

Lemma covers_bounds :
  forall l lo hi x, spans_inv lo l hi -> covers l x -> lo < x < hi.
Proof.
  induction l as [|s r IH]; intros lo hi x Hinv Hc; simpl in *; [tauto|].
  destruct Hinv as (Hb & Hl & He & Ht). unfold span_end in *.
  destruct Hc as [Hc|Hc]; [lia|].
  specialize (IH _ _ _ Ht Hc). lia.
Qed.

Lemma covers_in l x :
  covers l x <-> exists s, In s l /\ span_base s <= x < span_end s.
Proof.
  induction l as [|s r IH]; simpl.
  - split; [tauto|]. intros (s & [] & _).
  - rewrite IH. split.
    + intros [H|(t & Hin & H)]; [exists s|exists t]; auto.
    + intros (t & [<-|Hin] & H); [left|right; exists t]; auto.
Qed.

(** [split_span] takes the block, and nothing else, out of the free
    addresses; the block lay in the span and meets the policy. *)
Lemma split_span_covers p curr tail len flags hint lo hi a l' p' :
  -1 <= lo -> hi < modulus -> 0 < len -> is_word hint ->
  hint_fits flags hint len ->
  spans_inv lo (curr :: tail) hi ->
  check_span curr len flags hint = true ->
  split_span p curr tail len flags hint = Done (a, l', p') ->
  fits curr len flags hint a
  /\ placed curr len flags a
  /\ total_free l' = total_free (curr :: tail) - len
  /\ forall x,
       covers l' x <-> covers (curr :: tail) x /\ ~ (a <= x < a + len).
Proof.
  intros Hlo Hhi Hlen [Hh Hh'] Hfit (Hb & Hl & He & Ht) Hc Hs.
  assert (Htail : forall x, covers tail x -> span_end curr < x).
  { intros x Hx. apply (covers_bounds _ _ _ _ Ht Hx). }
  unfold span_end in *.
  destruct flags; simpl in Hfit; unfold fits, placed;
    unfold check_span, split_span, trunc_span_low, trunc_span_high,
      trunc_span_middle, add_span, get in *.
  all: unwrap.
  all: cmp; simpl in *; try discriminate.
  all: try (destruct (_available_spans p); simpl in *; try discriminate).
  all: try (injection Hs as <- <- <-); simpl; unfold span_end; simpl.
  all: unwrap.
  all: repeat match goal with |- _ /\ _ => split end;
       try assumption; try lia.
  all: intros x; specialize (Htail x); intuition lia.
Qed.

Lemma allocate_scan_covers len flags hint hi :
  hi < modulus -> 0 < len -> is_word hint -> hint_fits flags hint len ->
  forall l p lo a l' p',
  -1 <= lo ->
  spans_inv lo l hi ->
  allocate_scan p l len flags hint = Done (a, l', p') ->
  a <> invalid ->
  (exists s, In s l /\ fits s len flags hint a /\ placed s len flags a)
  /\ total_free l' = total_free l - len
  /\ forall x, covers l' x <-> covers l x /\ ~ (a <= x < a + len).
Proof.
  intros Hhi Hlen Hh Hfit.
  induction l as [|curr tail IH]; intros p lo a l' p' Hlo Hinv Hs Ha.
  - simpl in Hs. injection Hs as <- <- <-. congruence.
  - simpl in Hs. destruct (check_span curr len flags hint) eqn:Hc.
    + destruct (split_span_covers p curr tail len flags hint lo hi a l' p')
        as (F & P & T & C); auto.
      split; [exists curr; simpl; auto|]. auto.
    + destruct (allocate_scan p tail len flags hint)
        as [[[a0 l0] p0]|] eqn:Hr; simpl in Hs; [|discriminate].
      injection Hs as <- <- <-.
      destruct Hinv as (Hb & Hl & He & Ht). unfold span_end in *.
      destruct (allocate_scan_inv 1 len flags hint hi Hhi Hlen Hh Hfit
                  tail p (span_base curr + span_length curr) a0 l0 p0
                  ltac:(lia) Ht Hr)
        as (_ & [(-> & _)|[Ha0 Ha1]] & _); [congruence|].
      destruct (IH p (span_base curr + span_length curr) a0 l0 p0
                  ltac:(lia) Ht Hr Ha) as ((s & Hin & F & P) & T & C).
      split; [exists s; simpl; auto|]. simpl. split; [lia|].
      intros x. rewrite C. unfold span_end. intuition lia.
Qed.

(** In machine arithmetic [check_span] accepts a span exactly when some
    block of the span meets the policy. *)
Lemma check_span_fits s len flags hint :
  0 <= span_base s -> 0 < span_length s -> span_end s < modulus ->
  0 < len -> is_word hint -> hint_fits flags hint len ->
  check_span s len flags hint = true <-> exists a, fits s len flags hint a.
Proof.
  intros Hb Hl He Hlen [Hh Hh'] Hfit. unfold fits, span_end in *.
  destruct flags; simpl in Hfit; unfold check_span.
  - split.
    + intros H. apply Z.leb_le in H. exists (span_base s). repeat split; lia.
    + intros (a & H). apply Z.leb_le. lia.
  - unwrap. rewrite andb_true_iff, !Z.leb_le. split.
    + intros H. exists hint. repeat split; lia.
    + intros (a & H). lia.
  - unwrap. split.
    + intros H. cmp; try discriminate.
      * exists (span_base s). repeat split; lia.
      * exists hint. repeat split; lia.
    + intros (a & H). cmp; try reflexivity; lia.
  - rewrite andb_true_iff, !Z.leb_le. split.
    + intros [H1 H2]. unwrap. exists (span_base s). repeat split; lia.
    + intros (a & H). unwrap. lia.
Qed.

Lemma allocate_scan_nothing_fits len flags hint hi :
  hi < modulus -> 0 < len -> is_word hint -> hint_fits flags hint len ->
  forall l p lo a l' p',
  -1 <= lo ->
  spans_inv lo l hi ->
  allocate_scan p l len flags hint = Done (a, l', p') ->
  (a = invalid <-> forall s b, In s l -> ~ fits s len flags hint b).
Proof.
  intros Hhi Hlen Hh Hfit.
  induction l as [|curr tail IH]; intros p lo a l' p' Hlo Hinv Hs.
  - simpl in Hs. injection Hs as <- <- <-. split; [intros _ s b []|auto].
  - destruct Hinv as (Hb & Hl & He & Ht).
    assert (Hck : check_span curr len flags hint = true
                  <-> exists b, fits curr len flags hint b).
    { apply check_span_fits; auto; lia. }
    simpl in Hs. destruct (check_span curr len flags hint) eqn:Hc.
    + destruct (split_span_inv p curr tail len flags hint lo hi a l' p' 1)
        as (_ & I2 & I3 & _); simpl; auto.
      rewrite invalid_eq. split; [lia|].
      intros Hno. destruct Hck as [Hck _].
      destruct (Hck eq_refl) as (b & Hb'). exfalso.
      apply (Hno curr b); simpl; auto.
    + destruct (allocate_scan p tail len flags hint)
        as [[[a0 l0] p0]|] eqn:Hr; simpl in Hs; [|discriminate].
      injection Hs as <- <- <-. unfold span_end in *.
      rewrite (IH p (span_base curr + span_length curr) a0 l0 p0
                 ltac:(lia) Ht Hr).
      split.
      * intros Hno s b [<-|Hin]; [|now apply Hno].
        intros F. destruct Hck as [_ Hck].
        specialize (Hck (ex_intro _ b F)). discriminate.
      * intros Hno s b Hin. apply Hno. now right.
Qed.

Lemma allocate_scan_lowest len flags hint hi :
  hi < modulus -> 0 < len -> is_word hint ->
  flags = ALLOCATE_ANY \/ flags = ALLOCATE_BELOW ->
  forall l p lo a l' p',
  -1 <= lo ->
  spans_inv lo l hi ->
  allocate_scan p l len flags hint = Done (a, l', p') ->
  a <> invalid ->
  forall s b, In s l -> fits s len flags hint b -> a <= b.
Proof.
  intros Hhi Hlen Hh Hfl.
  assert (Hfit : hint_fits flags hint len) by (destruct Hfl; subst; exact I).
  induction l as [|curr tail IH]; intros p lo a l' p' Hlo Hinv Hs Ha s b Hin F.
  - destruct Hin.
  - destruct Hinv as (Hb & Hl & He & Ht).
    pose proof (spans_inv_contained _ _ _ Ht) as Hc'.
    rewrite Forall_forall in Hc'.
    simpl in Hs. destruct (check_span curr len flags hint) eqn:Hc.
    + destruct (split_span_covers p curr tail len flags hint lo hi a l' p')
        as (_ & P & _); simpl; auto.
      assert (a = span_base curr) by (destruct Hfl; subst; exact P).
      destruct Hin as [<-|Hin]; [unfold fits in F; lia|].
      specialize (Hc' s Hin). unfold fits, span_end in *. lia.
    + destruct (allocate_scan p tail len flags hint)
        as [[[a0 l0] p0]|] eqn:Hr; simpl in Hs; [|discriminate].
      injection Hs as <- <- <-. unfold span_end in *.
      destruct Hin as [<-|Hin].
      * exfalso.
        assert (check_span curr len flags hint = true).
        { apply check_span_fits; eauto; unfold span_end; lia. }
        congruence.
      * eapply (IH p (span_base curr + span_length curr)); eauto. lia.
Qed.

Lemma covers_first s r lo hi x :
  spans_inv lo (s :: r) hi -> covers (s :: r) x -> span_base s <= x < hi.
Proof.
  intros (Hb & Hl & He & Ht) [H|H]; unfold span_end in *; [lia|].
  pose proof (covers_bounds _ _ _ _ Ht H). unfold span_end in *. lia.
Qed.

(** The loop of [free]: either the range meets a free span and nothing
    changes, or it meets none and is added, and nothing else, to the free
    addresses. *)
Lemma free_scan_covers b len hi :
  hi < modulus -> 0 < len -> b + len <= hi ->
  forall l p lo l' p',
  -1 <= lo -> lo < b ->
  spans_inv lo l hi ->
  free_scan p l b len = Done (l', p') ->
  (l' = l /\ p' = p /\ exists x, b <= x < b + len /\ covers l x)
  \/ ((forall x, b <= x < b + len -> ~ covers l x)
      /\ total_free l' = total_free l + len
      /\ forall x, covers l' x <-> covers l x \/ b <= x < b + len).
Proof.
  intros Hhi Hlen Hend.
  induction l as [|next rest IH]; intros p lo l' p' Hlo Hb Hinv Hs.
  - simpl in Hs. unfold add_span, get in Hs.
    destruct (_available_spans p); [discriminate|].
    injection Hs as <- <-. right. simpl. unfold span_end; simpl.
    split; [tauto|]. split; [lia|]. intros x. tauto.
  - pose proof (fun x => covers_first _ _ _ _ x Hinv) as Hfirst.
    destruct Hinv as (Hnb & Hnl & Hne & Ht).
    pose proof (fun x => covers_bounds _ _ _ x Ht) as Hrest.
    unfold span_end in *.
    simpl in Hs. unfold add_span, get, remove_span, release in Hs.
    unwrap.
    destruct (Z.ltb_spec (b + len) (span_base next)).
    { destruct (_available_spans p); [discriminate|].
      injection Hs as <- <-. right. simpl. unfold span_end; simpl.
      split; [|split; [lia|]]; intros x; specialize (Hrest x);
        intuition lia. }
    destruct (Z.eqb_spec (b + len) (span_base next)).
    { unwrap. injection Hs as <- <-. right. simpl. unfold span_end; simpl.
      split; [|split; [lia|]]; intros x; specialize (Hrest x);
        intuition lia. }
    destruct (Z.ltb_spec b (span_base next + span_length next)).
    { injection Hs as <- <-. left. repeat split.
      exists (Z.max b (span_base next)). simpl. unfold span_end. lia. }
    destruct (Z.eqb_spec b (span_base next + span_length next)).
    { destruct rest as [|nn rest'].
      - unwrap. injection Hs as <- <-. right. simpl. unfold span_end; simpl.
        split; [|split; [lia|]]; intros x; intuition lia.
      - pose proof (fun x => covers_first _ _ _ _ x Ht) as Hnnfirst.
        destruct Ht as (Hnnb & Hnnl & Hnne & Ht').
        pose proof (fun x => covers_bounds _ _ _ x Ht') as Hrest'.
        unfold span_end in *. unwrap.
        destruct (Z.ltb_spec (span_base nn) (b + len)).
        { injection Hs as <- <-. left. repeat split.
          exists (span_base nn). simpl. unfold span_end. lia. }
        destruct (Z.eqb_spec (b + len) (span_base nn)).
        { unwrap. injection Hs as <- <-. right. simpl.
          unfold span_end; simpl.
          split; [|split; [lia|]]; intros x; specialize (Hrest' x);
            intuition lia. }
        unwrap. injection Hs as <- <-. right. simpl. unfold span_end; simpl.
        split; [|split; [lia|]]; intros x; specialize (Hrest' x);
          intuition lia. }
    destruct (free_scan p rest b len) as [[l0 p0]|] eqn:Hr;
      simpl in Hs; [|discriminate].
    injection Hs as <- <-.
    destruct (IH p (span_base next + span_length next) l0 p0
                ltac:(lia) ltac:(lia) Ht Hr)
      as [(-> & -> & x & Hx & Hc)|(N & T & C)].
    + left. repeat split. exists x. simpl. auto.
    + right. simpl. unfold span_end.
      split; [|split; [lia|]]; intros x; specialize (N x);
        specialize (C x); intuition lia.
Qed.

Lemma allocate_effect ra len flags hint a ra' :
  wf ra -> is_word hint ->
  hint_fits flags hint (round_up (_granularity ra) len) ->
  allocate ra len flags hint = Done (a, ra') ->
  let l := round_up (_granularity ra) len in
  (a = invalid /\ ra' = ra)
  \/ (a <> invalid /\ 0 < l <= _length ra
      /\ (exists s, In s (_free_mem_root ra)
                    /\ fits s l flags hint a /\ placed s l flags a)
      /\ total_free (_free_mem_root ra') = total_free (_free_mem_root ra) - l
      /\ forall x, free_at ra' x <-> free_at ra x /\ ~ (a <= x < a + l)).
Proof.
  intros [Hg Hb Hl He Hs] Hh Hfit H l. unfold allocate in H. fold l in H, Hfit.
  destruct (Z.eqb_spec (_granularity ra) 0) as [|Hg0]; [discriminate|].
  pose proof (round_up_word (_granularity ra) len) as [Hr0 Hr1]. fold l in Hr0, Hr1.
  destruct (Z.eqb_spec l 0) as [|Hl0]; [injection H as <- <-; auto|].
  destruct (Z.ltb_spec (_length ra) l); [injection H as <- <-; auto|].
  destruct (allocate_scan _ _ _ _ _) as [[[a0 l0] p0]|] eqn:Hr;
    simpl in H; [|discriminate].
  injection H as <- <-.
  destruct (allocate_scan_inv 1 l flags hint (_base ra + _length ra)
              He ltac:(lia) Hh Hfit _ _ (_base ra - 1) _ _ _
              ltac:(lia) Hs Hr) as (_ & [(-> & -> & ->)|[Ha0 Ha1]] & _).
  { left. split; [reflexivity|apply range_allocator_eta]. }
  right.
  assert (Ha : a0 <> invalid) by (rewrite invalid_eq; lia).
  destruct (allocate_scan_covers l flags hint (_base ra + _length ra)
              He ltac:(lia) Hh Hfit _ _ (_base ra - 1) _ _ _
              ltac:(lia) Hs Hr Ha) as (F & T & C).
  split; [exact Ha|]. split; [lia|]. split; [exact F|].
  split; [exact T|]. exact C.
Qed.

Lemma free_effect ra b len ra' :
  wf ra -> is_word b ->
  let b' := round_down (_granularity ra) b in
  let l' := round_up (_granularity ra) len in
  b' + l' < modulus ->
  free ra b len = Done ra' ->
  (ra' = ra
   /\ (l' = 0 \/ ~ (_base ra <= b' /\ b' + l' <= _base ra + _length ra)
       \/ exists x, b' <= x < b' + l' /\ free_at ra x))
  \/ (valid_release ra b' l'
      /\ total_free (_free_mem_root ra')
         = total_free (_free_mem_root ra) + l'
      /\ forall x, free_at ra' x <-> free_at ra x \/ b' <= x < b' + l').
Proof.
  intros [Hg Hb Hl He Hs] Hbw b' l' Hfit H. unfold free in H.
  fold b' l' in H.
  destruct (Z.eqb_spec (_granularity ra) 0); [discriminate|].
  pose proof (round_up_word (_granularity ra) len) as [Hr0 Hr1].
  assert (Hd0 : 0 <= b') by (unfold b', round_down; apply wmul_word).
  fold l' in Hr0, Hr1.
  destruct (Z.eqb_spec l' 0); [injection H as <-; auto|].
  rewrite (wadd_small (_base ra)) in H by lia.
  rewrite (wadd_small b') in H by lia.
  destruct (Z.ltb_spec b' (_base ra)); simpl in H.
  { injection H as <-. left. split; [reflexivity|]. right. left. lia. }
  destruct (Z.leb_spec (_base ra + _length ra) b'); simpl in H.
  { injection H as <-. left. split; [reflexivity|]. right. left. lia. }
  destruct (Z.ltb_spec (_base ra + _length ra) (b' + l')).
  { injection H as <-. left. split; [reflexivity|]. right. left. lia. }
  destruct (free_scan _ _ _ _) as [[l0 p0]|] eqn:Hr;
    simpl in H; [|discriminate].
  injection H as <-.
  destruct (free_scan_covers b' l' (_base ra + _length ra)
              He ltac:(lia) ltac:(lia)
              _ _ (_base ra - 1) _ _ ltac:(lia) ltac:(lia) Hs Hr)
    as [(-> & -> & x & Hx & Hc)|(N & T & C)].
  - left. split; [apply range_allocator_eta|]. right. right. exists x. auto.
  - right. split; [|split; [exact T|exact C]].
    unfold valid_release, free_at. repeat split; auto; lia.
Qed.

(** X2. In a well-formed state a successful allocate, whose
    [hint + length] does not wrap for EXACT and ABOVE, returns a block
    that lay inside one free span and meets the policy: any block for
    ANY, the block at the hint for EXACT, a block at or above the hint for
    ABOVE, a block that ends at or below the hint for BELOW.  The block
    is the low end of that span for ANY and BELOW and its high end for
    ABOVE. *)
Theorem allocate_block_meets_policy ra len flags hint a ra' :
  wf ra -> is_word hint ->
  hint_fits flags hint (round_up (_granularity ra) len) ->
  allocate ra len flags hint = Done (a, ra') ->
  a <> invalid ->
  exists s,
    In s (_free_mem_root ra)
    /\ fits s (round_up (_granularity ra) len) flags hint a
    /\ placed s (round_up (_granularity ra) len) flags a.
Proof.
  intros W Hh Hf H Ha.
  destruct (allocate_effect _ _ _ _ _ _ W Hh Hf H)
    as [(-> & _)|(_ & _ & F & _)]; [congruence|exact F].
Qed.



(** X5. In a well-formed state, when the rounded base plus the rounded
    length does not wrap, [free] returns with the state unchanged exactly
    when the rounded length is zero, or the rounded range is not inside
    the range of the allocator, or it meets a free span. *)
Theorem free_ignored_iff_invalid ra b len :
  wf ra -> is_word b ->
  let b' := round_down (_granularity ra) b in
  let l' := round_up (_granularity ra) len in
  b' + l' < modulus ->
  (free ra b len = Done ra
   <-> l' = 0 \/ ~ (_base ra <= b' /\ b' + l' <= _base ra + _length ra)
       \/ exists x, b' <= x < b' + l' /\ free_at ra x).
Proof.
  intros W Hb b' l' Hw. split.
  - intros H. destruct (free_effect _ _ _ _ W Hb Hw H)
      as [(_ & Hbad)|((Hl & _ & _ & Hno) & _ & C)]; [exact Hbad|].
    exfalso. apply (Hno b'); [fold b' l'; lia|].
    apply C. right. fold b' l'. lia.
  - intros Hbad. apply free_ignores_invalid; auto. fold b' l'.
    destruct Hbad as [?|[?|(x & Hx & Hc)]]; auto.
    right. right. apply covers_in in Hc. destruct Hc as (s & Hin & Hs).
    apply Exists_exists. exists s. split; [exact Hin|]. lia.
Qed.



(** X7. In a well-formed state, for a request whose rounded length is
    not zero, [allocate] returns [(vaddr_t)-1] exactly when no free span
    holds a block that meets the policy; the state is then unchanged. *)
Theorem allocate_fails_iff_nothing_fits ra len flags hint a ra' :
  wf ra -> is_word hint ->
  let l := round_up (_granularity ra) len in
  hint_fits flags hint l ->
  l <> 0 ->
  allocate ra len flags hint = Done (a, ra') ->
  (a = invalid
   <-> forall s b, In s (_free_mem_root ra) -> ~ fits s l flags hint b)
  /\ (a = invalid -> ra' = ra).
Proof.
  intros W Hh l Hfit Hl0 H.
  split.
  2:{ intros Ha. destruct (allocate_effect _ _ _ _ _ _ W Hh Hfit H)
        as [(_ & E)|(Hn & _)]; [exact E|congruence]. }
  destruct W as [Hg Hb Hl He Hs]. unfold allocate in H. fold l in H.
  destruct (Z.eqb_spec (_granularity ra) 0) as [|Hg0]; [discriminate|].
  pose proof (round_up_word (_granularity ra) len) as [Hr0 Hr1].
  fold l in Hr0, Hr1.
  destruct (Z.eqb_spec l 0); [lia|].
  destruct (Z.ltb_spec (_length ra) l).
  { injection H as <- <-. split; [|reflexivity].
    intros _ s b Hin (F1 & F2 & _).
    pose proof (spans_inv_contained _ _ _ Hs) as Hc.
    rewrite Forall_forall in Hc. specialize (Hc s Hin).
    unfold span_end in *. lia. }
  destruct (allocate_scan _ _ _ _ _) as [[[a0 l0] p0]|] eqn:Hr;
    simpl in H; [|discriminate].
  injection H as <- <-.
  apply (allocate_scan_nothing_fits l flags hint (_base ra + _length ra)
           He ltac:(lia) Hh Hfit _ _ (_base ra - 1) _ _ _
           ltac:(lia) Hs Hr).
Qed.

(** X8. In a well-formed state a successful ANY or BELOW allocate returns
    the lowest address at which a block of the rounded length that meets
    the policy lies inside a free span. *)
Theorem allocate_lowest_address ra len flags hint a ra' :
  wf ra -> is_word hint ->
  flags = ALLOCATE_ANY \/ flags = ALLOCATE_BELOW ->
  allocate ra len flags hint = Done (a, ra') ->
  a <> invalid ->
  forall s b,
    In s (_free_mem_root ra) ->
    fits s (round_up (_granularity ra) len) flags hint b ->
    a <= b.
Proof.
  intros [Hg Hb Hl He Hs] Hh Hfl H Ha. unfold allocate in H.
  destruct (Z.eqb_spec (_granularity ra) 0) as [|Hg0]; [discriminate|].
  pose proof (round_up_word (_granularity ra) len) as [Hr0 Hr1].
  destruct (Z.eqb_spec (round_up (_granularity ra) len) 0);
    [injection H as <- <-; congruence|].
  destruct (Z.ltb_spec (_length ra) (round_up (_granularity ra) len));
    [injection H as <- <-; congruence|].
  destruct (allocate_scan _ _ _ _ _) as [[[a0 l0] p0]|] eqn:Hr;
    simpl in H; [|discriminate].
  injection H as <- <-.
  apply (allocate_scan_lowest (round_up (_granularity ra) len) flags hint
           (_base ra + _length ra) He ltac:(lia) Hh Hfl
           _ _ (_base ra - 1) _ _ _ ltac:(lia) Hs Hr Ha).
Qed.

Lemma allocations_shrink :
  forall cs ra ra',
  wf ra ->
  Forall (call_fits (_granularity ra)) cs ->
  Forall is_allocate cs ->
  run_calls ra cs = Done ra' ->
  forall x, free_at ra' x -> free_at ra x.
Proof.
  induction cs as [|c cs IH]; intros ra ra' W Hf Ha Hr x Hx; simpl in Hr.
  - now injection Hr as <-.
  - inversion Hf as [|? ? Hc Hcs]; subst. inversion Ha as [|? ? Hi His]; subst.
    destruct c as [len flags hint|]; [|destruct Hi]. simpl in Hr, Hc.
    destruct (allocate ra len flags hint) as [[a ra1]|] eqn:E;
      simpl in Hr; [|discriminate].
    destruct Hc as (_ & Hh & Hfit).
    destruct (allocate_wf _ _ _ _ _ _ W Hh Hfit E) as (W1 & _).
    destruct (allocate_frame _ _ _ _ _ _ E) as (_ & _ & G & _).
    rewrite <- G in Hcs.
    specialize (IH ra1 ra' W1 Hcs His Hr x Hx).
    destruct (allocate_effect _ _ _ _ _ _ W Hh Hfit E)
      as [(_ & ->)|(_ & _ & _ & _ & C)]; [exact IH|].
    now apply C in IH.
Qed.

(** X9. As long as nothing is freed, no two allocations overlap: in a
    well-formed state, the block of a successful allocate and the block of
    a later successful allocate, with any number of allocate calls in
    between, have no address in common. *)
Theorem allocations_do_not_overlap
    ra len1 flags1 hint1 a1 ra1 cs ra2 len2 flags2 hint2 a2 ra3 :
  wf ra -> is_word hint1 -> is_word hint2 ->
  let g := _granularity ra in
  hint_fits flags1 hint1 (round_up g len1) ->
  hint_fits flags2 hint2 (round_up g len2) ->
  Forall (call_fits g) cs -> Forall is_allocate cs ->
  allocate ra len1 flags1 hint1 = Done (a1, ra1) -> a1 <> invalid ->
  run_calls ra1 cs = Done ra2 ->
  allocate ra2 len2 flags2 hint2 = Done (a2, ra3) -> a2 <> invalid ->
  a1 + round_up g len1 <= a2 \/ a2 + round_up g len2 <= a1.
Proof.
  intros W Hh1 Hh2 g Hf1 Hf2 Hfs His E1 Ha1 Hr E2 Ha2.
  destruct (allocate_wf _ _ _ _ _ _ W Hh1 Hf1 E1) as (W1 & _).
  destruct (allocate_frame _ _ _ _ _ _ E1) as (_ & _ & G1 & _).
  fold g in G1. rewrite <- G1 in Hfs.
  destruct (run_calls_wf cs ra1 ra2 W1 Hfs Hr) as (W2 & G2 & _).
  assert (G : _granularity ra2 = g) by congruence.
  rewrite <- G in Hf2.
  destruct (allocate_effect _ _ _ _ _ _ W Hh1 Hf1 E1)
    as [(? & _)|(_ & (Hl1 & _) & _ & _ & C1)]; [congruence|].
  destruct (allocate_effect _ _ _ _ _ _ W2 Hh2 Hf2 E2)
    as [(? & _)|(_ & (Hl2 & _) & (s & Hin & (F1 & F2 & _) & _) & _)];
    [congruence|].
  rewrite G in *. fold g in C1, Hl1.
  destruct (Z_le_gt_dec (a1 + round_up g len1) a2) as [|H1]; [now left|].
  destruct (Z_le_gt_dec (a2 + round_up g len2) a1) as [|H2]; [now right|].
  exfalso.
  assert (Hx : free_at ra2 (Z.max a1 a2)).
  { apply covers_in. exists s. split; [exact Hin|]. lia. }
  apply (allocations_shrink cs ra1 ra2 W1 Hfs His Hr) in Hx.
  apply C1 in Hx. lia.
Qed.

(** X10. Freeing twice is freeing once: in a well-formed state, when the
    rounded base plus the rounded length does not wrap, a call of [free]
    that returns leaves a state on which the same call changes nothing. *)
Theorem free_twice ra b len ra' :
  wf ra -> is_word b ->
  round_down (_granularity ra) b + round_up (_granularity ra) len < modulus ->
  free ra b len = Done ra' ->
  free ra' b len = Done ra'.
Proof.
  intros W Hb Hw H.
  destruct (free_effect _ _ _ _ W Hb Hw H)
    as [(-> & _)|((Hl & _) & _ & C)]; [exact H|].
  destruct (free_wf _ _ _ _ W Hb Hw H) as (W' & _).
  destruct (free_frame _ _ _ _ H) as (_ & _ & G & _).
  apply free_ignores_invalid; [exact W'|rewrite G; exact Hw|].
  rewrite G. right. right.
  assert (Hc : free_at ra' (round_down (_granularity ra) b))
    by (apply C; right; lia).
  apply covers_in in Hc. destruct Hc as (s & Hin & Hs).
  apply Exists_exists. exists s. split; [exact Hin|]. lia.
Qed.

Lemma allocate_scan_any_hint len h1 h2 :
  forall l p,
  allocate_scan p l len ALLOCATE_ANY h1
  = allocate_scan p l len ALLOCATE_ANY h2.
Proof.
  induction l as [|curr tail IH]; intros p; simpl; [reflexivity|].
  now rewrite IH.
Qed.

(** X12. [allocate] does not read the hint of an ANY request: two ANY
    requests of the same length give the same address and the same state,
    or both fail, whatever their hints. *)
Theorem allocate_any_ignores_hint ra len h1 h2 :
  allocate ra len ALLOCATE_ANY h1 = allocate ra len ALLOCATE_ANY h2.
Proof.
  unfold allocate. now rewrite (allocate_scan_any_hint _ h1 h2).
Qed.

(** X13. When the range of the allocator reaches the top of the address
    space or passes it, so that [_base + _length] wraps to a value at or
    below [_base], every call of [free] returns with the state unchanged:
    nothing that was allocated can be given back. *)
Theorem free_ignored_when_range_wraps ra b len :
  _granularity ra <> 0 ->
  wadd (_base ra) (_length ra) <= _base ra ->
  free ra b len = Done ra.
Proof.
  intros Hg Hw. unfold free.
  destruct (Z.eqb_spec (_granularity ra) 0); [contradiction|].
  destruct (_ =? 0); [reflexivity|].
  destruct (Z.ltb_spec (round_down (_granularity ra) b) (_base ra));
    [reflexivity|].
  destruct (Z.leb_spec (wadd (_base ra) (_length ra))
                       (round_down (_granularity ra) b)); [reflexivity|].
  lia.
Qed.

(** Run [check_span] and [split_span] on a list whose head is known. *)
Ltac rebuild :=
  simpl;
  unfold split_span, trunc_span_low, trunc_span_high, trunc_span_middle,
    add_span, get, remove_span, release;
  simpl; unwrap;
  repeat (cmp; try lia; simpl; unwrap);
  try reflexivity; repeat f_equal; lia.

(** Taking back at its own address what the loop of [free] added rebuilds
    the list, record for record, and the chain of the pool. *)
Lemma allocate_scan_free_scan b len hi :
  hi < modulus -> 0 < len -> b + len <= hi ->
  forall l p lo l' p',
  -1 <= lo -> lo < b ->
  spans_inv lo l hi ->
  (forall x, b <= x < b + len -> ~ covers l x) ->
  free_scan p l b len = Done (l', p') ->
  allocate_scan p' l' len ALLOCATE_EXACT b = Done (b, l, p).
Proof.
  intros Hhi Hlen Hend.
  induction l as [|next rest IH]; intros p lo l' p' Hlo Hb Hinv Hno Hs.
  - simpl in Hs. unfold add_span, get in Hs.
    destruct p as [pn [|s ch]]; simpl in Hs; [discriminate|].
    injection Hs as <- <-. rebuild.
  - destruct Hinv as (Hnb & Hnl & Hne & Ht).
    destruct next as [ns nb nl]. unfold span_end in *. simpl in *.
    unfold add_span, get, remove_span, release in Hs.
    unwrap.
    destruct (Z.ltb_spec (b + len) nb).
    { destruct p as [pn [|s ch]]; simpl in Hs; [discriminate|].
      injection Hs as <- <-. rebuild. }
    destruct (Z.eqb_spec (b + len) nb).
    { unwrap. injection Hs as <- <-. rebuild. }
    destruct (Z.ltb_spec b (nb + nl)).
    { exfalso. apply (Hno (Z.max b nb)); [lia|]. left. unfold span_end. simpl. lia. }
    destruct (Z.eqb_spec b (nb + nl)).
    { destruct rest as [|nn rest'].
      - unwrap. injection Hs as <- <-. rebuild.
      - destruct Ht as (Hnnb & Hnnl & Hnne & Ht').
        destruct nn as [ms mb ml]. unfold span_end in *. simpl in *.
        unwrap.
        destruct (Z.ltb_spec mb (b + len)).
        { exfalso. apply (Hno mb); [lia|]. right. left. unfold span_end. simpl. lia. }
        destruct (Z.eqb_spec (b + len) mb).
        { unwrap. injection Hs as <- <-. destruct p as [pn ch]. rebuild. }
        unwrap. injection Hs as <- <-. rebuild. }
    destruct (free_scan p rest b len) as [[l0 p0]|] eqn:Hr;
      simpl in Hs; [|discriminate].
    injection Hs as <- <-. simpl. unwrap.
    destruct (Z.leb_spec nb b); [|lia].
    destruct (Z.leb_spec (b + len) (nb + nl)); [lia|]. simpl.
    rewrite (IH p (nb + nl) l0 p0); auto; try lia.
    intros x Hx Hc. apply (Hno x Hx). now right.
Qed.

(** X11. In a well-formed state, after a call of [free] that is not
    ignored, an EXACT allocate of the rounded length at the rounded base
    returns that base and gives back the state before the [free]: the same
    free span list, held in the same records, and the same pool chain. *)
Theorem free_then_allocate_exact ra b len ra' :
  wf ra -> is_word b ->
  let b' := round_down (_granularity ra) b in
  let l' := round_up (_granularity ra) len in
  valid_release ra b' l' ->
  free ra b len = Done ra' ->
  allocate ra' l' ALLOCATE_EXACT b' = Done (b', ra).
Proof.
  intros [Hg Hb Hl He Hs] Hbw b' l' (Hl0 & Hlo & Hhi & Hno) H.
  unfold free in H. fold b' l' in H.
  destruct (Z.eqb_spec (_granularity ra) 0); [lia|].
  assert (Hbm : b' mod _granularity ra = 0)
    by (apply round_down_mod0; auto).
  assert (Hlm : l' mod _granularity ra = 0) by (apply round_up_mod0; auto).
  assert (Hbg : _granularity ra <= b') by (apply multiple_ge; auto; lia).
  destruct (Z.eqb_spec l' 0); [lia|].
  rewrite (wadd_small (_base ra)) in H by lia.
  rewrite (wadd_small b') in H by lia.
  destruct (Z.ltb_spec b' (_base ra)); [lia|].
  destruct (Z.leb_spec (_base ra + _length ra) b'); [lia|].
  destruct (Z.ltb_spec (_base ra + _length ra) (b' + l')); [lia|].
  simpl in H.
  destruct (free_scan _ _ _ _) as [[l0 p0]|] eqn:Hr;
    simpl in H; [|discriminate].
  injection H as <-.
  unfold allocate. simpl.
  destruct (Z.eqb_spec (_granularity ra) 0); [lia|].
  rewrite (round_up_fix (_granularity ra) l') by (auto; lia).
  destruct (Z.eqb_spec l' 0); [lia|].
  destruct (Z.ltb_spec (_length ra) l'); [lia|].
  rewrite (allocate_scan_free_scan b' l' (_base ra + _length ra)
             He ltac:(lia) ltac:(lia) _ _ (_base ra - 1) _ _
             ltac:(lia) ltac:(lia) Hs Hno Hr).
  simpl. now rewrite range_allocator_eta.
Qed.

(** *** The records of the pool *)

Lemma allocate_scan_permutation len flags hint :
  forall l p a l' p',
  allocate_scan p l len flags hint = Done (a, l', p') ->
  Permutation (map span_slot l' ++ _available_spans p')
              (map span_slot l ++ _available_spans p).
Proof.
  induction l as [|curr tail IH]; intros p a l' p' Hs; simpl in Hs.
  - now injection Hs as <- <- <-.
  - destruct (check_span curr len flags hint).
    + unfold split_span, trunc_span_low, trunc_span_high, trunc_span_middle,
        add_span, get, remove_span, release in Hs.
      destruct flags; cmp; simpl in Hs;
        try (destruct p as [pn [|s ch]]; simpl in Hs; try discriminate);
        injection Hs as <- <- <-; simpl;
        auto using Permutation_refl, Permutation_sym, Permutation_middle,
          perm_skip.
    + destruct (allocate_scan p tail len flags hint)
        as [[[a0 l0] p0]|] eqn:Hr; simpl in Hs; [|discriminate].
      injection Hs as <- <- <-. simpl. apply perm_skip. eauto.
Qed.

Lemma free_scan_permutation b len :
  forall l p l' p',
  free_scan p l b len = Done (l', p') ->
  Permutation (map span_slot l' ++ _available_spans p')
              (map span_slot l ++ _available_spans p).
Proof.
  induction l as [|next rest IH]; intros p l' p' Hs; simpl in Hs;
    unfold add_span, get, remove_span, release in Hs.
  - destruct p as [pn [|s ch]]; simpl in Hs; [discriminate|].
    now injection Hs as <- <-.
  - destruct (wadd b len <? span_base next).
    { destruct p as [pn [|s ch]]; simpl in Hs; [discriminate|].
      injection Hs as <- <-. simpl.
      apply (Permutation_middle (span_slot next :: map span_slot rest)). }
    destruct (wadd b len =? span_base next);
      [injection Hs as <- <-; apply Permutation_refl|].
    destruct (b <? wadd (span_base next) (span_length next));
      [injection Hs as <- <-; apply Permutation_refl|].
    destruct (b =? wadd (span_base next) (span_length next)).
    { destruct rest as [|nn rest'];
        [injection Hs as <- <-; apply Permutation_refl|].
      destruct (span_base nn <? wadd b len);
        [injection Hs as <- <-; apply Permutation_refl|].
      destruct (wadd b len =? span_base nn);
        injection Hs as <- <-; [|apply Permutation_refl].
      simpl. apply perm_skip. apply Permutation_sym, Permutation_middle. }
    destruct (free_scan p rest b len) as [[l0 p0]|] eqn:Hr;
      simpl in Hs; [|discriminate].
    injection Hs as <- <-. simpl. apply perm_skip. eauto.
Qed.

Lemma step_permutation ra c ra' :
  step ra c = Done ra' -> Permutation (records ra') (records ra).
Proof.
  unfold records. destruct c as [len flags hint|b len]; simpl; intros H.
  - unfold allocate in H.
    destruct (_granularity ra =? 0); [discriminate|].
    destruct (_ =? 0); [injection H as <-; apply Permutation_refl|].
    destruct (_ <? _); [injection H as <-; apply Permutation_refl|].
    destruct (allocate_scan _ _ _ _ _) as [[[a0 l0] p0]|] eqn:Hr;
      simpl in H; [|discriminate].
    injection H as <-. simpl. eapply allocate_scan_permutation; eauto.
  - unfold free in H.
    destruct (_granularity ra =? 0); [discriminate|].
    destruct (_ =? 0); [injection H as <-; apply Permutation_refl|].
    destruct (_ || _); [injection H as <-; apply Permutation_refl|].
    destruct (_ <? _); [injection H as <-; apply Permutation_refl|].
    destruct (free_scan _ _ _ _) as [[l0 p0]|] eqn:Hr;
      simpl in H; [|discriminate].
    injection H as <-. simpl. eapply free_scan_permutation; eauto.
Qed.

Lemma run_calls_permutation :
  forall cs ra ra',
  run_calls ra cs = Done ra' -> Permutation (records ra') (records ra).
Proof.
  induction cs as [|c cs IH]; intros ra ra' H; simpl in H.
  - injection H as <-. apply Permutation_refl.
  - destruct (step ra c) as [ra1|] eqn:Hs; simpl in H; [|discriminate].
    eapply Permutation_trans; [eapply IH|eapply step_permutation]; eauto.
Qed.

Lemma records_of_reachable base length g ra0 cs ra :
  is_word length -> is_word g ->
  create_range_allocator base length g = Done (Some ra0) ->
  run_calls ra0 cs = Done ra ->
  Permutation (records ra) (seq 0 (Z.to_nat (length / g / 2)))
  /\ _pool (_spans ra) = length / g / 2.
Proof.
  intros Hl Hg Hc Hr.
  destruct (create_range_allocator_done _ _ _ _ Hl Hg Hc)
    as (_ & Hg0 & H2 & E).
  assert (Hk : 1 <= length / g / 2).
  { apply Z.div_le_lower_bound; [lia|].
    assert (2 <= length / g) by (apply Z.div_le_lower_bound; lia). lia. }
  split.
  - eapply Permutation_trans; [eapply run_calls_permutation; eauto|].
    rewrite E. unfold records. simpl.
    destruct (Z.to_nat (length / g / 2)) as [|k] eqn:Ek; [lia|].
    simpl. rewrite Nat.sub_0_r. apply Permutation_refl.
  - destruct (run_calls_frame _ _ _ Hr) as (_ & _ & _ & ->).
    rewrite E. reflexivity.
Qed.

(** X17. Whatever the calls, the records of the pool are each in one
    place: after any sequence of allocate and free calls on a constructed
    allocator, the records linked in the free list followed by those
    available in the chain are the records [0 .. n-1] of the vector, each
    exactly once. *)
Theorem records_are_each_in_one_place base length g ra0 cs ra :
  is_word length -> is_word g ->
  create_range_allocator base length g = Done (Some ra0) ->
  run_calls ra0 cs = Done ra ->
  Permutation (records ra) (seq 0 (Z.to_nat (length / g / 2)))
  /\ NoDup (records ra)
  /\ _pool (_spans ra) = length / g / 2.
Proof.
  intros Hl Hg Hc Hr.
  destruct (records_of_reachable _ _ _ _ _ _ Hl Hg Hc Hr) as (P & N).
  split; [exact P|]. split; [|exact N].
  eapply Permutation_NoDup; [apply Permutation_sym; exact P|].
  apply seq_NoDup.
Qed.

Lemma release_spans_chain :
  forall l p,
  _available_spans (release_spans p l)
  = rev (map span_slot l) ++ _available_spans p
  /\ _pool (release_spans p l) = _pool p.
Proof.
  induction l as [|s r IH]; intros p; simpl; [auto|].
  destruct (IH (release p (span_slot s))) as (-> & ->). simpl.
  rewrite <- app_assoc. auto.
Qed.

(** X18. The destructor gives every record back: after any sequence of
    calls on a constructed allocator, [destroy_range_allocator] leaves a
    pool whose chain holds the records [0 .. n-1] of the vector, each
    exactly once, the records of the last spans of the list first. *)
Theorem destroy_returns_every_record base length g ra0 cs ra :
  is_word length -> is_word g ->
  create_range_allocator base length g = Done (Some ra0) ->
  run_calls ra0 cs = Done ra ->
  exists p,
    destroy_range_allocator (Some ra) = Some p
    /\ _available_spans p
       = rev (map span_slot (_free_mem_root ra))
         ++ _available_spans (_spans ra)
    /\ Permutation (_available_spans p)
                   (seq 0 (Z.to_nat (length / g / 2)))
    /\ _pool p = length / g / 2.
Proof.
  intros Hl Hg Hc Hr.
  destruct (records_of_reachable _ _ _ _ _ _ Hl Hg Hc Hr) as (P & N).
  exists (range_allocator_delete ra). split; [reflexivity|].
  unfold range_allocator_delete.
  destruct (release_spans_chain (_free_mem_root ra) (_spans ra)) as (-> & ->).
  split; [reflexivity|]. split; [|exact N].
  eapply Permutation_trans; [|exact P]. unfold records.
  apply Permutation_app_tail. apply Permutation_sym, Permutation_rev.
Qed.

(** X16. Free spans on the grid are at most one for every two granules,
    rounded up: after construction at a base on the grid and any sequence
    of calls that do not wrap, with EXACT hints on the grid, twice the
    number of free spans is at most the number of granules plus one. *)
Theorem free_spans_at_most_half base length g cs ra0 ra :
  is_word base -> is_word length -> is_word g ->
  base + length / g * g < modulus ->
  base mod g = 0 ->
  create_range_allocator base length g = Done (Some ra0) ->
  Forall (call_fits g) cs ->
  Forall (call_on_grid g) cs ->
  run_calls ra0 cs = Done ra ->
  2 * Z.of_nat (List.length (_free_mem_root ra)) <= length / g + 1.
Proof.
  intros Hb Hl Hg He Hbm Hc Hf Hgr Hr.
  destruct (create_range_allocator_wf _ _ _ _ Hb Hl Hg He Hc)
    as (W0 & G0 & F0 & B0 & L0 & Lp & Lm).
  rewrite <- G0 in Hf, Hgr.
  destruct (run_calls_wf cs ra0 ra W0 Hf Hr) as (W & G & A).
  destruct (run_calls_frame _ _ _ Hr) as (B & L & _).
  assert (Hal : Forall (span_aligned g) (_free_mem_root ra)).
  { rewrite <- G0. apply A; auto. rewrite F0, G0.
    constructor; [|constructor]. unfold span_aligned; simpl. auto. }
  destruct W as [Wg Wb Wl We Ws].
  assert (Hg0 : 0 < g) by (rewrite G, G0 in Wg; exact Wg).
  pose proof (spans_count g (_base ra + _length ra) Hg0
                (_free_mem_root ra) (_base ra)
                ltac:(rewrite B, B0; exact Hbm) ltac:(lia) Ws Hal) as C.
  rewrite L, L0 in C. nia.
Qed.


(** *** The free list is determined by the free addresses *)



(** *** The template at the pool, and at the store that makes records *)

Lemma allocate_scan_of_pool len flags hint :
  forall l p,
  allocate_scan_of get release p l len flags hint
  = allocate_scan p l len flags hint.
Proof.
  induction l as [|curr tail IH]; intros p; simpl; [reflexivity|].
  rewrite IH. reflexivity.
Qed.

Lemma free_scan_of_pool b len :
  forall l p, free_scan_of get release p l b len = free_scan p l b len.
Proof.
  induction l as [|next rest IH]; intros p; simpl; [reflexivity|].
  rewrite IH. reflexivity.
Qed.

Lemma allocate_of_pool ra len flags hint :
  allocate_of get release (of_pool ra) len flags hint
  = ('(a, ra') <- allocate ra len flags hint ;; Done (a, of_pool ra')).
Proof.
  unfold allocate_of, allocate. simpl.
  destruct (_granularity ra =? 0); [reflexivity|].
  destruct (_ =? 0); [reflexivity|]. destruct (_ <? _); [reflexivity|].
  rewrite allocate_scan_of_pool.
  destruct (allocate_scan _ _ _ _ _) as [[[a l] p]|]; reflexivity.
Qed.

Lemma free_of_pool ra b len :
  free_of get release (of_pool ra) b len
  = (ra' <- free ra b len ;; Done (of_pool ra')).
Proof.
  unfold free_of, free. simpl.
  destruct (_granularity ra =? 0); [reflexivity|].
  destruct (_ =? 0); [reflexivity|]. destruct (_ || _); [reflexivity|].
  destruct (_ <? _); [reflexivity|].
  rewrite free_scan_of_pool.
  destruct (free_scan _ _ _ _) as [[l p]|]; reflexivity.
Qed.

Lemma step_of_pool ra c :
  step_of get release (of_pool ra) c
  = (ra' <- step ra c ;; Done (of_pool ra')).
Proof.
  destruct c as [len flags hint|b len]; simpl.
  - rewrite allocate_of_pool.
    destruct (allocate ra len flags hint) as [[a ra']|]; reflexivity.
  - apply free_of_pool.
Qed.

Lemma run_calls_of_pool :
  forall cs ra,
  run_calls_of get release (of_pool ra) cs
  = (ra' <- run_calls ra cs ;; Done (of_pool ra')).
Proof.
  induction cs as [|c cs IH]; intros ra; simpl; [reflexivity|].
  rewrite step_of_pool. destruct (step ra c) as [ra1|]; simpl; auto.
Qed.

Lemma create_range_allocator_of_pool base length g :
  create_range_allocator_of span_manager_pool_new get base length g
  = (r <- create_range_allocator base length g ;;
     Done (option_map of_pool r)).
Proof.
  unfold create_range_allocator_of, create_range_allocator,
    range_allocator_new_of, range_allocator_new.
  destruct (base =? 0); [reflexivity|]. destruct (length =? 0); [reflexivity|].
  destruct (g =? 0); [reflexivity|]. destruct (length <? g); [reflexivity|].
  destruct (span_manager_pool_new _) as [p|]; simpl; [|reflexivity].
  unfold add_span. destruct (get p) as [[s|] p']; reflexivity.
Qed.

Section TwoStores.

Variables S1 S2 : Type.
Variable get1 : S1 -> option nat * S1.
Variable release1 : S1 -> nat -> S1.
Variable get2 : S2 -> option nat * S2.
Variable release2 : S2 -> nat -> S2.

(** The second store always has a record. *)
Hypothesis get2_some : forall p, exists s p', get2 p = (Some s, p').

Lemma geometry_cons_inv s1 l1 l2 :
  geometry (s1 :: l1) = geometry l2 ->
  exists s2 r2,
    l2 = s2 :: r2 /\ span_base s2 = span_base s1
    /\ span_length s2 = span_length s1 /\ geometry l1 = geometry r2.
Proof.
  destruct l2 as [|s2 r2]; unfold geometry; simpl; [discriminate|].
  intros H. injection H as Hb Hl Hr. exists s2, r2. auto.
Qed.

Lemma check_span_geometry s1 s2 len flags hint :
  span_base s2 = span_base s1 -> span_length s2 = span_length s1 ->
  check_span s2 len flags hint = check_span s1 len flags hint.
Proof. intros Hb Hl. unfold check_span. now rewrite Hb, Hl. Qed.

Lemma split_span_of_geometry p1 p2 c1 c2 t1 t2 len flags hint a l1' p1' :
  span_base c2 = span_base c1 -> span_length c2 = span_length c1 ->
  geometry t1 = geometry t2 ->
  split_span_of get1 release1 p1 c1 t1 len flags hint = Done (a, l1', p1') ->
  exists l2' p2',
    split_span_of get2 release2 p2 c2 t2 len flags hint = Done (a, l2', p2')
    /\ geometry l1' = geometry l2'.
Proof.
  intros Hb Hl Ht H.
  unfold split_span_of, trunc_span_low_of, trunc_span_high_of,
    trunc_span_middle_of in *.
  rewrite Hb, Hl.
  destruct (get2_some p2) as (s2 & p2' & ->).
  destruct flags; cmp; simpl in *;
    try (destruct (get1 p1) as [[s1|] q1]; simpl in H; try discriminate);
    injection H as <- <- <-; do 2 eexists; (split; [reflexivity|]);
    unfold geometry in *; simpl; congruence.
Qed.

Lemma allocate_scan_of_geometry len flags hint :
  forall l1 l2 p1 p2 a l1' p1',
  geometry l1 = geometry l2 ->
  allocate_scan_of get1 release1 p1 l1 len flags hint = Done (a, l1', p1') ->
  exists l2' p2',
    allocate_scan_of get2 release2 p2 l2 len flags hint = Done (a, l2', p2')
    /\ geometry l1' = geometry l2'.
Proof.
  induction l1 as [|c1 t1 IH]; intros l2 p1 p2 a l1' p1' Hg H.
  - destruct l2; [|discriminate]. simpl in *. injection H as <- <- <-.
    eauto.
  - destruct (geometry_cons_inv _ _ _ Hg) as (c2 & t2 & -> & Hb & Hl & Ht).
    simpl in *. rewrite (check_span_geometry c1 c2) by assumption.
    destruct (check_span c1 len flags hint).
    + eapply split_span_of_geometry; eauto.
    + destruct (allocate_scan_of get1 release1 p1 t1 len flags hint)
        as [[[a0 l0] q0]|] eqn:Hr; simpl in H; [|discriminate].
      injection H as <- <- <-.
      destruct (IH t2 p1 p2 _ _ _ Ht Hr) as (l2' & p2' & -> & Hg').
      simpl. do 2 eexists. split; [reflexivity|].
      unfold geometry in *. simpl. congruence.
Qed.

Lemma free_scan_of_geometry b len :
  forall l1 l2 p1 p2 l1' p1',
  geometry l1 = geometry l2 ->
  free_scan_of get1 release1 p1 l1 b len = Done (l1', p1') ->
  exists l2' p2',
    free_scan_of get2 release2 p2 l2 b len = Done (l2', p2')
    /\ geometry l1' = geometry l2'.
Proof.
  induction l1 as [|n1 r1 IH]; intros l2 p1 p2 l1' p1' Hg H.
  - destruct l2; [|discriminate]. simpl in *.
    destruct (get2_some p2) as (s2 & p2' & ->).
    destruct (get1 p1) as [[s1|] q1]; [|discriminate].
    injection H as <- <-. eauto.
  - destruct (geometry_cons_inv _ _ _ Hg) as (n2 & r2 & -> & Hb & Hl & Ht).
    simpl in *. rewrite Hb, Hl.
    destruct (wadd b len <? span_base n1).
    { destruct (get2_some p2) as (s2 & p2' & ->).
      destruct (get1 p1) as [[s1|] q1]; [|discriminate].
      injection H as <- <-. do 2 eexists. split; [reflexivity|].
      unfold geometry in *. simpl. congruence. }
    destruct (wadd b len =? span_base n1).
    { injection H as <- <-. do 2 eexists. split; [reflexivity|].
      unfold geometry in *. simpl. congruence. }
    destruct (b <? wadd (span_base n1) (span_length n1)).
    { injection H as <- <-. do 2 eexists. split; [reflexivity|].
      unfold geometry in *. simpl. congruence. }
    destruct (b =? wadd (span_base n1) (span_length n1)).
    { destruct r1 as [|m1 r1'].
      - destruct r2; [|discriminate].
        injection H as <- <-. do 2 eexists. split; [reflexivity|].
        unfold geometry in *. simpl. congruence.
      - destruct (geometry_cons_inv _ _ _ Ht)
          as (m2 & r2' & -> & Hmb & Hml & Hmt).
        rewrite Hmb, Hml.
        destruct (span_base m1 <? wadd b len).
        { injection H as <- <-. do 2 eexists. split; [reflexivity|].
          unfold geometry in *. simpl. congruence. }
        destruct (wadd b len =? span_base m1);
          injection H as <- <-; do 2 eexists; (split; [reflexivity|]);
          unfold geometry in *; simpl; congruence. }
    destruct (free_scan_of get1 release1 p1 r1 b len)
      as [[l0 q0]|] eqn:Hr; simpl in H; [|discriminate].
    injection H as <- <-.
    destruct (IH r2 p1 p2 _ _ Ht Hr) as (l2' & p2' & -> & Hg').
    simpl. do 2 eexists. split; [reflexivity|].
    unfold geometry in *. simpl. congruence.
Qed.

Lemma allocate_of_same_spans r1 r2 len flags hint a r1' :
  same_spans r1 r2 ->
  allocate_of get1 release1 r1 len flags hint = Done (a, r1') ->
  exists r2',
    allocate_of get2 release2 r2 len flags hint = Done (a, r2')
    /\ same_spans r1' r2'.
Proof.
  intros (Hb & Hl & Hg & Hs) H.
  unfold allocate_of in *. rewrite <- Hg, <- Hl.
  destruct (granularity_of r1 =? 0); [discriminate|].
  destruct (_ =? 0).
  { injection H as <- <-. eexists. split; [reflexivity|].
    repeat split; auto. }
  destruct (_ <? _).
  { injection H as <- <-. eexists. split; [reflexivity|].
    repeat split; auto. }
  destruct (allocate_scan_of get1 _ _ _ _ _ _) as [[[a0 l0] q0]|] eqn:Hr;
    simpl in H; [|discriminate].
  injection H as <- <-.
  destruct (allocate_scan_of_geometry _ _ _ _ _ _ (spans_of r2) _ _ _ Hs Hr)
    as (l2' & p2' & -> & Hg').
  simpl. eexists. split; [reflexivity|]. repeat split; simpl; auto.
Qed.

Lemma free_of_same_spans r1 r2 b len r1' :
  same_spans r1 r2 ->
  free_of get1 release1 r1 b len = Done r1' ->
  exists r2', free_of get2 release2 r2 b len = Done r2' /\ same_spans r1' r2'.
Proof.
  intros (Hb & Hl & Hg & Hs) H.
  unfold free_of in *. rewrite <- Hg, <- Hl, <- Hb.
  destruct (granularity_of r1 =? 0); [discriminate|].
  destruct (_ =? 0).
  { injection H as <-. eexists. split; [reflexivity|].
    repeat split; auto. }
  destruct (_ || _).
  { injection H as <-. eexists. split; [reflexivity|].
    repeat split; auto. }
  destruct (_ <? _).
  { injection H as <-. eexists. split; [reflexivity|].
    repeat split; auto. }
  destruct (free_scan_of get1 _ _ _ _ _) as [[l0 q0]|] eqn:Hr;
    simpl in H; [|discriminate].
  injection H as <-.
  destruct (free_scan_of_geometry _ _ _ _ _ (spans_of r2) _ _ Hs Hr)
    as (l2' & p2' & -> & Hg').
  simpl. eexists. split; [reflexivity|]. repeat split; simpl; auto.
Qed.

Lemma step_of_same_spans r1 r2 c r1' :
  same_spans r1 r2 ->
  step_of get1 release1 r1 c = Done r1' ->
  exists r2', step_of get2 release2 r2 c = Done r2' /\ same_spans r1' r2'.
Proof.
  intros Hs H. destruct c as [len flags hint|b len]; simpl in *.
  - destruct (allocate_of get1 _ _ _ _ _) as [[a q]|] eqn:E;
      simpl in H; [|discriminate].
    injection H as <-.
    destruct (allocate_of_same_spans _ _ _ _ _ _ _ Hs E) as (r2' & -> & Hs').
    simpl. eauto.
  - eapply free_of_same_spans; eauto.
Qed.

Lemma run_calls_of_same_spans :
  forall cs r1 r2 r1',
  same_spans r1 r2 ->
  run_calls_of get1 release1 r1 cs = Done r1' ->
  exists r2',
    run_calls_of get2 release2 r2 cs = Done r2' /\ same_spans r1' r2'.
Proof.
  induction cs as [|c cs IH]; intros r1 r2 r1' Hs H; simpl in *.
  - injection H as <-. eauto.
  - destruct (step_of get1 _ _ _) as [q|] eqn:E; simpl in H; [|discriminate].
    destruct (step_of_same_spans _ _ _ _ Hs E) as (q2 & -> & Hs').
    simpl. eauto.
Qed.

(** The second store never fails a call. *)
Lemma allocate_scan_of_returns len flags hint :
  forall l p, exists r,
    allocate_scan_of get2 release2 p l len flags hint = Done r.
Proof.
  induction l as [|curr tail IH]; intros p; simpl; [eauto|].
  destruct (check_span curr len flags hint).
  - unfold split_span_of, trunc_span_low_of, trunc_span_high_of,
      trunc_span_middle_of.
    destruct (get2_some p) as (s & p' & ->).
    destruct flags; cmp; simpl; eauto.
  - destruct (IH p) as ([[a l0] p0] & ->). simpl. eauto.
Qed.

Lemma free_scan_of_returns b len :
  forall l p, exists r, free_scan_of get2 release2 p l b len = Done r.
Proof.
  induction l as [|next rest IH]; intros p; simpl.
  - destruct (get2_some p) as (s & p' & ->). eauto.
  - destruct (get2_some p) as (s & p' & ->).
    destruct (IH p) as ([l0 p0] & ->).
    destruct rest; cmp; simpl; eauto.
Qed.

Lemma step_of_returns r c :
  granularity_of r <> 0 ->
  exists r',
    step_of get2 release2 r c = Done r'
    /\ granularity_of r' = granularity_of r.
Proof.
  intros Hg. destruct c as [len flags hint|b len]; simpl.
  - unfold allocate_of.
    destruct (Z.eqb_spec (granularity_of r) 0); [contradiction|].
    destruct (_ =? 0); [simpl; eauto|]. destruct (_ <? _); [simpl; eauto|].
    destruct (allocate_scan_of_returns
                (round_up (granularity_of r) len) flags hint
                (free_mem_root_of r) (spans_of r)) as ([[a l0] p0] & ->).
    simpl. eauto.
  - unfold free_of.
    destruct (Z.eqb_spec (granularity_of r) 0); [contradiction|].
    destruct (_ =? 0); [eauto|]. destruct (_ || _); [eauto|].
    destruct (_ <? _); [eauto|].
    destruct (free_scan_of_returns
                (round_down (granularity_of r) b)
                (round_up (granularity_of r) len)
                (free_mem_root_of r) (spans_of r)) as ([l0 p0] & ->).
    simpl. eauto.
Qed.

Lemma run_calls_of_returns :
  forall cs r,
  granularity_of r <> 0 ->
  exists r', run_calls_of get2 release2 r cs = Done r'.
Proof.
  induction cs as [|c cs IH]; intros r Hg; simpl; [eauto|].
  destruct (step_of_returns r c Hg) as (r1 & -> & G). simpl.
  apply IH. congruence.
Qed.

End TwoStores.

(** ** The allocator over [span_manager_allocate] *)

Lemma dynamic_get_some d : exists s d', dynamic_get d = (Some s, d').
Proof.
  unfold dynamic_get. destruct (dynamic_available_spans d); eauto.
Qed.

Lemma allocate_crash ra len flags hint :
  allocate ra len flags hint = Crash ->
  _granularity ra = 0 \/ _available_spans (_spans ra) = [].
Proof.
  unfold allocate. intros H.
  destruct (Z.eqb_spec (_granularity ra) 0); [auto|].
  destruct (_ =? 0); [discriminate|]. destruct (_ <? _); [discriminate|].
  destruct (allocate_scan _ _ _ _ _) as [[[a l] p]|] eqn:Hr;
    [discriminate|].
  right. now apply allocate_scan_crash in Hr.
Qed.

Lemma free_crash ra b len :
  free ra b len = Crash ->
  _granularity ra = 0 \/ _available_spans (_spans ra) = [].
Proof.
  unfold free. intros H.
  destruct (Z.eqb_spec (_granularity ra) 0); [auto|].
  destruct (_ =? 0); [discriminate|]. destruct (_ || _); [discriminate|].
  destruct (_ <? _); [discriminate|].
  destruct (free_scan _ _ _ _) as [[l p]|] eqn:Hr; [discriminate|].
  right. now apply free_scan_crash in Hr.
Qed.

Lemma with_pool_same_spans {S : Type} (rd : range_allocator_of S) p :
  same_spans (of_pool (with_pool rd p)) rd.
Proof. repeat split. Qed.

Lemma spans_inv_geometry :
  forall l1 l2 lo hi,
  geometry l1 = geometry l2 -> spans_inv lo l1 hi -> spans_inv lo l2 hi.
Proof.
  induction l1 as [|s1 l1 IH]; intros [|s2 l2] lo hi G H; simpl in *;
    try discriminate; auto.
  injection G as Gb Gl Gt. unfold span_end in *.
  rewrite <- Gb, <- Gl. intuition eauto.
Qed.

Lemma wf_same_spans {S : Type} ra (rd : range_allocator_of S) p :
  wf ra -> same_spans (of_pool ra) rd -> wf (with_pool rd p).
Proof.
  intros [Hg Hb Hl He Hs] (B & L & G & Sp). simpl in *.
  constructor; simpl; rewrite <- ?B, <- ?L, <- ?G; auto.
  eapply spans_inv_geometry; eauto.
Qed.

(** A call on the allocator over [span_manager_allocate] is the same call
    on the allocator over a pool that has a record left. *)
Lemma dynamic_allocate_is_pool_allocate rd len flags hint a rd' n s :
  allocate_of dynamic_get dynamic_release rd len flags hint = Done (a, rd') ->
  exists ra',
    allocate (with_pool rd (mk_pool n [s])) len flags hint = Done (a, ra')
    /\ same_spans (of_pool ra') rd'.
Proof.
  intros H.
  destruct (allocate (with_pool rd (mk_pool n [s])) len flags hint)
    as [[a' ra']|] eqn:E.
  - pose proof (allocate_of_pool (with_pool rd (mk_pool n [s]))
                  len flags hint) as Hp.
    rewrite E in Hp. simpl in Hp.
    destruct (allocate_of_same_spans _ _ _ _ dynamic_get dynamic_release
                dynamic_get_some _ rd _ _ _ _ _
                (with_pool_same_spans rd _) Hp) as (r2 & H2 & Hs).
    rewrite H in H2. injection H2 as -> ->. eauto.
  - apply allocate_crash in E. destruct E as [E|E]; [|discriminate].
    simpl in E. unfold allocate_of in H. rewrite E in H. discriminate.
Qed.

Lemma dynamic_free_is_pool_free rd b len rd' n s :
  free_of dynamic_get dynamic_release rd b len = Done rd' ->
  exists ra',
    free (with_pool rd (mk_pool n [s])) b len = Done ra'
    /\ same_spans (of_pool ra') rd'.
Proof.
  intros H.
  destruct (free (with_pool rd (mk_pool n [s])) b len) as [ra'|] eqn:E.
  - pose proof (free_of_pool (with_pool rd (mk_pool n [s])) b len) as Hp.
    rewrite E in Hp. simpl in Hp.
    destruct (free_of_same_spans _ _ _ _ dynamic_get dynamic_release
                dynamic_get_some _ rd _ _ _
                (with_pool_same_spans rd _) Hp) as (r2 & H2 & Hs).
    rewrite H in H2. injection H2 as ->. eauto.
  - apply free_crash in E. destruct E as [E|E]; [|discriminate].
    simpl in E. unfold free_of in H. rewrite E in H. discriminate.
Qed.

Lemma dynamic_step_wf (rd rd' : dynamic_allocator) c p :
  wf (with_pool rd p) -> call_fits (granularity_of rd) c ->
  step_of dynamic_get dynamic_release rd c = Done rd' ->
  wf (with_pool rd' p) /\ granularity_of rd' = granularity_of rd.
Proof.
  intros W Hc H.
  assert (W1 : wf (with_pool rd (mk_pool 1 [0%nat]))).
  { destruct W. constructor; auto. }
  destruct c as [len flags hint|b len]; simpl in *.
  - destruct (allocate_of _ _ _ _ _ _) as [[a q]|] eqn:E;
      simpl in H; [|discriminate].
    injection H as <-.
    destruct (dynamic_allocate_is_pool_allocate _ _ _ _ _ _ 1 0%nat E)
      as (ra' & Ha & Hs).
    destruct Hc as (_ & Hh & Hfit).
    destruct (allocate_wf _ _ _ _ _ _ W1 Hh Hfit Ha) as (W' & _).
    split; [eapply wf_same_spans; eauto|].
    destruct (allocate_frame _ _ _ _ _ _ Ha) as (_ & _ & G & _).
    destruct Hs as (_ & _ & G' & _). simpl in *. congruence.
  - destruct (dynamic_free_is_pool_free _ _ _ _ 1 0%nat H)
      as (ra' & Ha & Hs).
    destruct Hc as (Hb & _ & Hfit).
    destruct (free_wf _ _ _ _ W1 Hb Hfit Ha) as (W' & _).
    split; [eapply wf_same_spans; eauto|].
    destruct (free_frame _ _ _ _ Ha) as (_ & _ & G & _).
    destruct Hs as (_ & _ & G' & _). simpl in *. congruence.
Qed.

Lemma dynamic_run_calls_wf :
  forall cs (rd rd' : dynamic_allocator) p,
  wf (with_pool rd p) -> Forall (call_fits (granularity_of rd)) cs ->
  run_calls_of dynamic_get dynamic_release rd cs = Done rd' ->
  wf (with_pool rd' p).
Proof.
  induction cs as [|c cs IH]; intros rd rd' p W Hf H; simpl in H.
  - now injection H as <-.
  - inversion Hf as [|? ? Hc Hcs]; subst.
    destruct (step_of _ _ _ _) as [r1|] eqn:E; simpl in H; [|discriminate].
    destruct (dynamic_step_wf _ _ _ _ W Hc E) as (W1 & G).
    eapply IH; eauto. now rewrite G.
Qed.

Lemma dynamic_create base length g :
  base <> 0 -> length <> 0 -> g <> 0 -> g <= length ->
  create_range_allocator_of span_manager_allocate_new dynamic_get
    base length g
  = Done (Some (mk_range_allocator_of base (wmul (length / g) g) g
                  [mk_span 0 base (wmul (length / g) g)]
                  (mk_dynamic [] 1))).
Proof.
  intros Hb Hl Hg Hle.
  unfold create_range_allocator_of, range_allocator_new_of.
  destruct (Z.eqb_spec base 0); [lia|].
  destruct (Z.eqb_spec length 0); [lia|].
  destruct (Z.eqb_spec g 0); [lia|].
  destruct (Z.ltb_spec length g); [lia|].
  reflexivity.
Qed.

Lemma dynamic_create_inv base length g rd :
  create_range_allocator_of span_manager_allocate_new dynamic_get
    base length g = Done (Some rd) ->
  base <> 0 /\ length <> 0 /\ g <> 0 /\ g <= length
  /\ rd = mk_range_allocator_of base (wmul (length / g) g) g
            [mk_span 0 base (wmul (length / g) g)] (mk_dynamic [] 1).
Proof.
  intros H. assert (Hc := H). unfold create_range_allocator_of in Hc.
  destruct (Z.eqb_spec base 0); [discriminate|].
  destruct (Z.eqb_spec length 0); [discriminate|].
  destruct (Z.eqb_spec g 0); [discriminate|].
  destruct (Z.ltb_spec length g); [discriminate|].
  rewrite dynamic_create in H by lia. injection H as <-.
  repeat split; auto.
Qed.

Lemma dynamic_create_wf base length g rd p :
  is_word base -> is_word length -> is_word g ->
  base + length / g * g < modulus ->
  create_range_allocator_of span_manager_allocate_new dynamic_get
    base length g = Done (Some rd) ->
  wf (with_pool rd p) /\ granularity_of rd = g /\ base_of rd = base
  /\ length_of rd = length / g * g.
Proof.
  intros [Hb0 Hb1] [Hl0 Hl1] [Hg0 Hg1] Hend H.
  apply dynamic_create_inv in H. destruct H as (Hb & Hl & Hg & Hle & ->).
  assert (Hgp : 0 < g) by lia.
  pose proof (floor_multiple g length Hgp Hl0) as F.
  assert (0 < length / g * g) by lia.
  rewrite wmul_small by lia.
  split; [|simpl; auto].
  constructor; simpl; unfold span_end; simpl; try lia.
Qed.

Section OneStore.

Variable S0 : Type.
Variable get0 : S0 -> option nat * S0.
Variable release0 : S0 -> nat -> S0.

Lemma store_trace_cons p l p' l' c c' :
  span_slot c' = span_slot c ->
  store_trace get0 release0 p l p' l' -> store_trace get0 release0 p (c :: l) p' (c' :: l').
Proof.
  intros E [(-> & M)|[(s & -> & M)|(s & G & M)]]; unfold store_trace; simpl.
  - left. split; auto. congruence.
  - right; left. exists s. split; auto. rewrite E.
    eapply perm_trans; [apply perm_swap|now apply perm_skip].
  - right; right. exists s. split; auto. rewrite E.
    eapply perm_trans; [apply perm_skip; exact M|apply perm_swap].
Qed.

Lemma allocate_scan_of_trace len flags hint :
  forall l p a l' p',
  allocate_scan_of get0 release0 p l len flags hint = Done (a, l', p') ->
  store_trace get0 release0 p l p' l'.
Proof.
  induction l as [|curr tail IH]; intros p a l' p' H; simpl in H.
  - injection H as <- <- <-. left. auto.
  - destruct (check_span curr len flags hint).
    + unfold split_span_of, trunc_span_low_of, trunc_span_high_of,
        trunc_span_middle_of in H.
      destruct flags; cmp; simpl in H;
        try (destruct (get0 p) as [[s|] q] eqn:G; simpl in H);
        try discriminate; injection H as <- <- <-;
        try (left; split; reflexivity);
        try (right; left; exists (span_slot curr); split;
             [reflexivity|apply Permutation_refl]).
      right; right. exists s. split; [exact G|]. simpl. apply perm_swap.
    + destruct (allocate_scan_of _ _ p tail len flags hint)
        as [[[a0 l0] p0]|] eqn:Hr; simpl in H; [|discriminate].
      injection H as <- <- <-.
      apply store_trace_cons; eauto.
Qed.

Lemma free_scan_of_trace b len :
  forall l p l' p',
  free_scan_of get0 release0 p l b len = Done (l', p') ->
  store_trace get0 release0 p l p' l'.
Proof.
  induction l as [|next rest IH]; intros p l' p' H; simpl in H.
  - destruct (get0 p) as [[s|] q] eqn:G; simpl in H; [|discriminate].
    injection H as <- <-. right; right. exists s. split; auto.
  - destruct (wadd b len <? span_base next).
    { destruct (get0 p) as [[s|] q] eqn:G; simpl in H; [|discriminate].
      injection H as <- <-. right; right. exists s. split; auto. }
    destruct (wadd b len =? span_base next).
    { injection H as <- <-. left. auto. }
    destruct (b <? wadd (span_base next) (span_length next)).
    { injection H as <- <-. left. auto. }
    destruct (b =? wadd (span_base next) (span_length next)).
    { destruct rest as [|nn rest'].
      { injection H as <- <-. left. auto. }
      destruct (span_base nn <? wadd b len).
      { injection H as <- <-. left. auto. }
      destruct (wadd b len =? span_base nn); injection H as <- <-.
      - right; left. exists (span_slot nn). split; auto.
        simpl. apply perm_swap.
      - left. auto. }
    destruct (free_scan_of _ _ p rest b len) as [[l0 p0]|] eqn:Hr;
      simpl in H; [|discriminate].
    injection H as <- <-. apply store_trace_cons; eauto.
Qed.

Lemma step_of_frame r c r' :
  step_of get0 release0 r c = Done r' ->
  base_of r' = base_of r /\ length_of r' = length_of r
  /\ granularity_of r' = granularity_of r
  /\ store_trace get0 release0 (spans_of r) (free_mem_root_of r)
       (spans_of r') (free_mem_root_of r').
Proof.
  intros H. destruct c as [len flags hint|b len]; simpl in H.
  - unfold allocate_of in H.
    destruct (granularity_of r =? 0); [discriminate|].
    destruct (_ =? 0).
    { injection H as <-. repeat split. left. auto. }
    destruct (_ <? _).
    { injection H as <-. repeat split. left. auto. }
    destruct (allocate_scan_of _ _ _ _ _ _ _) as [[[a l] p]|] eqn:Hr;
      simpl in H; [|discriminate].
    injection H as <-. simpl. repeat split.
    eapply allocate_scan_of_trace; eauto.
  - unfold free_of in H.
    destruct (granularity_of r =? 0); [discriminate|].
    destruct (_ =? 0).
    { injection H as <-. repeat split. left. auto. }
    destruct (_ || _).
    { injection H as <-. repeat split. left. auto. }
    destruct (_ <? _).
    { injection H as <-. repeat split. left. auto. }
    destruct (free_scan_of _ _ _ _ _ _) as [[l p]|] eqn:Hr;
      simpl in H; [|discriminate].
    injection H as <-. simpl. repeat split.
    eapply free_scan_of_trace; eauto.
Qed.

Lemma run_calls_of_frame :
  forall cs r r',
  run_calls_of get0 release0 r cs = Done r' ->
  base_of r' = base_of r /\ length_of r' = length_of r
  /\ granularity_of r' = granularity_of r.
Proof.
  induction cs as [|c cs IH]; intros r r' H; simpl in H.
  - injection H as <-. auto.
  - destruct (step_of _ _ _ _) as [r1|] eqn:E; simpl in H; [|discriminate].
    destruct (step_of_frame _ _ _ E) as (B & L & G & _).
    destruct (IH _ _ H) as (B' & L' & G').
    repeat split; congruence.
Qed.

End OneStore.

Lemma dynamic_trace_records d l d' l' :
  store_trace dynamic_get dynamic_release d l d' l' ->
  Permutation (map span_slot l ++ dynamic_available_spans d)
              (seq 0 (dynamic_made d)) ->
  Permutation (map span_slot l' ++ dynamic_available_spans d')
              (seq 0 (dynamic_made d'))
  /\ (dynamic_made d <= dynamic_made d' <= S (dynamic_made d))%nat.
Proof.
  intros [(-> & M)|[(s & -> & M)|(s & G & M)]] P.
  - rewrite M. split; [auto|lia].
  - simpl. split; [|lia].
    eapply perm_trans; [|exact P].
    eapply perm_trans; [apply Permutation_sym, Permutation_middle|].
    change (Permutation ((s :: map span_slot l')
                           ++ dynamic_available_spans d)
                        (map span_slot l ++ dynamic_available_spans d)).
    now apply Permutation_app_tail.
  - unfold dynamic_get in G.
    destruct (dynamic_available_spans d) as [|s0 rest] eqn:Hch;
      injection G as <- <-; cbn [dynamic_made dynamic_available_spans].
    + split; [|lia]. rewrite app_nil_r in *. rewrite seq_S.
      cbn [Nat.add].
      eapply perm_trans; [exact M|].
      eapply perm_trans; [apply perm_skip; exact P|].
      apply Permutation_cons_append.
    + split; [|lia]. eapply perm_trans; [|exact P].
      eapply perm_trans; [|apply Permutation_middle].
      change (Permutation (map span_slot l' ++ rest)
                          ((s0 :: map span_slot l) ++ rest)).
      now apply Permutation_app_tail.
Qed.

Lemma dynamic_run_calls_records :
  forall cs (rd rd' : dynamic_allocator),
  run_calls_of dynamic_get dynamic_release rd cs = Done rd' ->
  Permutation (dynamic_records rd) (seq 0 (dynamic_made (spans_of rd))) ->
  Permutation (dynamic_records rd') (seq 0 (dynamic_made (spans_of rd')))
  /\ (dynamic_made (spans_of rd') 
      <= dynamic_made (spans_of rd) + List.length cs)%nat.
Proof.
  induction cs as [|c cs IH]; intros rd rd' H P; simpl in H.
  - injection H as <-. split; [auto|lia].
  - destruct (step_of _ _ _ _) as [r1|] eqn:E; simpl in H; [|discriminate].
    destruct (step_of_frame _ _ _ _ _ _ E) as (_ & _ & _ & T).
    destruct (dynamic_trace_records _ _ _ _ T P) as (P1 & M1).
    destruct (IH _ _ H P1) as (P' & M'). split; [auto|]. simpl. lia.
Qed.

Lemma release_spans_of_dynamic :
  forall l d,
  dynamic_available_spans (release_spans_of dynamic_release d l)
  = rev (map span_slot l) ++ dynamic_available_spans d
  /\ dynamic_made (release_spans_of dynamic_release d l) = dynamic_made d.
Proof.
  induction l as [|s r IH]; intros d; simpl; [auto|].
  destruct (IH (dynamic_release d (span_slot s))) as (-> & ->).
  simpl. rewrite <- app_assoc. auto.
Qed.

Lemma create_range_allocator_inv base length g ra0 :
  create_range_allocator base length g = Done (Some ra0) ->
  base <> 0 /\ length <> 0 /\ g <> 0 /\ g <= length
  /\ _base ra0 = base /\ _length ra0 = wmul (length / g) g
  /\ _granularity ra0 = g
  /\ geometry (_free_mem_root ra0) = [(base, wmul (length / g) g)].
Proof.
  intros H. unfold create_range_allocator, range_allocator_new in H.
  destruct (Z.eqb_spec base 0); [discriminate|].
  destruct (Z.eqb_spec length 0); [discriminate|].
  destruct (Z.eqb_spec g 0); [discriminate|].
  destruct (Z.ltb_spec length g); [discriminate|].
  destruct (span_manager_pool_new _) as [p|]; simpl in H; [|discriminate].
  destruct (add_span p) as [[s|] p']; simpl in H; [|discriminate].
  injection H as <-. simpl. repeat split; auto; lia.
Qed.

(** X20.  The free list and the addresses do not depend on the store of
    the records: whenever the allocator over the pool is created, handles
    a sequence of calls and then returns an address for an allocation,
    the allocator over [span_manager_allocate] is created from the same
    arguments, handles the same calls, returns the same address, and is
    left with the same free spans. *)
Theorem stores_agree base length g cs ra0 ra len flags hint a ra' :
  create_range_allocator base length g = Done (Some ra0) ->
  run_calls ra0 cs = Done ra ->
  allocate ra len flags hint = Done (a, ra') ->
  exists rd0 rd rd',
    create_range_allocator_of span_manager_allocate_new dynamic_get
      base length g = Done (Some rd0)
    /\ run_calls_of dynamic_get dynamic_release rd0 cs = Done rd
    /\ allocate_of dynamic_get dynamic_release rd len flags hint
       = Done (a, rd')
    /\ geometry (free_mem_root_of rd) = geometry (_free_mem_root ra)
    /\ geometry (free_mem_root_of rd') = geometry (_free_mem_root ra').
Proof.
  intros Hc Hr Ha.
  destruct (create_range_allocator_inv _ _ _ _ Hc)
    as (Hb & Hl & Hg & Hle & B & L & G & Sp).
  eexists. rewrite dynamic_create by auto.
  assert (S0 : same_spans (of_pool ra0)
                 (mk_range_allocator_of base (wmul (length / g) g) g
                    [mk_span 0 base (wmul (length / g) g)]
                    (mk_dynamic [] 1))).
  { repeat split; simpl; auto. }
  pose proof (run_calls_of_pool cs ra0) as Hp. rewrite Hr in Hp.
  simpl in Hp.
  destruct (run_calls_of_same_spans _ _ _ _ dynamic_get dynamic_release
              dynamic_get_some _ _ _ _ S0 Hp) as (rd & Hrd & S1).
  pose proof (allocate_of_pool ra len flags hint) as Hq. rewrite Ha in Hq.
  simpl in Hq.
  destruct (allocate_of_same_spans _ _ _ _ dynamic_get dynamic_release
              dynamic_get_some _ _ _ _ _ _ _ S1 Hq) as (rd' & Hrd' & S2).
  exists rd, rd'. split; [reflexivity|]. split; [exact Hrd|].
  split; [exact Hrd'|].
  destruct S1 as (_ & _ & _ & E1). destruct S2 as (_ & _ & _ & E2).
  simpl in *. split; congruence.
Qed.

(** X21.  The allocator over [span_manager_allocate] does not run out of
    records: creation returns for all arguments, with an allocator for
    all that pass the four tests (one granule, or an odd number of
    granules, too), and the allocator handles every sequence of calls. *)
Theorem dynamic_store_never_runs_out base length g cs :
  exists r,
    create_range_allocator_of span_manager_allocate_new dynamic_get
      base length g = Done r
    /\ (r = None <-> base = 0 \/ length = 0 \/ g = 0 \/ length < g)
    /\ forall rd0, r = Some rd0 ->
       exists rd, run_calls_of dynamic_get dynamic_release rd0 cs = Done rd.
Proof.
  destruct (Z.eq_dec base 0) as [Hb|Hb];
    [|destruct (Z.eq_dec length 0) as [Hl|Hl];
      [|destruct (Z.eq_dec g 0) as [Hg|Hg];
        [|destruct (Z_lt_le_dec length g) as [Hle|Hle]]]].
  5: { eexists. split; [apply dynamic_create; auto|].
       split; [split; [discriminate|lia]|].
       intros rd0 E. injection E as <-.
       apply (run_calls_of_returns _ dynamic_get dynamic_release
                dynamic_get_some). simpl. auto. }
  all: exists None; unfold create_range_allocator_of.
  all: repeat match goal with
       | |- context [?x =? 0] =>
           destruct (Z.eqb_spec x 0); try lia
       | |- context [?x <? ?y] =>
           destruct (Z.ltb_spec x y); try lia
       end.
  all: split; [reflexivity|]; split; [tauto|discriminate].
Qed.

(** X22.  Over [span_manager_allocate], calls whose arithmetic does not
    wrap around are all handled, for every size of the range, and leave
    the free list ascending, without two adjacent spans, without overlap
    and inside the range. *)
Theorem dynamic_free_list_invariants base length g cs rd0 :
  is_word base -> is_word length -> is_word g ->
  base + length / g * g < modulus ->
  create_range_allocator_of span_manager_allocate_new dynamic_get
    base length g = Done (Some rd0) ->
  Forall (call_fits g) cs ->
  exists rd,
    run_calls_of dynamic_get dynamic_release rd0 cs = Done rd
    /\ ascending (free_mem_root_of rd) /\ not_adjacent (free_mem_root_of rd)
    /\ no_overlap (free_mem_root_of rd)
    /\ contained base (base + length / g * g) (free_mem_root_of rd).
Proof.
  intros Hb Hl Hg He Hc Hf.
  destruct (dynamic_create_wf _ _ _ _ (mk_pool 1 [0%nat]) Hb Hl Hg He Hc)
    as (W0 & G0 & B0 & L0).
  assert (Hg0 : granularity_of rd0 <> 0).
  { destruct W0 as [Hgp _ _ _ _]. simpl in Hgp. lia. }
  destruct (run_calls_of_returns _ dynamic_get dynamic_release
              dynamic_get_some cs rd0 Hg0) as (rd & Hr).
  exists rd. split; [exact Hr|].
  rewrite <- G0 in Hf.
  pose proof (dynamic_run_calls_wf cs rd0 rd _ W0 Hf Hr) as W.
  destruct (run_calls_of_frame _ _ _ _ _ _ Hr) as (B & L & _).
  apply wf_free_list in W. simpl in W.
  rewrite <- B0, <- L0, <- B, <- L. exact W.
Qed.

(** X23.  Over [span_manager_allocate] no record is lost and none is
    held twice: after any sequence of calls the records made with [new]
    are, each once, linked in the free list or waiting in the chain; at
    most one record is made per call; and the two destructors delete
    every record made, each once. *)
Theorem dynamic_store_deletes_every_record base length g cs rd0 rd :
  create_range_allocator_of span_manager_allocate_new dynamic_get
    base length g = Done (Some rd0) ->
  run_calls_of dynamic_get dynamic_release rd0 cs = Done rd ->
  let made := dynamic_made (spans_of rd) in
  Permutation (dynamic_records rd) (seq 0 made)
  /\ (made <= 1 + List.length cs)%nat
  /\ Permutation
       (span_manager_allocate_delete
          (range_allocator_delete_of dynamic_release rd))
       (seq 0 made).
Proof.
  intros Hc Hr made. subst made.
  apply dynamic_create_inv in Hc. destruct Hc as (_ & _ & _ & _ & ->).
  destruct (dynamic_run_calls_records cs _ _ Hr) as (P & M).
  { apply Permutation_refl. }
  simpl in M. split; [exact P|]. split; [lia|].
  unfold span_manager_allocate_delete, range_allocator_delete_of.
  destruct (release_spans_of_dynamic (free_mem_root_of rd) (spans_of rd))
    as (-> & _).
  eapply perm_trans; [|exact P]. unfold dynamic_records.
  apply Permutation_app_tail. apply Permutation_sym, Permutation_rev.
Qed.

End Machine.

(** ** The 64-bit instance: examples on the allocator of the test driver *)

Lemma fresh_4096_created :
  create_range_allocator 64 4096 4096 64 = Done (Some fresh_4096).
Proof. reflexivity. Qed.

Lemma fresh_4096_wf : wf 64 fresh_4096.
Proof.
  constructor; simpl; unfold modulus, span_end; simpl; lia.
Defined.

Lemma hole_at_6144_wf : wf 64 hole_at_6144.
Proof.
  constructor; simpl; unfold modulus, span_end; simpl; lia.
Defined.

(** *** The scenarios of the test driver *)

(** The whole range is allocated at its base, and nothing is left. *)
Example scenario_whole_range :
  exists ra1 ra2,
    allocate 64 fresh_4096 4096 ALLOCATE_ANY 0 = Done (4096, ra1)
    /\ _free_mem_root ra1 = []
    /\ allocate 64 ra1 64 ALLOCATE_ANY 0 = Done (invalid 64, ra2).
Proof.
  do 2 eexists. split; [vm_compute; reflexivity|].
  split; [reflexivity|]. vm_compute. reflexivity.
Qed.

(** After [free(0x1000, 4096)] the whole range is allocated again. *)
Example scenario_free_whole_range :
  exists ra1 ra2 ra3,
    allocate 64 fresh_4096 4096 ALLOCATE_ANY 0 = Done (4096, ra1)
    /\ free 64 ra1 4096 4096 = Done ra2
    /\ ra2 = fresh_4096
    /\ allocate 64 ra2 4096 ALLOCATE_ANY 0 = Done (4096, ra3).
Proof.
  do 3 eexists. split; [vm_compute; reflexivity|].
  split; [vm_compute; reflexivity|]. split; [reflexivity|].
  vm_compute. reflexivity.
Qed.

(** An EXACT allocation returns its hint once, and fails the second
    time; an EXACT request that overlaps it fails too. *)
Example scenario_exact :
  allocate 64 fresh_4096 64 ALLOCATE_EXACT 6144 = Done (6144, hole_at_6144)
  /\ allocate 64 hole_at_6144 64 ALLOCATE_EXACT 6144
     = Done (invalid 64, hole_at_6144)
  /\ allocate 64 hole_at_6144 256 ALLOCATE_EXACT (6144 - 128)
     = Done (invalid 64, hole_at_6144).
Proof. repeat split. Qed.

(** ABOVE and BELOW on the fresh allocator, hint in the middle. *)
Example scenario_above_below :
  exists ra1 ra2,
    allocate 64 fresh_4096 64 ALLOCATE_ABOVE 6144 = Done (8128, ra1)
    /\ allocate 64 fresh_4096 4096 ALLOCATE_ABOVE 6144
       = Done (invalid 64, fresh_4096)
    /\ allocate 64 fresh_4096 256 ALLOCATE_BELOW 6144 = Done (4096, ra2)
    /\ allocate 64 fresh_4096 4096 ALLOCATE_BELOW 6144
       = Done (invalid 64, fresh_4096).
Proof.
  do 2 eexists. split; [vm_compute; reflexivity|].
  split; [reflexivity|]. split; [vm_compute; reflexivity|]. reflexivity.
Qed.

(** The four configuration errors. *)
Example scenario_create_fails :
  create_range_allocator 64 0 4096 64 = Done None
  /\ create_range_allocator 64 4096 0 64 = Done None
  /\ create_range_allocator 64 4096 4096 0 = Done None
  /\ create_range_allocator 64 4096 4096 8192 = Done None.
Proof. repeat split. Qed.

(** *** Inputs on which the code leaves the specification *)

(** C1 (failing input). On the allocator of the test driver,
    [allocate(128, ALLOCATE_EXACT, 2^64 - 64)] passes [check_span] because
    [hint + length] wraps to 64, returns the hint, and leaves a free list
    that is not ascending, overlaps itself and leaves the range. *)
Theorem exact_hint_wrap_breaks_free_list :
  create_range_allocator 64 4096 4096 64 = Done (Some fresh_4096)
  /\ exists ra,
       allocate 64 fresh_4096 128 ALLOCATE_EXACT (2 ^ 64 - 64)
       = Done (2 ^ 64 - 64, ra)
       /\ _free_mem_root ra
          = [mk_span 0 4096 (2 ^ 64 - 4160); mk_span 1 64 8128]
       /\ ~ ascending (_free_mem_root ra)
       /\ ~ no_overlap (_free_mem_root ra)
       /\ ~ contained 4096 (4096 + 4096) (_free_mem_root ra).
Proof.
  split; [reflexivity|]. eexists. split; [vm_compute; reflexivity|].
  split; [reflexivity|]. simpl. repeat split.
  - unfold ascending. simpl. lia.
  - intros H. inversion H as [|? ? F _]; subst.
    inversion F as [|? ? D _]; subst.
    unfold disjoint, span_end in D. simpl in D. lia.
  - intros H. inversion H as [|? ? _ F]; subst.
    inversion F as [|? ? D _]; subst. simpl in D. lia.
Qed.

(** C2 (failing input). On a range that ends 64 below [2^64],
    [allocate(128, ALLOCATE_ABOVE, 2^64 - 128)] succeeds, because
    [hint + length] wraps to 0, and returns [2^64 - 192], an address below
    the hint. *)
Theorem above_hint_wrap_returns_below_hint :
  create_range_allocator 64 (2 ^ 64 - 4160) 4096 64 = Done (Some fresh_top)
  /\ exists a ra,
       allocate 64 fresh_top 128 ALLOCATE_ABOVE (2 ^ 64 - 128) = Done (a, ra)
       /\ a <> invalid 64
       /\ a = 2 ^ 64 - 192
       /\ a < 2 ^ 64 - 128.
Proof.
  split; [reflexivity|]. do 2 eexists.
  split; [vm_compute; reflexivity|].
  split; [vm_compute; discriminate|]. split; [reflexivity|]. reflexivity.
Qed.

(** C3 (failing input). For a range of three granules the pool has one
    record, not [ceil(3 / 2) = 2]; the constructor takes it, and
    [allocate(64, ALLOCATE_EXACT, 0x1040)], which splits the span around
    the middle granule, gets the null pointer from [get] and writes
    through it. *)
Theorem pool_of_three_granules_is_exhausted :
  create_range_allocator 64 4096 192 64 = Done (Some fresh_192)
  /\ _pool (_spans fresh_192) = 192 / 64 / 2
  /\ _pool (_spans fresh_192) < (192 / 64 + 1) / 2
  /\ get (_spans fresh_192) = (None, _spans fresh_192)
  /\ allocate 64 fresh_192 64 ALLOCATE_EXACT 4160 = Crash.
Proof. repeat split. Qed.

(** C5 (failing input). On the allocator of the test driver,
    [free(0x1000, 2^64 - 64)] asks for a range that is not inside
    [0x1000, 0x2000) and that overlaps the free span; [base + length]
    wraps to [0xFC0], the range tests pass and a span of [2^64 - 64]
    bytes is linked in front of the list. *)
Theorem free_length_wrap_is_not_ignored :
  round_down 64 64 4096 = 4096
  /\ round_up 64 64 (2 ^ 64 - 64) = 2 ^ 64 - 64
  /\ 4096 + 4096 < 4096 + (2 ^ 64 - 64)
  /\ ~ disjoint (mk_span 0 4096 4096) (mk_span 1 4096 (2 ^ 64 - 64))
  /\ exists ra,
       free 64 fresh_4096 4096 (2 ^ 64 - 64) = Done ra
       /\ _free_mem_root ra
          = [mk_span 1 4096 (2 ^ 64 - 64); mk_span 0 4096 4096]
       /\ _free_mem_root ra <> _free_mem_root fresh_4096.
Proof.
  split; [reflexivity|]. split; [reflexivity|]. split; [reflexivity|].
  split; [unfold disjoint, span_end; simpl; lia|].
  eexists. split; [vm_compute; reflexivity|]. split; [reflexivity|].
  discriminate.
Qed.

(** C7 (failing input). [create_range_allocator(0x1000, 64, 64)] passes
    the four tests of its arguments, and the constructor sizes the pool
    at [64 / 64 / 2 = 0] records and indexes the empty vector. *)
Theorem create_one_granule_crashes :
  4096 <> 0 /\ 64 <> 0 /\ 64 <= 64
  /\ span_manager_pool_new (64 / 64 / 2) = Crash
  /\ create_range_allocator 64 4096 64 64 = Crash.
Proof. repeat split; discriminate. Qed.

(** C4 (counterexample). The state of the test driver's fresh allocator
    is well formed and all its spans are on the grid;
    [allocate(64, ALLOCATE_EXACT, 0x100A)] succeeds and returns [0x100A];
    [free(0x100A, 64)] rounds the base down to [0x1000], finds the range
    overlapping the span [0x1000, 0x100A) and returns without a change:
    the free list is not the one before the allocate.  The same happens
    without a hint when the configured base is off the grid: on the range
    [0x1001, 0x2001), [allocate(64, ALLOCATE_ANY, 0)] returns [0x1001] and
    [free(0x1001, 64)] rounds the base down to [0x1000], below the range,
    and returns. *)
Lemma round_trip_fails_off_grid :
  (wf 64 fresh_4096
   /\ Forall (span_aligned 64) (_free_mem_root fresh_4096)
   /\ allocate 64 fresh_4096 64 ALLOCATE_EXACT 4106
      = Done (4106, hole_at_4106)
   /\ 4106 <> invalid 64
   /\ round_up 64 64 64 = 64
   /\ free 64 hole_at_4106 4106 64 = Done hole_at_4106
   /\ _free_mem_root hole_at_4106 <> _free_mem_root fresh_4096)
  /\ (exists ra ra',
        create_range_allocator 64 4097 4096 64 = Done (Some ra)
        /\ wf 64 ra
        /\ allocate 64 ra 64 ALLOCATE_ANY 0 = Done (4097, ra')
        /\ 4097 <> invalid 64
        /\ free 64 ra' 4097 64 = Done ra'
        /\ _free_mem_root ra = [mk_span 0 4097 4096]
        /\ _free_mem_root ra' = [mk_span 0 4161 4032]).
Proof.
  split.
  - split; [exact fresh_4096_wf|].
    split; [repeat constructor|].
    split; [reflexivity|]. split; [vm_compute; discriminate|].
    split; [reflexivity|]. split; [reflexivity|]. discriminate.
  - do 2 eexists. split; [vm_compute; reflexivity|].
    split; [constructor; simpl; unfold modulus, span_end; simpl; lia|].
    split; [vm_compute; reflexivity|].
    split; [vm_compute; discriminate|].
    split; [vm_compute; reflexivity|]. split; reflexivity.
Qed.

(** C6 (counterexample). Construction at base [0x1001] leaves a span
    whose base is not a multiple of 64, and on the fresh allocator of the
    test driver [allocate(64, ALLOCATE_EXACT, 0x100A)] leaves two spans
    whose lengths, 10 and 4022, are not multiples of 64. *)
Lemma spans_off_grid :
  (exists ra,
     create_range_allocator 64 4097 4096 64 = Done (Some ra)
     /\ _free_mem_root ra = [mk_span 0 4097 4096]
     /\ ~ Forall (span_aligned 64) (_free_mem_root ra))
  /\ (exists ra,
        step 64 fresh_4096 (Allocate 64 ALLOCATE_EXACT 4106) = Done ra
        /\ _free_mem_root ra = [mk_span 0 4096 10; mk_span 1 4170 4022]
        /\ ~ Forall (span_aligned 64) (_free_mem_root ra)).
Proof.
  split; eexists; (split; [vm_compute; reflexivity|]);
    (split; [reflexivity|]); intros H; inversion H as [|? ? A _]; subst;
    destruct A as (A1 & A2 & _); vm_compute in A1, A2; discriminate.
Qed.

(** *** Instances of the theorems above *)

(** C4: the hole at [0x1800] of the test driver is given back. *)
Lemma allocate_free_round_trip_witness :
  free 64 hole_at_6144 6144 (round_up 64 (_granularity fresh_4096) 64)
  = Done fresh_4096.
Proof.
  apply (allocate_free_round_trip 64 fresh_4096 64 ALLOCATE_EXACT 6144 6144
           hole_at_6144).
  - exact fresh_4096_wf.
  - unfold is_word, modulus. simpl. lia.
  - vm_compute. reflexivity.
  - reflexivity.
  - vm_compute. discriminate.
  - reflexivity.
Defined.

(** C6: [allocate(100, EXACT, 0x1800)], [free(0x1800, 128)],
    [allocate(64, EXACT, 0x1800)] on the fresh allocator. *)
Lemma spans_stay_on_grid_witness :
  (_free_mem_root fresh_4096 = [mk_span 0 4096 (4096 / 64 * 64)]
   /\ (4096 / 64 * 64) mod 64 = 0 /\ 0 < 4096 / 64 * 64)
  /\ Forall (span_aligned 64) (_free_mem_root hole_at_6144).
Proof.
  destruct (spans_stay_on_grid 64 4096 4096 64
              [Allocate 100 ALLOCATE_EXACT 6144; Free 6144 128;
               Allocate 64 ALLOCATE_EXACT 6144]
              fresh_4096 hole_at_6144) as [A B].
  - unfold is_word, modulus. simpl. lia.
  - unfold is_word, modulus. simpl. lia.
  - unfold is_word, modulus. simpl. lia.
  - reflexivity.
  - split; [exact A|]. apply B.
    + reflexivity.
    + unfold modulus. simpl. lia.
    + repeat constructor; unfold modulus; simpl; lia.
    + repeat constructor.
    + reflexivity.
Defined.

(** C8: a request of 4097 bytes, one more than the range holds, and a
    request of [2^64 - 1] bytes, whose rounding wraps to zero. *)
Lemma allocate_rounds_and_rejects_witness :
  allocate 64 fresh_4096 4097 ALLOCATE_ANY 0 = Done (invalid 64, fresh_4096)
  /\ round_up 64 64 (2 ^ 64 - 1) = 0.
Proof.
  split.
  - apply (allocate_rounds_and_rejects 64 fresh_4096 4097 ALLOCATE_ANY 0).
    + unfold is_word, modulus. simpl. lia.
    + discriminate.
    + unfold is_word, modulus. simpl. lia.
    + right. right. simpl. lia.
  - apply (allocate_rounds_and_rejects 64 fresh_4096 (2 ^ 64 - 1)
             ALLOCATE_ANY 0).
    + unfold is_word, modulus. simpl. lia.
    + discriminate.
    + unfold is_word, modulus. simpl. lia.
    + unfold modulus. simpl. lia.
Defined.

(** C9: the hole at [0x1800] is closed by a three-way merge. *)
Lemma free_three_way_merge_witness :
  free_scan 64 (_spans hole_at_6144)
            [mk_span 0 4096 2048; mk_span 1 6208 1984] 6144 64
  = Done ([mk_span 0 4096 4096], mk_pool 32 (seq 1 31))
  /\ free 64 hole_at_6144 6144 64 = Done fresh_4096.
Proof.
  destruct (free_three_way_merge 64 hole_at_6144 6144 64 []
              (mk_span 0 4096 2048) (mk_span 1 6208 1984) []) as [A B].
  split.
  - apply A.
    + simpl. lia.
    + reflexivity.
    + reflexivity.
  - apply B.
    + exact hole_at_6144_wf.
    + reflexivity.
    + reflexivity.
    + reflexivity.
Defined.

(** C10: [allocate(64, EXACT, 0x1800)] on the fresh allocator. *)
Lemma calls_keep_configuration_witness :
  _base hole_at_6144 = _base fresh_4096
  /\ _length hole_at_6144 = _length fresh_4096
  /\ _granularity hole_at_6144 = _granularity fresh_4096
  /\ _pool (_spans hole_at_6144) = _pool (_spans fresh_4096)
  /\ hole_at_6144
     = mk_range_allocator (_base fresh_4096) (_length fresh_4096)
         (_granularity fresh_4096) (_free_mem_root hole_at_6144)
         (mk_pool (_pool (_spans fresh_4096))
                  (_available_spans (_spans hole_at_6144))).
Proof.
  apply (calls_keep_configuration 64 fresh_4096
           (Allocate 64 ALLOCATE_EXACT 6144) hole_at_6144).
  reflexivity.
Defined.

(** *** Instances of the further properties *)

Arguments allocate_of w {S} _ _ _ _ _ _.
Arguments create_range_allocator_of w {S} _ _ _ _ _.
Arguments run_calls_of w {S} _ _ _ _.
Arguments mk_range_allocator_of {S} _ _ _ _ _.
Arguments free_mem_root_of {S} _.
Arguments spans_of {S} _.
Arguments range_allocator_delete_of {S} _ _.

Ltac word := unfold is_word, modulus; simpl; lia.

Lemma hole_calls_fit : Forall (call_fits 64 64) hole_calls.
Proof. repeat constructor; unfold modulus; simpl; lia. Defined.

Lemma hole_at_6144_valid_release :
  valid_release hole_at_6144
    (round_down 64 (_granularity hole_at_6144) 6144)
    (round_up 64 (_granularity hole_at_6144) 64).
Proof.
  change (round_down 64 (_granularity hole_at_6144) 6144) with 6144.
  change (round_up 64 (_granularity hole_at_6144) 64) with 64.
  unfold valid_release, free_at. simpl. unfold span_end. simpl.
  repeat split; try lia.
Defined.


(** X1 on the calls around the hole. *)
Lemma free_list_invariants_no_wrap_witness :
  ascending (_free_mem_root hole_at_6144)
  /\ not_adjacent (_free_mem_root hole_at_6144)
  /\ no_overlap (_free_mem_root hole_at_6144)
  /\ contained 4096 (4096 + 4096 / 64 * 64) (_free_mem_root hole_at_6144).
Proof.
  apply (free_list_invariants_no_wrap 64 4096 4096 64 hole_calls
           fresh_4096 hole_at_6144).
  - word.
  - word.
  - word.
  - unfold modulus. simpl. lia.
  - reflexivity.
  - exact hole_calls_fit.
  - reflexivity.
Defined.

(** X2 on [allocate(64, EXACT, 0x1800)]. *)
Lemma allocate_block_meets_policy_witness :
  exists s,
    In s (_free_mem_root fresh_4096)
    /\ fits s (round_up 64 (_granularity fresh_4096) 64)
            ALLOCATE_EXACT 6144 6144
    /\ placed s (round_up 64 (_granularity fresh_4096) 64)
              ALLOCATE_EXACT 6144.
Proof.
  apply (allocate_block_meets_policy 64 fresh_4096 64 ALLOCATE_EXACT 6144
           6144 hole_at_6144).
  - exact fresh_4096_wf.
  - word.
  - vm_compute. reflexivity.
  - reflexivity.
  - vm_compute. discriminate.
Defined.



(** X5 on [free(0x1000, 64)] with nothing allocated. *)
Lemma free_ignored_iff_invalid_witness :
  free 64 fresh_4096 4096 64 = Done fresh_4096
  <-> round_up 64 (_granularity fresh_4096) 64 = 0
      \/ ~ (_base fresh_4096 <= round_down 64 (_granularity fresh_4096) 4096
            /\ round_down 64 (_granularity fresh_4096) 4096
               + round_up 64 (_granularity fresh_4096) 64
               <= _base fresh_4096 + _length fresh_4096)
      \/ exists x,
           round_down 64 (_granularity fresh_4096) 4096 <= x
           < round_down 64 (_granularity fresh_4096) 4096
             + round_up 64 (_granularity fresh_4096) 64
           /\ free_at fresh_4096 x.
Proof.
  apply (free_ignored_iff_invalid 64 fresh_4096 4096 64).
  - exact fresh_4096_wf.
  - word.
  - vm_compute. reflexivity.
Defined.


(** X7 on a request of 4097 bytes. *)
Lemma allocate_fails_iff_nothing_fits_witness :
  (invalid 64 = invalid 64
   <-> forall s b,
         In s (_free_mem_root fresh_4096) ->
         ~ fits s (round_up 64 (_granularity fresh_4096) 4097)
                ALLOCATE_ANY 0 b)
  /\ (invalid 64 = invalid 64 -> fresh_4096 = fresh_4096).
Proof.
  apply (allocate_fails_iff_nothing_fits 64 fresh_4096 4097 ALLOCATE_ANY 0
           (invalid 64) fresh_4096).
  - exact fresh_4096_wf.
  - word.
  - exact I.
  - vm_compute. discriminate.
  - vm_compute. reflexivity.
Defined.

(** X8 on [allocate(64, ANY)]: the block at [0x1400] fits too. *)
Lemma allocate_lowest_address_witness : 4096 <= 5120.
Proof.
  refine (allocate_lowest_address 64 fresh_4096 64 ALLOCATE_ANY 0 4096
            one_block _ _ _ _ _ (mk_span 0 4096 4096) 5120 _ _).
  - exact fresh_4096_wf.
  - word.
  - left. reflexivity.
  - reflexivity.
  - vm_compute. discriminate.
  - left. reflexivity.
  - change (round_up 64 (_granularity fresh_4096) 64) with 64.
    unfold fits, span_end. simpl. lia.
Defined.

(** X9 on three calls of [allocate(64, ANY)]. *)
Lemma allocations_do_not_overlap_witness :
  4096 + round_up 64 (_granularity fresh_4096) 64 <= 4224
  \/ 4224 + round_up 64 (_granularity fresh_4096) 64 <= 4096.
Proof.
  apply (allocations_do_not_overlap 64 fresh_4096 64 ALLOCATE_ANY 0 4096
           one_block [Allocate 64 ALLOCATE_ANY 0] two_blocks
           64 ALLOCATE_ANY 0 4224
           (mk_range_allocator 4096 4096 64 [mk_span 0 4288 3904]
                               (mk_pool 32 (seq 1 31)))).
  - exact fresh_4096_wf.
  - word.
  - word.
  - exact I.
  - exact I.
  - repeat constructor; unfold modulus; simpl; lia.
  - repeat constructor.
  - reflexivity.
  - vm_compute. discriminate.
  - reflexivity.
  - reflexivity.
  - vm_compute. discriminate.
Defined.

(** X10 on [free(0x1800, 64)] into the hole. *)
Lemma free_twice_witness : free 64 fresh_4096 6144 64 = Done fresh_4096.
Proof.
  apply (free_twice 64 hole_at_6144 6144 64 fresh_4096).
  - exact hole_at_6144_wf.
  - word.
  - vm_compute. reflexivity.
  - reflexivity.
Defined.

(** X11 on [free(0x1800, 64)] into the hole. *)
Lemma free_then_allocate_exact_witness :
  allocate 64 fresh_4096 (round_up 64 (_granularity hole_at_6144) 64)
           ALLOCATE_EXACT (round_down 64 (_granularity hole_at_6144) 6144)
  = Done (round_down 64 (_granularity hole_at_6144) 6144, hole_at_6144).
Proof.
  apply (free_then_allocate_exact 64 hole_at_6144 6144 64 fresh_4096).
  - exact hole_at_6144_wf.
  - word.
  - exact hole_at_6144_valid_release.
  - reflexivity.
Defined.

(** X13 on a range that ends at [2^64]. *)
Lemma free_ignored_when_range_wraps_witness :
  free 64 range_to_top (2 ^ 64 - 4096) 64 = Done range_to_top.
Proof.
  apply (free_ignored_when_range_wraps 64 range_to_top (2 ^ 64 - 4096) 64).
  - discriminate.
  - vm_compute. discriminate.
Defined.


(** X15 on the calls around the hole. *)
Lemma pool_suffices_even_witness :
  exists ra, run_calls 64 fresh_4096 hole_calls = Done ra.
Proof.
  apply (pool_suffices_even 64 4096 4096 64 hole_calls fresh_4096).
  - word.
  - word.
  - word.
  - unfold modulus. simpl. lia.
  - reflexivity.
  - reflexivity.
  - reflexivity.
  - exact hole_calls_fit.
  - repeat constructor.
Defined.

(** X16 on the calls around the hole. *)
Lemma free_spans_at_most_half_witness :
  2 * Z.of_nat (List.length (_free_mem_root hole_at_6144)) <= 4096 / 64 + 1.
Proof.
  apply (free_spans_at_most_half 64 4096 4096 64 hole_calls fresh_4096
           hole_at_6144).
  - word.
  - word.
  - word.
  - unfold modulus. simpl. lia.
  - reflexivity.
  - reflexivity.
  - exact hole_calls_fit.
  - repeat constructor.
  - reflexivity.
Defined.

(** X17 on the calls around the hole. *)
Lemma records_are_each_in_one_place_witness :
  Permutation (records hole_at_6144) (seq 0 (Z.to_nat (4096 / 64 / 2)))
  /\ NoDup (records hole_at_6144)
  /\ _pool (_spans hole_at_6144) = 4096 / 64 / 2.
Proof.
  apply (records_are_each_in_one_place 64 4096 4096 64 fresh_4096
           hole_calls hole_at_6144).
  - word.
  - word.
  - reflexivity.
  - reflexivity.
Defined.

(** X18 on the calls around the hole. *)
Lemma destroy_returns_every_record_witness :
  exists p,
    destroy_range_allocator (Some hole_at_6144) = Some p
    /\ _available_spans p
       = rev (map span_slot (_free_mem_root hole_at_6144))
         ++ _available_spans (_spans hole_at_6144)
    /\ Permutation (_available_spans p) (seq 0 (Z.to_nat (4096 / 64 / 2)))
    /\ _pool p = 4096 / 64 / 2.
Proof.
  apply (destroy_returns_every_record 64 4096 4096 64 fresh_4096
           hole_calls hole_at_6144).
  - word.
  - word.
  - reflexivity.
  - reflexivity.
Defined.


(** X20 on the calls around the hole and [allocate(64, ANY)]. *)
Lemma stores_agree_witness :
  exists rd0 rd rd',
    create_range_allocator_of 64 span_manager_allocate_new dynamic_get
      4096 4096 64 = Done (Some rd0)
    /\ run_calls_of 64 dynamic_get dynamic_release rd0 hole_calls = Done rd
    /\ allocate_of 64 dynamic_get dynamic_release rd 64 ALLOCATE_ANY 0
       = Done (4096, rd')
    /\ geometry (free_mem_root_of rd) = geometry (_free_mem_root hole_at_6144)
    /\ geometry (free_mem_root_of rd')
       = geometry [mk_span 0 4160 1984; mk_span 1 6208 1984].
Proof.
  apply (stores_agree 64 4096 4096 64 hole_calls fresh_4096 hole_at_6144
           64 ALLOCATE_ANY 0 4096
           (mk_range_allocator 4096 4096 64
              [mk_span 0 4160 1984; mk_span 1 6208 1984]
              (mk_pool 32 (seq 2 30)))).
  - reflexivity.
  - reflexivity.
  - reflexivity.
Defined.

(** X22 on a range of one granule. *)
Lemma dynamic_free_list_invariants_witness :
  exists rd,
    run_calls_of 64 dynamic_get dynamic_release
      (mk_range_allocator_of 4096 64 64 [mk_span 0 4096 64]
                             (mk_dynamic [] 1))
      [Allocate 64 ALLOCATE_ANY 0; Free 4096 64] = Done rd
    /\ ascending (free_mem_root_of rd) /\ not_adjacent (free_mem_root_of rd)
    /\ no_overlap (free_mem_root_of rd)
    /\ contained 4096 (4096 + 64 / 64 * 64) (free_mem_root_of rd).
Proof.
  apply (dynamic_free_list_invariants 64 4096 64 64).
  - word.
  - word.
  - word.
  - unfold modulus. simpl. lia.
  - reflexivity.
  - repeat constructor; unfold modulus; simpl; lia.
Defined.

(** X23 on a range of three granules and an allocation in the middle. *)
Lemma dynamic_store_deletes_every_record_witness :
  let rd :=
    mk_range_allocator_of 4096 192 64
      [mk_span 0 4096 64; mk_span 1 4224 64] (mk_dynamic [] 2) in
  Permutation (dynamic_records rd) (seq 0 2)
  /\ (2 <= 1 + 1)%nat
  /\ Permutation
       (span_manager_allocate_delete
          (range_allocator_delete_of dynamic_release rd))
       (seq 0 2).
Proof.
  apply (dynamic_store_deletes_every_record 64 4096 192 64
           [Allocate 64 ALLOCATE_EXACT 4160]
           (mk_range_allocator_of 4096 192 64 [mk_span 0 4096 192]
                                  (mk_dynamic [] 1))).
  - reflexivity.
  - reflexivity.
Defined.
